(** * Getting_Started_with_OpenQASM_on_Braket.ipynb

    A shallow embedding of the code cells of the notebook
    examples/braket_features/Getting_Started_with_OpenQASM_on_Braket.ipynb:
    the OpenQASM program texts it defines, the Python statements of its
    27 code cells, and an interpreter that runs them against an arbitrary
    external world (the Braket SDK, the cloud service, the Python runtime). *)

From Stdlib Require Import ZArith Ascii String List Bool Arith Lia DecimalString.
From stdpp Require Import base option list strings gmap.

#[local] Set Warnings "-register-all".
Local Open Scope string_scope.

(** ** The program texts

    Each text is the content of a triple-quoted Python literal, character
    for character: it starts with the line feed that follows the opening
    quotes and ends with the line feed before the closing quotes. *)

Module Text.

(** The double-quote character, which occurs in one program text. *)
Definition dq : string := String (ascii_of_nat 34) EmptyString.

Definition bell_qasm : string := "
OPENQASM 3;

qubit[2] q;
bit[2] c;

h q[0];
cnot q[0], q[1];

c = measure q;
".

Definition noisy_ghz3_program : string := "
// noisy_ghz3.qasm
// Prepare a 3 noisy qubit GHZ state
OPENQASM 3;

qubit[3] q;
bit[3] c;

h q[0];
#pragma braket noise depolarizing(0.1) q[0]
cnot q[0], q[1];
#pragma braket noise depolarizing(0.1) q[0]
#pragma braket noise depolarizing(0.1) q[1]
cnot q[1], q[2];
#pragma braket noise depolarizing(0.1) q[0]
#pragma braket noise depolarizing(0.1) q[1]

c = measure q;
".

Definition noisy_program_with_kraus_operators : string := "
// noisy_program_with_kraus_operators
OPENQASM 3;

qubit[2] q;
bit[2] c;

h q[0];
#pragma braket noise kraus([[0.9486833, 0], [0, 0.9486833]], [[0, 0.31622777], [0.31622777, 0]]) q[0]
cnot q[1], q[2];

c = measure q;
".

Definition program_with_unitary : string := "
// noisy_program_with_kraus_operators
OPENQASM 3;

qubit q;
bit c;

#pragma braket unitary([[0, -1im], [1im, 0]]) q
c = measure q;
".

Definition ghz_program_with_physical_qubits : string := "
// Prepare a GHZ state
OPENQASM 3;

bit[3] ro;
h $0;
cnot $0, $1;
cnot $1, $2;
ro[0] = measure $0;
ro[1] = measure $1;
ro[2] = measure $2;
".

Definition program_with_verbatim_box : string := "
OPENQASM 3;

bit[2] ro;
#pragma braket verbatim
box{
 rx(3.141592653589793) $0;
 rx(3.141592653589793) $0;
 cz $0, $1;
}
ro[0] = measure $0;
ro[1] = measure $1;
".

Definition bell_with_result_type : string :=
"
OPENQASM 3;

qubit[2] q;

#pragma braket result expectation x(q[0]) @ z(q[1])
#pragma braket result amplitude " ++ dq ++ "00" ++ dq ++ ", " ++ dq ++ "11" ++ dq ++ "
h q[0];
cnot q[0], q[1];
".

Definition program_with_non_simultaneously_measurable_result_types : string := "
OPENQASM 3;

qubit[2] q;

h q[0];
cnot q[0], q[1];

#pragma braket result expectation x(q[0]) @ z(q[1])
#pragma braket result expectation hermitian([[0, -1im], [1im, 0]]) q[0]
".

End Text.

(** ** The source text of the code cells

    The [source] field of each code cell, character for character; the
    lines of a cell are joined by line feeds. *)

Module Source.

Definition dq : string := Text.dq.
(** The delimiter of a triple-quoted literal. *)
Definition tq : string := dq ++ dq ++ dq.
Definition lf : string := String (ascii_of_nat 10) EmptyString.

Fixpoint lines (ls : list string) : string :=
  match ls with
  | nil => EmptyString
  | cons l nil => l
  | cons l ls' => l ++ lf ++ lines ls'
  end.

Definition source_00 : string :=
  lines
    [ "# Use Braket SDK Cost Tracking to estimate the cost to run this example";
      "from braket.tracking import Tracker";
      "t = Tracker().start()" ].

Definition source_01 : string :=
  "bell_qasm = " ++ tq ++ Text.bell_qasm ++ tq.

Definition source_02 : string :=
  lines
    [ "from braket.ir.jaqcd import CNot, H, Program";
      EmptyString;
      "program = Program(instructions=[H(target=0), CNot(control=0, target=1)])";
      "print(program.json(indent=2))" ].

Definition source_03 : string :=
  lines
    [ "import boto3";
      "import json";
      "from braket.aws import AwsDevice" ].

Definition source_04 : string :=
  lines
    [ "from braket.ir.openqasm import Program as OpenQASMProgram";
      EmptyString;
      "sv1 = AwsDevice(" ++ dq ++ "arn:aws:braket:::device/quantum-simulator/amazon/sv1" ++ dq ++ ")";
      EmptyString;
      "bell_program = OpenQASMProgram(source=bell_qasm)";
      EmptyString;
      "bell_task = sv1.run(";
      "    bell_program, ";
      "    shots=100, ";
      ")" ].

Definition source_05 : string :=
  lines
    [ "with open(" ++ dq ++ "bell.qasm" ++ dq ++ ", " ++ dq ++ "w" ++ dq ++ ") as f:";
      "    f.write(bell_qasm)" ].

Definition source_06 : string :=
  lines
    [ "# supportedOperations";
      "sv1.properties.action['braket.ir.openqasm.program'].supportedOperations" ].

Definition source_07 : string :=
  lines
    [ "# supportedPragmas";
      "sv1.properties.action['braket.ir.openqasm.program'].supportedPragmas" ].

Definition source_08 : string :=
  lines
    [ "# forbiddenPragmas";
      "sv1.properties.action['braket.ir.openqasm.program'].forbiddenPragmas" ].

Definition source_09 : string :=
  "noisy_ghz3_program = " ++ tq ++ Text.noisy_ghz3_program ++ tq.

Definition source_10 : string :=
  lines
    [ "from braket.circuits import Circuit, Observable, Gate, Noise";
      EmptyString;
      "noisy_ghz3_circ = Circuit().h(0).cnot(0, 1).cnot(1, 2)";
      "noise = Noise.Depolarizing(probability=0.1)";
      "noisy_ghz3_circ.apply_gate_noise(noise)" ].

Definition source_11 : string :=
  lines
    [ "dm1 = AwsDevice(" ++ dq ++ "arn:aws:braket:::device/quantum-simulator/amazon/dm1" ++ dq ++ ")";
      "noisy_ghz3_circ_task = dm1.run(noisy_ghz3_circ, shots = 10)";
      "noisy_ghz3_program_task = dm1.run(OpenQASMProgram(source=noisy_ghz3_program), shots = 10)" ].

Definition source_12 : string :=
  lines
    [ "sdk_result = noisy_ghz3_circ_task.result()";
      "openqasm_result = noisy_ghz3_program_task.result()";
      "sdk_measurement = sdk_result.measurement_counts";
      "openqasm_measurement = openqasm_result.measurement_counts";
      "print('sdk measurement results:', sdk_measurement)";
      "print('openqasm measurement results:', openqasm_measurement)" ].

Definition source_13 : string :=
  "noisy_program_with_kraus_operators = " ++ tq ++ Text.noisy_program_with_kraus_operators ++ tq.

Definition source_14 : string :=
  "program_with_unitary = " ++ tq ++ Text.program_with_unitary ++ tq.

Definition source_15 : string :=
  lines
    [ "unitary_task = dm1.run(OpenQASMProgram(source=program_with_unitary), shots = 10)";
      "unitary_result = unitary_task.result()";
      "print(unitary_result.measurement_counts)" ].

Definition source_16 : string :=
  "ghz_program_with_physical_qubits = " ++ tq ++ Text.ghz_program_with_physical_qubits ++ tq.

Definition source_17 : string :=
  lines
    [ "# choose the quantum device";
      "aspen_m1 = AwsDevice(" ++ dq ++ "arn:aws:braket:us-west-1::device/qpu/rigetti/Aspen-M-1" ++ dq ++ ")";
      EmptyString;
      "ghz_program_with_physical_qubits_task = aspen_m1.run(OpenQASMProgram(source=ghz_program_with_physical_qubits), shots = 10)";
      "measured_qubits = ghz_program_with_physical_qubits_task.result().measured_qubits";
      "print(" ++ dq ++ "Measured qubits:" ++ dq ++ ", measured_qubits)" ].

Definition source_18 : string :=
  "program_with_verbatim_box = " ++ tq ++ Text.program_with_verbatim_box ++ tq.

Definition source_19 : string :=
  lines
    [ "print(" ++ dq ++ "The native gates for the" ++ dq ++ ", aspen_m1.name, " ++ dq ++ "device are:" ++ dq ++ ")";
      "for gate in aspen_m1.properties.paradigm.nativeGateSet:";
      "    print(gate)" ].

Definition source_20 : string :=
  lines
    [ "import networkx as nx";
      "# access and visualize the device topology";
      "print(aspen_m1.properties.paradigm.connectivity.connectivityGraph)";
      "nx.draw_kamada_kawai(aspen_m1.topology_graph, with_labels=True, font_color=" ++ dq ++ "white" ++ dq ++ ")" ].

Definition source_21 : string :=
  lines
    [ "verbatim_task = aspen_m1.run(OpenQASMProgram(source=program_with_verbatim_box), shots = 10)";
      "verbatim_result = verbatim_task.result()";
      "meta = verbatim_result.additional_metadata.rigettiMetadata";
      "print(meta.compiledProgram)";
      EmptyString ].

Definition source_22 : string :=
  lines
    [ "# print the result types supported by SV1";
      "for iter in sv1.properties.action['braket.ir.openqasm.program'].supportedResultTypes:";
      "    print(iter)" ].

Definition source_23 : string :=
  "bell_with_result_type = " ++ tq ++ Text.bell_with_result_type ++ tq.

Definition source_24 : string :=
  lines
    [ "bell_result_types_task = sv1.run(OpenQASMProgram(source=bell_with_result_type), shots = 0)";
      "bell_result = bell_result_types_task.result()";
      "values = bell_result.values";
      "print(values)" ].

Definition source_25 : string :=
  "program_with_non_simultaneously_measurable_result_types = " ++ tq ++ Text.program_with_non_simultaneously_measurable_result_types ++ tq.

Definition source_26 : string :=
  lines
    [ "print(" ++ dq ++ "Task Summary" ++ dq ++ ")";
      "print(t.quantum_tasks_statistics())";
      "print('Note: Charges shown are estimates based on your Amazon Braket simulator and quantum processing unit (QPU) task usage. Estimated charges shown may differ from your actual charges. Estimated charges do not factor in any discounts or credits, and you may experience additional charges based on your use of other services such as Amazon Elastic Compute Cloud (Amazon EC2).')";
      "print(f" ++ dq ++ "Estimated cost to run this example: {t.qpu_tasks_cost() + t.simulator_tasks_cost():.2f} USD" ++ dq ++ ")" ].

Definition sources : list string :=
  [ source_00; source_01; source_02; source_03; source_04; source_05;
    source_06; source_07; source_08; source_09; source_10; source_11;
    source_12; source_13; source_14; source_15; source_16; source_17;
    source_18; source_19; source_20; source_21; source_22; source_23;
    source_24; source_25; source_26 ].

End Source.

(** ** The words of a cell

    The identifiers, keywords and numbers of a piece of Python source: the
    maximal runs of letters, digits and underscores outside comments and
    string literals.  Of an f-string, the replacement fields [{...}] are
    code, up to the format specification; the text around them is not. *)

Module Lex.

Definition is_word_char (c : ascii) : bool :=
  let n := nat_of_ascii c in
  ((48 <=? n)%nat && (n <=? 57)%nat) || ((65 <=? n)%nat && (n <=? 90)%nat) ||
  ((97 <=? n)%nat && (n <=? 122)%nat) || (n =? 95)%nat.

Definition is_quote (c : ascii) : bool :=
  (nat_of_ascii c =? 34)%nat || (nat_of_ascii c =? 39)%nat.

Inductive mode : Type :=
| Code
| Comment
| Literal (q : ascii) (triple : bool) (fstring : bool)
| Template (q : ascii) (triple : bool)   (* the text of an f-string *)
| Field (q : ascii) (triple : bool)      (* a replacement field of it *)
| Spec (q : ascii) (triple : bool).      (* the format of a field *)

(** The character that follows is [c]. *)
Definition next_is (c : ascii) (s : string) : bool :=
  match s with
  | String a _ => Ascii.eqb a c
  | EmptyString => false
  end.

(** The two characters that follow are both [q]. *)
Definition twice (q : ascii) (s : string) : bool :=
  match s with
  | String a (String b _) => Ascii.eqb a q && Ascii.eqb b q
  | _ => false
  end.

Definition flush (cur : string) (ws : list string) : list string :=
  match cur with
  | EmptyString => ws
  | _ => cur :: ws
  end.

Definition snoc (cur : string) (c : ascii) : string :=
  cur ++ String c EmptyString.

(** [scan m skip cur s]: [m] is where the scanner is, [skip] the number of
    characters still to pass over, [cur] the word being read. *)
Fixpoint scan (m : mode) (skip : nat) (cur : string) (s : string) : list string :=
  match s with
  | EmptyString => flush cur nil
  | String c s' =>
      match skip with
      | S k => scan m k cur s'
      | O =>
          match m with
          | Code =>
              if is_word_char c then scan Code 0 (snoc cur c) s'
              else if Ascii.eqb c "#" then flush cur (scan Comment 0 EmptyString s')
              else if is_quote c then
                let t := twice c s' in
                if String.eqb cur "f"
                then scan (Template c t) (if t then 2 else 0) EmptyString s'
                else flush cur
                       (scan (Literal c t false) (if t then 2 else 0) EmptyString s')
              else flush cur (scan Code 0 EmptyString s')
          | Comment =>
              if Ascii.eqb c (ascii_of_nat 10) then scan Code 0 EmptyString s'
              else scan Comment 0 EmptyString s'
          | Literal q t f =>
              if Ascii.eqb c "\" then flush cur (scan m 1 EmptyString s')
              else if Ascii.eqb c q && (negb t || twice q s') then
                flush cur (scan Code (if t then 2 else 0) EmptyString s')
              else if f && is_word_char c then scan m 0 (snoc cur c) s'
              else flush cur (scan m 0 EmptyString s')
          | Template q t =>
              if Ascii.eqb c "\" then scan m 1 EmptyString s'
              else if Ascii.eqb c q && (negb t || twice q s') then
                scan Code (if t then 2 else 0) EmptyString s'
              else if Ascii.eqb c "{" then
                if next_is "{" s' then scan m 1 EmptyString s'
                else scan (Field q t) 0 EmptyString s'
              else scan m 0 EmptyString s'
          | Field q t =>
              if is_word_char c then scan m 0 (snoc cur c) s'
              else if Ascii.eqb c "}" then flush cur (scan (Template q t) 0 EmptyString s')
              else if Ascii.eqb c ":" || Ascii.eqb c "!" then
                flush cur (scan (Spec q t) 0 EmptyString s')
              else flush cur (scan m 0 EmptyString s')
          | Spec q t =>
              if Ascii.eqb c "}" then scan (Template q t) 0 EmptyString s'
              else scan m 0 EmptyString s'
          end
      end
  end.

Definition words (src : string) : list string := scan Code 0 EmptyString src.

(** The words of a text that is all code. *)
Definition split_words (s : string) : list string :=
  scan (Literal (ascii_of_nat 0) false true) 0 EmptyString s.

End Lex.

(** ** Python syntax of the code cells *)

Module Py.

Local Open Scope list_scope.

Inductive expr : Type :=
| EStr (s : string)                      (* string literal *)
| EInt (z : Z)                           (* integer literal *)
| EBool (b : bool)                       (* True, False *)
| EFloat (lit : string)                  (* float literal, kept as written *)
| EName (x : string)
| EAttr (e : expr) (a : string)          (* e.a *)
| ESubscript (e k : expr)                (* e[k] *)
| ECall (f : expr) (args : list expr) (kwargs : list (string * expr))
| EList (es : list expr)                 (* [e1, ..., en] *)
| EAdd (a b : expr)                      (* a + b *)
| EFormatted (e : expr) (spec : string)  (* {e:spec} inside an f-string *)
| EJoined (parts : list expr).           (* f-string *)

Inductive stmt : Type :=
| SImport (module : string) (asname : option string)
| SFromImport (module : string) (names : list (string * option string))
| SAssign (x : string) (e : expr)
| SExpr (e : expr)
| SWith (cm : expr) (x : string) (body : list stmt)
| SFor (x : string) (it : expr) (body : list stmt).

(** A code cell is the list of its top-level statements. *)
Definition cell : Type := list stmt.

(** *** Values and external operations

    The notebook owns only literals; every other object is handed out by
    the outside (the Python runtime, the Braket SDK, the cloud service).
    Such an object is named by the operation that returned it and by the
    number of that operation in the run. *)

Inductive value : Type :=
| VStr (s : string)
| VInt (z : Z)
| VBool (b : bool)
| VFloat (lit : string)
| VList (vs : list value)
| VJoined (vs : list value)
| VBuiltin (name : string)
| VRet (i : nat) (o : op)
| VItem (i : nat) (o : op) (j : nat)
with op : Type :=
| OImport (module : string)
| OImportFrom (m : value) (name : string)
| OCall (f : value) (args : list value) (kwargs : list (string * value))
| OGetAttr (o : value) (a : string)
| OGetItem (o : value) (k : value)
| OAdd (a b : value)
| OFormat (v : value) (spec : string)
| OIter (o : value)
| OEnter (cm : value)
| OExit (cm : value)
| ODisplay (v : value).

(** What a run leaves behind, in order: operations performed on the
    outside, and names bound in the global namespace. *)
Inductive event : Type :=
| Perform (i : nat) (o : op)
| Bind (x : string) (v : value).

(** The outside: operation number [i] raises [raises i] if that is
    [Some _]; an iteration started by operation [i] yields [items i]
    elements (the iterables of the notebook are finite lists). *)
Record world : Type := World {
  raises : nat -> option string;
  items : nat -> nat
}.

Inductive exn : Type :=
| NameError (x : string)
| Raised (i : nat) (what : string).

Inductive outcome (A : Type) : Type :=
| Ok (a : A)
| Err (e : exn).
Arguments Ok {A} a.
Arguments Err {A} e.

Record state : Type := State {
  globals : gmap string value;
  clock : nat
}.

Definition M (A : Type) : Type := state -> outcome A * state * list event.

Definition ret {A} (a : A) : M A := fun st => (Ok a, st, []).

Definition bind {A B} (m : M A) (f : A -> M B) : M B :=
  fun st =>
    match m st with
    | (Ok a, st1, ev1) =>
        match f a st1 with
        | (r, st2, ev2) => (r, st2, ev1 ++ ev2)
        end
    | (Err e, st1, ev1) => (Err e, st1, ev1)
    end.

Definition throw {A} (e : exn) : M A := fun st => (Err e, st, []).

(** [finally m c]: run [m], then run [c] whether [m] raised or not; an
    error of [c] replaces the one of [m]. *)
Definition finally {A} (m : M A) (c : M unit) : M A :=
  fun st =>
    match m st with
    | (r, st1, ev1) =>
        match c st1 with
        | (Ok _, st2, ev2) => (r, st2, ev1 ++ ev2)
        | (Err e, st2, ev2) => (Err e, st2, ev1 ++ ev2)
        end
    end.

Declare Scope py_scope.
Delimit Scope py_scope with py.
Notation "x <- m ;; k" := (bind m (fun x => k))
  (at level 100, m at next level, right associativity) : py_scope.
Notation "m ;;; k" := (bind m (fun _ => k))
  (at level 100, right associativity) : py_scope.
Local Open Scope py_scope.

(** The names Python resolves when the global namespace has no binding. *)
Definition builtins : list string :=
  [ "abs"; "aiter"; "all"; "anext"; "any"; "ascii"; "bin"; "bool";
    "breakpoint"; "bytearray"; "bytes"; "callable"; "chr"; "classmethod";
    "compile"; "complex"; "delattr"; "dict"; "dir"; "divmod"; "enumerate";
    "eval"; "exec"; "filter"; "float"; "format"; "frozenset"; "getattr";
    "globals"; "hasattr"; "hash"; "help"; "hex"; "id"; "input"; "int";
    "isinstance"; "issubclass"; "iter"; "len"; "list"; "locals"; "map";
    "max"; "memoryview"; "min"; "next"; "object"; "oct"; "open"; "ord";
    "pow"; "print"; "property"; "range"; "repr"; "reversed"; "round";
    "set"; "setattr"; "slice"; "sorted"; "staticmethod"; "str"; "sum";
    "super"; "tuple"; "type"; "vars"; "zip"; "__import__" ].

Definition is_builtin (x : string) : bool :=
  existsb (String.eqb x) builtins.

Definition lookup_name (x : string) : M value :=
  fun st =>
    match globals st !! x with
    | Some v => (Ok v, st, [])
    | None =>
        if is_builtin x then (Ok (VBuiltin x), st, [])
        else (Err (NameError x), st, [])
    end.

Definition bind_name (x : string) (v : value) : M unit :=
  fun st =>
    (Ok tt, State (<[x := v]> (globals st)) (clock st), [Bind x v]).

(** The name bound by [import a.b.c] is [a]. *)
Fixpoint before_dot (s : string) : string :=
  match s with
  | EmptyString => EmptyString
  | String c s' => if Ascii.eqb c "." then EmptyString else String c (before_dot s')
  end.

Section Run.

Variable w : world.

(** Perform one operation on the outside. *)
Definition perform (o : op) : M value :=
  fun st =>
    let i := clock st in
    let st' := State (globals st) (S i) in
    match raises w i with
    | Some what => (Err (Raised i what), st', [Perform i o])
    | None => (Ok (VRet i o), st', [Perform i o])
    end.

(** Start an iteration; the outside yields its elements. *)
Definition iterate (v : value) : M (list value) :=
  fun st =>
    let i := clock st in
    match perform (OIter v) st with
    | (Ok _, st', ev) => (Ok (map (VItem i (OIter v)) (seq 0 (items w i))), st', ev)
    | (Err e, st', ev) => (Err e, st', ev)
    end.

(** Leaving a [with] block: the context manager's [__exit__]. *)
Definition leave (cm : value) : M unit := perform (OExit cm) ;;; ret tt.

Fixpoint eval (e : expr) : M value :=
  match e with
  | EStr s => ret (VStr s)
  | EInt z => ret (VInt z)
  | EBool b => ret (VBool b)
  | EFloat lit => ret (VFloat lit)
  | EName x => lookup_name x
  | EAttr e a => v <- eval e ;; perform (OGetAttr v a)
  | ESubscript e k => v <- eval e ;; vk <- eval k ;; perform (OGetItem v vk)
  | ECall f args kwargs =>
      vf <- eval f ;;
      vargs <- (fix eval_args (es : list expr) : M (list value) :=
                  match es with
                  | [] => ret []
                  | e :: es' => v <- eval e ;; vs <- eval_args es' ;; ret (v :: vs)
                  end) args ;;
      vkw <- (fix eval_kwargs (kes : list (string * expr)) : M (list (string * value)) :=
                match kes with
                | [] => ret []
                | (k, e) :: kes' =>
                    v <- eval e ;; kvs <- eval_kwargs kes' ;; ret ((k, v) :: kvs)
                end) kwargs ;;
      perform (OCall vf vargs vkw)
  | EList es =>
      vs <- (fix eval_args (es : list expr) : M (list value) :=
               match es with
               | [] => ret []
               | e :: es' => v <- eval e ;; vs <- eval_args es' ;; ret (v :: vs)
               end) es ;;
      ret (VList vs)
  | EAdd a b => va <- eval a ;; vb <- eval b ;; perform (OAdd va vb)
  | EFormatted e spec => v <- eval e ;; perform (OFormat v spec)
  | EJoined parts =>
      vs <- (fix eval_args (es : list expr) : M (list value) :=
               match es with
               | [] => ret []
               | e :: es' => v <- eval e ;; vs <- eval_args es' ;; ret (v :: vs)
               end) parts ;;
      ret (VJoined vs)
  end.

Fixpoint eval_args (es : list expr) : M (list value) :=
  match es with
  | [] => ret []
  | e :: es' => v <- eval e ;; vs <- eval_args es' ;; ret (v :: vs)
  end.

Fixpoint eval_kwargs (kes : list (string * expr)) : M (list (string * value)) :=
  match kes with
  | [] => ret []
  | (k, e) :: kes' => v <- eval e ;; kvs <- eval_kwargs kes' ;; ret ((k, v) :: kvs)
  end.

Fixpoint import_from (m : value) (names : list (string * option string)) : M unit :=
  match names with
  | [] => ret tt
  | (n, a) :: names' =>
      v <- perform (OImportFrom m n) ;;
      bind_name (default n a) v ;;;
      import_from m names'
  end.

Fixpoint exec (s : stmt) : M unit :=
  let block :=
    fix block (ss : list stmt) : M unit :=
      match ss with
      | [] => ret tt
      | s' :: ss' => exec s' ;;; block ss'
      end in
  match s with
  | SImport m a =>
      v <- perform (OImport m) ;;
      bind_name (default (before_dot m) a) v
  | SFromImport m names =>
      v <- perform (OImport m) ;;
      import_from v names
  | SAssign x e => v <- eval e ;; bind_name x v
  | SExpr e => eval e ;;; ret tt
  | SWith cm x body =>
      vcm <- eval cm ;;
      v <- perform (OEnter vcm) ;;
      finally (bind_name x v ;;; block body) (leave vcm)
  | SFor x it body =>
      vit <- eval it ;;
      vs <- iterate vit ;;
      (fix loop (vs : list value) : M unit :=
         match vs with
         | [] => ret tt
         | v :: vs' => bind_name x v ;;; block body ;;; loop vs'
         end) vs
  end.

Fixpoint exec_block (ss : list stmt) : M unit :=
  match ss with
  | [] => ret tt
  | s :: ss' => exec s ;;; exec_block ss'
  end.

Definition for_loop (x : string) (body : list stmt) : list value -> M unit :=
  fix loop (vs : list value) : M unit :=
    match vs with
    | [] => ret tt
    | v :: vs' => bind_name x v ;;; exec_block body ;;; loop vs'
    end.

(** A cell runs its statements; when the last one is an expression, the
    notebook front end is handed its value for display. *)
Fixpoint run_cell (c : cell) : M unit :=
  match c with
  | [] => ret tt
  | [SExpr e] => v <- eval e ;; perform (ODisplay v) ;;; ret tt
  | s :: c' => exec s ;;; run_cell c'
  end.

(** Run All: the cells in order, stopping at the first error. *)
Fixpoint run_cells (cs : list cell) : M unit :=
  match cs with
  | [] => ret tt
  | c :: cs' => run_cell c ;;; run_cells cs'
  end.

End Run.

(** Induction over expressions and statements, through the argument and
    body lists. *)
Section Induction.

Variable P : expr -> Prop.
Hypothesis HStr : forall s, P (EStr s).
Hypothesis HInt : forall z, P (EInt z).
Hypothesis HBool : forall b, P (EBool b).
Hypothesis HFloat : forall lit, P (EFloat lit).
Hypothesis HName : forall x, P (EName x).
Hypothesis HAttr : forall e a, P e -> P (EAttr e a).
Hypothesis HSubscript : forall e k, P e -> P k -> P (ESubscript e k).
Hypothesis HCall : forall f args kwargs,
  P f -> Forall P args -> Forall (fun ke => P (snd ke)) kwargs ->
  P (ECall f args kwargs).
Hypothesis HList : forall es, Forall P es -> P (EList es).
Hypothesis HAdd : forall a b, P a -> P b -> P (EAdd a b).
Hypothesis HFormatted : forall e spec, P e -> P (EFormatted e spec).
Hypothesis HJoined : forall parts, Forall P parts -> P (EJoined parts).

Fixpoint expr_induction (e : expr) : P e :=
  let all :=
    fix all (es : list expr) : Forall P es :=
      match es with
      | [] => List.Forall_nil P
      | e' :: es' => List.Forall_cons P e' es' (expr_induction e') (all es')
      end in
  match e with
  | EStr s => HStr s
  | EInt z => HInt z
  | EBool b => HBool b
  | EFloat lit => HFloat lit
  | EName x => HName x
  | EAttr e' a => HAttr e' a (expr_induction e')
  | ESubscript e' k => HSubscript e' k (expr_induction e') (expr_induction k)
  | ECall f args kwargs =>
      HCall f args kwargs (expr_induction f) (all args)
        ((fix allkw (kes : list (string * expr)) : Forall (fun ke => P (snd ke)) kes :=
            match kes with
            | [] => List.Forall_nil _
            | (k, e') :: kes' =>
                List.Forall_cons (fun ke => P (snd ke)) (k, e') kes'  (expr_induction e') (allkw kes')
            end) kwargs)
  | EList es => HList es (all es)
  | EAdd a b => HAdd a b (expr_induction a) (expr_induction b)
  | EFormatted e' spec => HFormatted e' spec (expr_induction e')
  | EJoined parts => HJoined parts (all parts)
  end.

End Induction.

Section StmtInduction.

Variable P : stmt -> Prop.
Hypothesis HImport : forall m a, P (SImport m a).
Hypothesis HFromImport : forall m names, P (SFromImport m names).
Hypothesis HAssign : forall x e, P (SAssign x e).
Hypothesis HExpr : forall e, P (SExpr e).
Hypothesis HWith : forall cm x body, Forall P body -> P (SWith cm x body).
Hypothesis HFor : forall x it body, Forall P body -> P (SFor x it body).

Fixpoint stmt_induction (s : stmt) : P s :=
  let all :=
    fix all (ss : list stmt) : Forall P ss :=
      match ss with
      | [] => List.Forall_nil P
      | s' :: ss' => List.Forall_cons P s' ss' (stmt_induction s') (all ss')
      end in
  match s with
  | SImport m a => HImport m a
  | SFromImport m names => HFromImport m names
  | SAssign x e => HAssign x e
  | SExpr e => HExpr e
  | SWith cm x body => HWith cm x body (all body)
  | SFor x it body => HFor x it body (all body)
  end.

End StmtInduction.

(** The statement forms, in terms of the named functions. *)
Lemma eval_call w f args kwargs :
  eval w (ECall f args kwargs) =
  (vf <- eval w f ;; vargs <- eval_args w args ;; vkw <- eval_kwargs w kwargs ;;
   perform w (OCall vf vargs vkw)).
Proof. reflexivity. Qed.

Lemma eval_list w es :
  eval w (EList es) = (vs <- eval_args w es ;; ret (VList vs)).
Proof. reflexivity. Qed.

Lemma eval_joined w parts :
  eval w (EJoined parts) = (vs <- eval_args w parts ;; ret (VJoined vs)).
Proof. reflexivity. Qed.

Lemma exec_with w cm x body :
  exec w (SWith cm x body) =
  (vcm <- eval w cm ;; v <- perform w (OEnter vcm) ;;
   finally (bind_name x v ;;; exec_block w body) (leave w vcm)).
Proof. reflexivity. Qed.

Lemma exec_for w x it body :
  exec w (SFor x it body) =
  (vit <- eval w it ;; vs <- iterate w vit ;; for_loop w x body vs).
Proof. reflexivity. Qed.

Definition init : state := State ∅ 0.

End Py.

(** ** The code cells of the notebook, in document order *)

Module Notebook.

Import Py.
Local Open Scope list_scope.

(** [f(args, kw=...)] on a name, and [recv.m(args, kw=...)]. *)
Definition call (f : string) (args : list expr) (kwargs : list (string * expr)) : expr :=
  ECall (EName f) args kwargs.
Definition method (recv : expr) (m : string) (args : list expr)
    (kwargs : list (string * expr)) : expr :=
  ECall (EAttr recv m) args kwargs.

(** [sv1.properties.action['braket.ir.openqasm.program']] *)
Definition sv1_openqasm_action : expr :=
  ESubscript (EAttr (EAttr (EName "sv1") "properties") "action")
             (EStr "braket.ir.openqasm.program").

Definition cell_00 : cell :=
  [ SFromImport "braket.tracking" [("Tracker", None)];
    SAssign "t" (method (call "Tracker" [] []) "start" [] []) ].

Definition cell_01 : cell :=
  [ SAssign "bell_qasm" (EStr Text.bell_qasm) ].

Definition cell_02 : cell :=
  [ SFromImport "braket.ir.jaqcd" [("CNot", None); ("H", None); ("Program", None)];
    SAssign "program"
      (call "Program" []
         [("instructions",
           EList [ call "H" [] [("target", EInt 0)];
                   call "CNot" [] [("control", EInt 0); ("target", EInt 1)] ])]);
    SExpr (call "print" [method (EName "program") "json" [] [("indent", EInt 2)]] []) ].

Definition cell_03 : cell :=
  [ SImport "boto3" None;
    SImport "json" None;
    SFromImport "braket.aws" [("AwsDevice", None)] ].

Definition cell_04 : cell :=
  [ SFromImport "braket.ir.openqasm" [("Program", Some "OpenQASMProgram")];
    SAssign "sv1"
      (call "AwsDevice" [EStr "arn:aws:braket:::device/quantum-simulator/amazon/sv1"] []);
    SAssign "bell_program" (call "OpenQASMProgram" [] [("source", EName "bell_qasm")]);
    SAssign "bell_task"
      (method (EName "sv1") "run" [EName "bell_program"] [("shots", EInt 100)]) ].

Definition cell_05 : cell :=
  [ SWith (call "open" [EStr "bell.qasm"; EStr "w"] []) "f"
      [ SExpr (method (EName "f") "write" [EName "bell_qasm"] []) ] ].

Definition cell_06 : cell :=
  [ SExpr (EAttr sv1_openqasm_action "supportedOperations") ].

Definition cell_07 : cell :=
  [ SExpr (EAttr sv1_openqasm_action "supportedPragmas") ].

Definition cell_08 : cell :=
  [ SExpr (EAttr sv1_openqasm_action "forbiddenPragmas") ].

Definition cell_09 : cell :=
  [ SAssign "noisy_ghz3_program" (EStr Text.noisy_ghz3_program) ].

Definition cell_10 : cell :=
  [ SFromImport "braket.circuits"
      [("Circuit", None); ("Observable", None); ("Gate", None); ("Noise", None)];
    SAssign "noisy_ghz3_circ"
      (method (method (method (call "Circuit" [] []) "h" [EInt 0] [])
                      "cnot" [EInt 0; EInt 1] [])
              "cnot" [EInt 1; EInt 2] []);
    SAssign "noise"
      (method (EName "Noise") "Depolarizing" [] [("probability", EFloat "0.1")]);
    SExpr (method (EName "noisy_ghz3_circ") "apply_gate_noise" [EName "noise"] []) ].

Definition cell_11 : cell :=
  [ SAssign "dm1"
      (call "AwsDevice" [EStr "arn:aws:braket:::device/quantum-simulator/amazon/dm1"] []);
    SAssign "noisy_ghz3_circ_task"
      (method (EName "dm1") "run" [EName "noisy_ghz3_circ"] [("shots", EInt 10)]);
    SAssign "noisy_ghz3_program_task"
      (method (EName "dm1") "run"
         [call "OpenQASMProgram" [] [("source", EName "noisy_ghz3_program")]]
         [("shots", EInt 10)]) ].

Definition cell_12 : cell :=
  [ SAssign "sdk_result" (method (EName "noisy_ghz3_circ_task") "result" [] []);
    SAssign "openqasm_result" (method (EName "noisy_ghz3_program_task") "result" [] []);
    SAssign "sdk_measurement" (EAttr (EName "sdk_result") "measurement_counts");
    SAssign "openqasm_measurement" (EAttr (EName "openqasm_result") "measurement_counts");
    SExpr (call "print" [EStr "sdk measurement results:"; EName "sdk_measurement"] []);
    SExpr (call "print" [EStr "openqasm measurement results:";
                         EName "openqasm_measurement"] []) ].

Definition cell_13 : cell :=
  [ SAssign "noisy_program_with_kraus_operators"
      (EStr Text.noisy_program_with_kraus_operators) ].

Definition cell_14 : cell :=
  [ SAssign "program_with_unitary" (EStr Text.program_with_unitary) ].

Definition cell_15 : cell :=
  [ SAssign "unitary_task"
      (method (EName "dm1") "run"
         [call "OpenQASMProgram" [] [("source", EName "program_with_unitary")]]
         [("shots", EInt 10)]);
    SAssign "unitary_result" (method (EName "unitary_task") "result" [] []);
    SExpr (call "print" [EAttr (EName "unitary_result") "measurement_counts"] []) ].

Definition cell_16 : cell :=
  [ SAssign "ghz_program_with_physical_qubits"
      (EStr Text.ghz_program_with_physical_qubits) ].

Definition cell_17 : cell :=
  [ SAssign "aspen_m1"
      (call "AwsDevice" [EStr "arn:aws:braket:us-west-1::device/qpu/rigetti/Aspen-M-1"] []);
    SAssign "ghz_program_with_physical_qubits_task"
      (method (EName "aspen_m1") "run"
         [call "OpenQASMProgram" [] [("source", EName "ghz_program_with_physical_qubits")]]
         [("shots", EInt 10)]);
    SAssign "measured_qubits"
      (EAttr (method (EName "ghz_program_with_physical_qubits_task") "result" [] [])
             "measured_qubits");
    SExpr (call "print" [EStr "Measured qubits:"; EName "measured_qubits"] []) ].

Definition cell_18 : cell :=
  [ SAssign "program_with_verbatim_box" (EStr Text.program_with_verbatim_box) ].

Definition cell_19 : cell :=
  [ SExpr (call "print" [EStr "The native gates for the";
                         EAttr (EName "aspen_m1") "name";
                         EStr "device are:"] []);
    SFor "gate"
      (EAttr (EAttr (EAttr (EName "aspen_m1") "properties") "paradigm") "nativeGateSet")
      [ SExpr (call "print" [EName "gate"] []) ] ].

Definition cell_20 : cell :=
  [ SImport "networkx" (Some "nx");
    SExpr (call "print"
             [EAttr (EAttr (EAttr (EAttr (EName "aspen_m1") "properties") "paradigm")
                           "connectivity") "connectivityGraph"] []);
    SExpr (method (EName "nx") "draw_kamada_kawai"
             [EAttr (EName "aspen_m1") "topology_graph"]
             [("with_labels", EBool true); ("font_color", EStr "white")]) ].

Definition cell_21 : cell :=
  [ SAssign "verbatim_task"
      (method (EName "aspen_m1") "run"
         [call "OpenQASMProgram" [] [("source", EName "program_with_verbatim_box")]]
         [("shots", EInt 10)]);
    SAssign "verbatim_result" (method (EName "verbatim_task") "result" [] []);
    SAssign "meta"
      (EAttr (EAttr (EName "verbatim_result") "additional_metadata") "rigettiMetadata");
    SExpr (call "print" [EAttr (EName "meta") "compiledProgram"] []) ].

Definition cell_22 : cell :=
  [ SFor "iter" (EAttr sv1_openqasm_action "supportedResultTypes")
      [ SExpr (call "print" [EName "iter"] []) ] ].

Definition cell_23 : cell :=
  [ SAssign "bell_with_result_type" (EStr Text.bell_with_result_type) ].

Definition cell_24 : cell :=
  [ SAssign "bell_result_types_task"
      (method (EName "sv1") "run"
         [call "OpenQASMProgram" [] [("source", EName "bell_with_result_type")]]
         [("shots", EInt 0)]);
    SAssign "bell_result" (method (EName "bell_result_types_task") "result" [] []);
    SAssign "values" (EAttr (EName "bell_result") "values");
    SExpr (call "print" [EName "values"] []) ].

Definition cell_25 : cell :=
  [ SAssign "program_with_non_simultaneously_measurable_result_types"
      (EStr Text.program_with_non_simultaneously_measurable_result_types) ].

Definition charges_note : string :=
  "Note: Charges shown are estimates based on your Amazon Braket simulator and quantum processing unit (QPU) task usage. Estimated charges shown may differ from your actual charges. Estimated charges do not factor in any discounts or credits, and you may experience additional charges based on your use of other services such as Amazon Elastic Compute Cloud (Amazon EC2).".

Definition cell_26 : cell :=
  [ SExpr (call "print" [EStr "Task Summary"] []);
    SExpr (call "print" [method (EName "t") "quantum_tasks_statistics" [] []] []);
    SExpr (call "print" [EStr charges_note] []);
    SExpr (call "print"
             [EJoined [ EStr "Estimated cost to run this example: ";
                        EFormatted (EAdd (method (EName "t") "qpu_tasks_cost" [] [])
                                         (method (EName "t") "simulator_tasks_cost" [] []))
                                   ".2f";
                        EStr " USD" ]] []) ].

Definition cells : list cell :=
  [ cell_00; cell_01; cell_02; cell_03; cell_04; cell_05; cell_06; cell_07;
    cell_08; cell_09; cell_10; cell_11; cell_12; cell_13; cell_14; cell_15;
    cell_16; cell_17; cell_18; cell_19; cell_20; cell_21; cell_22; cell_23;
    cell_24; cell_25; cell_26 ].

(** Running the whole notebook from an empty namespace. *)
Definition run (w : world) : outcome unit * state * list event :=
  run_cells w cells init.

Definition trace (w : world) : list event := snd (run w).
Definition result (w : world) : outcome unit := fst (fst (run w)).

(** The outside as recorded in the saved outputs of the notebook: nothing
    raises, and both loops print five lines. *)
Definition recorded : world := World (fun _ => None) (fun _ => 5).

End Notebook.

(** ** The words of a syntax tree

    The words a cell's statements are written with, in source order.  They
    are compared below with the words of the cell's source text. *)

Module Words.

Import Py.
Local Open Scope list_scope.

Definition number (z : Z) : string := NilZero.string_of_int (Z.to_int z).

Fixpoint expr_words (e : expr) : list string :=
  match e with
  | EStr _ => []
  | EInt z => [number z]
  | EBool b => [if b then "True" else "False"]
  | EFloat lit => Lex.split_words lit
  | EName x => [x]
  | EAttr e' a => expr_words e' ++ [a]
  | ESubscript e' k => expr_words e' ++ expr_words k
  | ECall f args kwargs =>
      expr_words f ++ flat_map expr_words args ++
      flat_map (fun ke => fst ke :: expr_words (snd ke)) kwargs
  | EList es => flat_map expr_words es
  | EAdd a b => expr_words a ++ expr_words b
  | EFormatted e' _ => expr_words e'
  | EJoined parts => flat_map expr_words parts
  end.

Definition alias_words (a : option string) : list string :=
  match a with
  | Some x => ["as"; x]
  | None => []
  end.

Fixpoint stmt_words (s : stmt) : list string :=
  match s with
  | SImport m a => "import" :: Lex.split_words m ++ alias_words a
  | SFromImport m names =>
      "from" :: Lex.split_words m ++ "import" ::
      flat_map (fun na => fst na :: alias_words (snd na)) names
  | SAssign x e => x :: expr_words e
  | SExpr e => expr_words e
  | SWith cm x body =>
      "with" :: expr_words cm ++ "as" :: x :: flat_map stmt_words body
  | SFor x it body =>
      "for" :: x :: "in" :: expr_words it ++ flat_map stmt_words body
  end.

Definition cell_words (c : cell) : list string := flat_map stmt_words c.

(** Each cell is written with the words of its syntax tree. *)
Lemma cells_as_written :
  Forall2 (fun c src => cell_words c = Lex.words src) Notebook.cells Source.sources.
Proof. repeat constructor. Qed.

End Words.

(** ** Failures of the outside cut a run short

    [calm w] is the world [w] in which nothing raises.  A run in [w]
    either coincides with the run in [calm w], or ends in an error that
    the outside raised; its events are then a prefix of the calm run's,
    followed by the [__exit__] calls of the [with] blocks being left. *)

Module Cut.

Import Py.
Local Open Scope list_scope.
Local Open Scope py_scope.

Definition calm (w : world) : world := World (fun _ => None) (items w).

Definition is_exit (e : event) : Prop :=
  match e with
  | Perform _ (OExit _) => True
  | _ => False
  end.

Inductive cut_of {A} (w : world) :
    outcome A * state * list event -> outcome A * state * list event -> Prop :=
| cut_same x : cut_of w x x
| cut_raised i what st st0 r0 p xs ev0 :
    raises w i = Some what ->
    p `prefix_of` ev0 ->
    Forall is_exit xs ->
    cut_of w (Err (Raised i what), st, p ++ xs) (r0, st0, ev0).

Definition sim {A} (w : world) (m m0 : M A) : Prop :=
  forall st, cut_of w (m st) (m0 st).

Section Sim.

Variable w : world.

Lemma sim_refl {A} (m : M A) : sim w m m.
Proof. intros st. constructor. Qed.

Lemma sim_bind {A B} (m m0 : M A) (f f0 : A -> M B) :
  sim w m m0 -> (forall a, sim w (f a) (f0 a)) -> sim w (bind m f) (bind m0 f0).
Proof.
  intros Hm Hf st. unfold bind. specialize (Hm st).
  destruct (m st) as [[r st1] ev1], (m0 st) as [[r0 st0] ev0].
  inversion Hm; subst.
  - destruct r0 as [a|e]; [|constructor].
    specialize (Hf a st0).
    destruct (f a st0) as [[r2 st2] ev2], (f0 a st0) as [[r3 st3] ev3].
    inversion Hf; subst; [constructor|].
    rewrite app_assoc. econstructor; [eassumption| |assumption].
    by apply prefix_app.
  - destruct r0 as [a|e].
    + destruct (f0 a st0) as [[r3 st3] ev3].
      econstructor; [eassumption| |assumption].
      by apply prefix_app_r.
    + by econstructor.
Qed.

Lemma sim_perform (o : op) : sim w (perform w o) (perform (calm w) o).
Proof.
  intros st. unfold perform. simpl.
  destruct (raises w (clock st)) as [what|] eqn:E; [|constructor].
  change [Perform (clock st) o] with ([Perform (clock st) o] ++ []) at 1.
  by econstructor.
Qed.

Lemma sim_iterate (v : value) : sim w (iterate w v) (iterate (calm w) v).
Proof.
  intros st. unfold iterate. pose proof (sim_perform (OIter v) st) as H.
  unfold perform in *. simpl in *.
  destruct (raises w (clock st)) as [what|] eqn:E; [|constructor].
  inversion H; subst. by econstructor.
Qed.

Lemma sim_leave (cm : value) : sim w (leave w cm) (leave (calm w) cm).
Proof. apply sim_bind; [apply sim_perform | intros; apply sim_refl]. Qed.

Lemma sim_finally {A} (m m0 : M A) (cm : value) :
  sim w m m0 -> sim w (finally m (leave w cm)) (finally m0 (leave (calm w) cm)).
Proof.
  intros Hm st. unfold finally. specialize (Hm st).
  destruct (m st) as [[r st1] ev1], (m0 st) as [[r0 st0] ev0].
  inversion Hm; subst.
  - pose proof (sim_leave cm st0) as Hc.
    destruct (leave w cm st0) as [[r2 st2] ev2],
             (leave (calm w) cm st0) as [[r3 st3] ev3].
    inversion Hc; subst.
    + destruct r3; constructor.
    + rewrite app_assoc.
      destruct r3; (econstructor; [eassumption| |assumption]); by apply prefix_app.
  - unfold leave, bind, perform, ret. simpl.
    destruct (raises w (clock st1)) as [what'|] eqn:E; simpl;
      rewrite <- app_assoc;
      (econstructor; [eassumption | by apply prefix_app_r |]);
      (apply Forall_app; split; [assumption|]);
      repeat constructor.
Qed.

Lemma sim_eval_args es :
  Forall (fun e => sim w (eval w e) (eval (calm w) e)) es ->
  sim w (eval_args w es) (eval_args (calm w) es).
Proof.
  induction 1 as [|e es He _ IH]; simpl; [apply sim_refl|].
  apply sim_bind; [exact He|intros v].
  apply sim_bind; [exact IH|intros vs]. apply sim_refl.
Qed.

Lemma sim_eval_kwargs kes :
  Forall (fun ke => sim w (eval w (snd ke)) (eval (calm w) (snd ke))) kes ->
  sim w (eval_kwargs w kes) (eval_kwargs (calm w) kes).
Proof.
  induction 1 as [|[k e] kes He _ IH]; simpl; [apply sim_refl|].
  apply sim_bind; [exact He|intros v].
  apply sim_bind; [exact IH|intros vs]. apply sim_refl.
Qed.

Lemma sim_eval e : sim w (eval w e) (eval (calm w) e).
Proof.
  induction e using expr_induction;
    rewrite ?eval_call, ?eval_list, ?eval_joined; try apply sim_refl.
  - apply sim_bind; [assumption|intros; apply sim_perform].
  - simpl. apply sim_bind; [assumption|intros].
    apply sim_bind; [assumption|intros; apply sim_perform].
  - apply sim_bind; [assumption|intros].
    apply sim_bind; [by apply sim_eval_args|intros].
    apply sim_bind; [by apply sim_eval_kwargs|intros; apply sim_perform].
  - apply sim_bind; [by apply sim_eval_args|intros; apply sim_refl].
  - simpl. apply sim_bind; [assumption|intros].
    apply sim_bind; [assumption|intros; apply sim_perform].
  - simpl. apply sim_bind; [assumption|intros; apply sim_perform].
  - apply sim_bind; [by apply sim_eval_args|intros; apply sim_refl].
Qed.

Lemma sim_import_from m names :
  sim w (import_from w m names) (import_from (calm w) m names).
Proof.
  induction names as [|[n a] names IH]; simpl; [apply sim_refl|].
  apply sim_bind; [apply sim_perform|intros v].
  apply sim_bind; [apply sim_refl|intros _]. exact IH.
Qed.

Lemma sim_exec_block ss :
  Forall (fun s => sim w (exec w s) (exec (calm w) s)) ss ->
  sim w (exec_block w ss) (exec_block (calm w) ss).
Proof.
  induction 1 as [|s ss Hs _ IH]; simpl; [apply sim_refl|].
  apply sim_bind; [exact Hs|intros _; exact IH].
Qed.

Lemma sim_for_loop x body vs :
  sim w (exec_block w body) (exec_block (calm w) body) ->
  sim w (for_loop w x body vs) (for_loop (calm w) x body vs).
Proof.
  intros Hb. induction vs as [|v vs IH]; simpl; [apply sim_refl|].
  apply sim_bind; [apply sim_refl|intros _].
  apply sim_bind; [exact Hb|intros _; exact IH].
Qed.

Lemma sim_exec s : sim w (exec w s) (exec (calm w) s).
Proof.
  induction s using stmt_induction; rewrite ?exec_with, ?exec_for.
  - simpl. apply sim_bind; [apply sim_perform|intros; apply sim_refl].
  - simpl. apply sim_bind; [apply sim_perform|intros; apply sim_import_from].
  - simpl. apply sim_bind; [apply sim_eval|intros; apply sim_refl].
  - simpl. apply sim_bind; [apply sim_eval|intros; apply sim_refl].
  - apply sim_bind; [apply sim_eval|intros vcm].
    apply sim_bind; [apply sim_perform|intros v].
    apply sim_finally.
    apply sim_bind; [apply sim_refl|intros _]. by apply sim_exec_block.
  - apply sim_bind; [apply sim_eval|intros vit].
    apply sim_bind; [apply sim_iterate|intros vs].
    apply sim_for_loop. by apply sim_exec_block.
Qed.

Lemma sim_run_cell c : sim w (run_cell w c) (run_cell (calm w) c).
Proof.
  induction c as [|s c IH]; [apply sim_refl|].
  assert (Hstep : sim w (exec w s ;;; run_cell w c)
                        (exec (calm w) s ;;; run_cell (calm w) c)).
  { apply sim_bind; [apply sim_exec|intros _; exact IH]. }
  destruct s; try exact Hstep.
  destruct c; [|exact Hstep].
  simpl. apply sim_bind; [apply sim_eval|intros v].
  apply sim_bind; [apply sim_perform|intros; apply sim_refl].
Qed.

Lemma sim_run_cells cs : sim w (run_cells w cs) (run_cells (calm w) cs).
Proof.
  induction cs as [|c cs IH]; simpl; [apply sim_refl|].
  apply sim_bind; [apply sim_run_cell|intros _; exact IH].
Qed.

End Sim.

End Cut.

(** ** The run in which nothing raises

    The notebook has two loops, each printing the elements of a list the
    outside hands over.  Between them the run is straight-line code, so a
    calm run is five fixed stretches of events around the two loops. *)

Module Calm.

Import Py Notebook Cut.
Local Open Scope list_scope.
Local Open Scope py_scope.

Lemma bind_ok {A B} (m : M A) (f : A -> M B) st a st1 ev1 r st2 ev2 :
  m st = (Ok a, st1, ev1) -> f a st1 = (r, st2, ev2) ->
  bind m f st = (r, st2, ev1 ++ ev2).
Proof. intros Hm Hf. unfold bind. by rewrite Hm, Hf. Qed.

Lemma run_cells_app w a b st :
  run_cells w (a ++ b) st = (run_cells w a ;;; run_cells w b) st.
Proof.
  revert st. induction a as [|c a IH]; intros st; simpl.
  - unfold bind, ret. by destruct (run_cells w b st) as [[r st'] ev].
  - unfold bind.
    destruct (run_cell w c st) as [[[[]|e] st1] ev1]; [|done].
    rewrite IH. unfold bind.
    destruct (run_cells w a st1) as [[[[]|e] st2] ev2]; [|done].
    destruct (run_cells w b st2) as [[r st3] ev3]. by rewrite app_assoc.
Qed.

(** *** A loop that prints each element *)

Definition print_stmt (x : string) : stmt := SExpr (call "print" [EName x] []).

Fixpoint loop_events (x : string) (k : nat) (vs : list value) : list event :=
  match vs with
  | [] => []
  | v :: vs' =>
      Bind x v :: Perform k (OCall (VBuiltin "print") [v] []) :: loop_events x (S k) vs'
  end.

(** The binding the loop variable is left with. *)
Definition bound (x : string) (ov : option value) (g : gmap string value) :
    gmap string value :=
  match ov with
  | Some v => <[x := v]> g
  | None => g
  end.

Lemma bound_insert x v ov (g : gmap string value) :
  bound x ov (<[x := v]> g) = bound x (Some (default v ov)) g.
Proof. destruct ov; simpl; [apply insert_insert_eq|done]. Qed.

Lemma print_loop w x vs (g : gmap string value) k :
  x <> "print" -> g !! "print" = None ->
  for_loop (calm w) x [print_stmt x] vs (State g k) =
  (Ok tt, State (bound x (last vs) g) (length vs + k), loop_events x k vs).
Proof.
  intros Hx. revert g k. induction vs as [|v vs IH]; intros g k Hg; [done|].
  assert (Hg' : <[x := v]> g !! "print" = None) by by rewrite lookup_insert_ne.
  specialize (IH (<[x := v]> g) (S k) Hg').
  cbn [for_loop]. cbn [for_loop] in IH.
  erewrite bind_ok; [|reflexivity|].
  2:{ erewrite bind_ok; [|..|exact IH].
      2:{ unfold exec_block, print_stmt, call. cbn [exec eval].
          unfold bind, lookup_name, ret, perform. cbn [globals clock calm raises].
          rewrite Hg'. cbn. rewrite lookup_insert_eq. cbn. reflexivity. }
      reflexivity. }
  cbn [app loop_events length]. rewrite Nat.add_succ_r.
  f_equal. f_equal. f_equal.
  destruct vs as [|v' vs]; [done|].
  change (last (v :: v' :: vs)) with (last (v' :: vs)).
  destruct (last (v' :: vs)) eqn:E; simpl; [apply insert_insert_eq|].
  by apply last_None in E.
Qed.

(** *** The stretches between the loops *)

Definition quiet : world := World (fun _ => None) (fun _ => 0).

Definition cells_A : list cell :=
  [ cell_00; cell_01; cell_02; cell_03; cell_04; cell_05; cell_06; cell_07;
    cell_08; cell_09; cell_10; cell_11; cell_12; cell_13; cell_14; cell_15;
    cell_16; cell_17; cell_18 ].
Definition cells_B : list cell := [ cell_20; cell_21 ].
Definition cells_C : list cell := [ cell_23; cell_24; cell_25; cell_26 ].

Definition gates_header : stmt :=
  SExpr (call "print" [EStr "The native gates for the";
                       EAttr (EName "aspen_m1") "name";
                       EStr "device are:"] []).
Definition gates_list : expr :=
  EAttr (EAttr (EAttr (EName "aspen_m1") "properties") "paradigm") "nativeGateSet".
Definition result_types_list : expr :=
  EAttr sv1_openqasm_action "supportedResultTypes".

Lemma cell_19_shape :
  cell_19 = [gates_header; SFor "gate" gates_list [print_stmt "gate"]].
Proof. reflexivity. Qed.

Lemma cell_22_shape :
  cell_22 = [SFor "iter" result_types_list [print_stmt "iter"]].
Proof. reflexivity. Qed.

Lemma cells_split :
  cells = cells_A ++ cell_19 :: cells_B ++ cell_22 :: cells_C.
Proof. reflexivity. Qed.

Definition stretch_A (w : world) : M value :=
  run_cells w cells_A ;;; exec w gates_header ;;; eval w gates_list.
Definition stretch_B (w : world) : M value :=
  run_cells w cells_B ;;; eval w result_types_list.
Definition stretch_C (w : world) : M unit :=
  run_cells w cells_C.

Definition value_of (r : outcome value) : value :=
  match r with
  | Ok v => v
  | Err _ => VBool false
  end.

Definition vA : value := value_of (stretch_A quiet init).1.1.
Definition gA : gmap string value := globals (stretch_A quiet init).1.2.
Definition kA : nat := clock (stretch_A quiet init).1.2.
Definition evA : list event := (stretch_A quiet init).2.

Definition vB (n : nat) : value := value_of (stretch_B quiet (State gA n)).1.1.
Definition gB (n : nat) : gmap string value :=
  globals (stretch_B quiet (State gA n)).1.2.
Definition kB (n : nat) : nat := clock (stretch_B quiet (State gA n)).1.2.
Definition evB (n : nat) : list event := (stretch_B quiet (State gA n)).2.

Definition gC (m n : nat) : gmap string value :=
  globals (stretch_C quiet (State (gB m) n)).1.2.
Definition kC (m n : nat) : nat := clock (stretch_C quiet (State (gB m) n)).1.2.
Definition evC (m n : nat) : list event := (stretch_C quiet (State (gB m) n)).2.

Lemma stretch_A_calm w :
  stretch_A (calm w) init = (Ok vA, State gA kA, evA).
Proof. vm_compute. reflexivity. Qed.

Lemma stretch_B_calm w ov n :
  stretch_B (calm w) (State (bound "gate" ov gA) n) =
  (Ok (vB n), State (bound "gate" ov (gB n)) (kB n), evB n).
Proof. destruct ov; vm_compute; reflexivity. Qed.

Lemma stretch_C_calm w ov1 ov2 m n :
  stretch_C (calm w) (State (bound "iter" ov2 (bound "gate" ov1 (gB m))) n) =
  (Ok tt, State (bound "iter" ov2 (bound "gate" ov1 (gC m n))) (kC m n), evC m n).
Proof. destruct ov1, ov2; vm_compute; reflexivity. Qed.

(** The notebook, regrouped around its two loops. *)
Lemma run_split w st :
  run_cells w cells st =
  (vit1 <- stretch_A w ;; vs1 <- iterate w vit1 ;;
   for_loop w "gate" [print_stmt "gate"] vs1 ;;;
   vit2 <- stretch_B w ;; vs2 <- iterate w vit2 ;;
   for_loop w "iter" [print_stmt "iter"] vs2 ;;;
   stretch_C w) st.
Proof.
  rewrite cells_split, run_cells_app.
  unfold stretch_A, stretch_B, stretch_C.
  change (run_cells w (cell_19 :: cells_B ++ cell_22 :: cells_C))
    with (run_cell w cell_19 ;;; run_cells w (cells_B ++ cell_22 :: cells_C)).
  rewrite cell_19_shape.
  change (run_cell w [gates_header; SFor "gate" gates_list [print_stmt "gate"]])
    with (exec w gates_header ;;;
          exec w (SFor "gate" gates_list [print_stmt "gate"]) ;;; ret tt).
  rewrite exec_for.
  unfold bind.
  destruct (run_cells w cells_A st) as [[[[]|e] st1] ev1]; [|done].
  destruct (exec w gates_header st1) as [[[[]|e] st2] ev2]; [|done].
  destruct (eval w gates_list st2) as [[[vit1|e] st3] ev3];
    [|by rewrite !app_assoc].
  destruct (iterate w vit1 st3) as [[[vs1|e] st4] ev4];
    [|by rewrite !app_assoc].
  destruct (for_loop w "gate" [print_stmt "gate"] vs1 st4) as [[[[]|e] st5] ev5];
    [|by rewrite !app_assoc].
  unfold ret at 1. rewrite run_cells_app.
  change (run_cells w (cell_22 :: cells_C))
    with (run_cell w cell_22 ;;; run_cells w cells_C).
  rewrite cell_22_shape.
  change (run_cell w [SFor "iter" result_types_list [print_stmt "iter"]])
    with (exec w (SFor "iter" result_types_list [print_stmt "iter"]) ;;; ret tt).
  rewrite exec_for.
  unfold bind, ret.
  destruct (run_cells w cells_B st5) as [[[[]|e] st6] ev6];
    [|by rewrite ?app_nil_r, !app_assoc].
  destruct (eval w result_types_list st6) as [[[vit2|e] st7] ev7];
    [|by rewrite ?app_nil_r, !app_assoc].
  destruct (iterate w vit2 st7) as [[[vs2|e] st8] ev8];
    [|by rewrite ?app_nil_r, !app_assoc].
  destruct (for_loop w "iter" [print_stmt "iter"] vs2 st8) as [[[[]|e] st9] ev9];
    [|by rewrite ?app_nil_r, !app_assoc].
  destruct (run_cells w cells_C st9) as [[r st10] ev10].
  by rewrite ?app_nil_r, !app_assoc.
Qed.


(** The elements an iteration yields. *)
Definition items_of (i : nat) (v : value) (n : nat) : list value :=
  map (VItem i (OIter v)) (seq 0 n).

Lemma iterate_calm w v g k :
  iterate (calm w) v (State g k) =
  (Ok (items_of k v (items w k)), State g (S k), [Perform k (OIter v)]).
Proof. reflexivity. Qed.

Lemma print_items w x i v n (g : gmap string value) k :
  x <> "print" -> g !! "print" = None ->
  for_loop (calm w) x [print_stmt x] (items_of i v n) (State g k) =
  (Ok tt, State (bound x (last (items_of i v n)) g) (n + k),
   loop_events x k (items_of i v n)).
Proof.
  intros Hx Hg. rewrite print_loop by done.
  unfold items_of at 2. by rewrite length_map, length_seq.
Qed.

(** The events of a calm run in which the first loop prints [n1] lines and
    the second [n2]. *)
Definition calm_events (n1 n2 : nat) : list event :=
  let m := n1 + S kA in
  let n := n2 + S (kB m) in
  evA ++
  Perform kA (OIter vA) :: loop_events "gate" (S kA) (items_of kA vA n1) ++
  evB m ++
  Perform (kB m) (OIter (vB m)) ::
    loop_events "iter" (S (kB m)) (items_of (kB m) (vB m) n2) ++
  evC m n.

Definition first_count (w : world) : nat := items w kA.
Definition second_count (w : world) : nat := items w (kB (first_count w + S kA)).

Lemma gA_print : gA !! "print" = None.
Proof. vm_compute. reflexivity. Qed.

Lemma gB_print ov n : bound "gate" ov (gB n) !! "print" = None.
Proof. destruct ov; vm_compute; reflexivity. Qed.

Theorem calm_run w :
  result (calm w) = Ok tt /\
  trace (calm w) = calm_events (first_count w) (second_count w).
Proof.
  unfold result, trace, run. rewrite run_split.
  erewrite bind_ok; [|apply stretch_A_calm|].
  2:{ erewrite bind_ok; [|apply iterate_calm|].
      2:{ erewrite bind_ok; [|apply print_items; [done|apply gA_print]|].
          2:{ erewrite bind_ok; [|apply stretch_B_calm|].
              2:{ erewrite bind_ok; [|apply iterate_calm|].
                  2:{ erewrite bind_ok;
                        [|apply print_items; [done|apply gB_print]|].
                      2:{ apply stretch_C_calm. }
                      reflexivity. }
                  reflexivity. }
              reflexivity. }
          reflexivity. }
      reflexivity. }
  split; reflexivity.
Qed.

End Calm.

(** ** Every run of the notebook *)

Module Runs.

Import Py Notebook Cut Calm.
Local Open Scope list_scope.
Local Open Scope py_scope.

Lemma cut_cases {A} w (x x0 : outcome A * state * list event) :
  cut_of w x x0 ->
  x = x0 \/
  exists i what p xs,
    x.1.1 = Err (Raised i what) /\ raises w i = Some what /\
    x.2 = p ++ xs /\ p `prefix_of` x0.2 /\ Forall is_exit xs.
Proof.
  intros H. destruct H as [x|i what st st0 r0 p xs ev0 Hi Hp Hxs].
  - by left.
  - right. exists i, what, p, xs. repeat split; assumption.
Qed.

(** A run either completes with the events of the calm run, or stops at an
    error the outside raised, having produced a prefix of them and then
    left its [with] blocks. *)
Theorem runs w :
  (result w = Ok tt /\
   trace w = calm_events (first_count w) (second_count w)) \/
  (exists i what p xs,
     result w = Err (Raised i what) /\ raises w i = Some what /\
     trace w = p ++ xs /\
     p `prefix_of` calm_events (first_count w) (second_count w) /\
     Forall is_exit xs).
Proof.
  destruct (calm_run w) as [Hr Ht].
  destruct (cut_cases w _ _ (sim_run_cells w cells init))
    as [H|(i & what & p & xs & H1 & H2 & H3 & H4 & H5)].
  - left. unfold result, trace, run in *. rewrite H. by split.
  - right. exists i, what, p, xs. unfold trace, run in Ht.
    rewrite Ht in H4. repeat split; assumption.
Qed.

(** *** Monitors

    A monitor reads the events of a run one by one and either moves to a
    next state or rejects. *)

Section Monitor.

Context {St : Type}.
Variable step : St -> event -> option St.

Fixpoint run_mon (s : St) (t : list event) : option St :=
  match t with
  | [] => Some s
  | e :: t' =>
      match step s e with
      | Some s' => run_mon s' t'
      | None => None
      end
  end.

Lemma run_mon_app s a b s' :
  run_mon s a = Some s' -> run_mon s (a ++ b) = run_mon s' b.
Proof.
  revert s. induction a as [|e a IH]; intros s H; cbn [run_mon app] in *.
  - by injection H as ->.
  - destruct (step s e); [by apply IH|discriminate].
Qed.

Lemma run_mon_app_inv s a b s'' :
  run_mon s (a ++ b) = Some s'' -> exists s', run_mon s a = Some s' /\ run_mon s' b = Some s''.
Proof.
  revert s. induction a as [|e a IH]; intros s H; cbn [run_mon app] in *.
  - by exists s.
  - destruct (step s e); [by apply IH|discriminate].
Qed.

Lemma run_mon_prefix s p t :
  p `prefix_of` t -> is_Some (run_mon s t) -> is_Some (run_mon s p).
Proof.
  intros [k ->] [s'' H]. apply run_mon_app_inv in H as (s' & H & _). by exists s'.
Qed.

(** Events the monitor does not react to. *)
Definition ignores (s : St) (e : event) : Prop := step s e = Some s.

Lemma run_mon_ignored s t : Forall (ignores s) t -> run_mon s t = Some s.
Proof.
  induction 1 as [|e t He _ IH]; cbn [run_mon]; [done|].
  unfold ignores in He. by rewrite He.
Qed.

Lemma loop_events_ignored s x k vs :
  (forall v k', v ∈ vs ->
     ignores s (Bind x v) /\
     ignores s (Perform k' (OCall (VBuiltin "print") [v] []))) ->
  Forall (ignores s) (loop_events x k vs).
Proof.
  revert k. induction vs as [|v vs IH]; intros k H; cbn [loop_events];
    [constructor|].
  destruct (H v k) as [H1 H2]; [by left|].
  constructor; [exact H1|]. constructor; [exact H2|].
  apply IH. intros v' k' Hv'. apply H. by right.
Qed.

Variables s0 sA sB sC : St.
Hypothesis on_exit : forall s i cm, ignores s (Perform i (OExit cm)).
Hypothesis on_A : run_mon s0 (evA ++ [Perform kA (OIter vA)]) = Some sA.
Hypothesis on_gates : forall j k,
  ignores sA (Bind "gate" (VItem kA (OIter vA) j)) /\
  ignores sA (Perform k (OCall (VBuiltin "print") [VItem kA (OIter vA) j] [])).
Hypothesis on_B : forall m,
  run_mon sA (evB m ++ [Perform (kB m) (OIter (vB m))]) = Some sB.
Hypothesis on_result_types : forall m j k,
  ignores sB (Bind "iter" (VItem (kB m) (OIter (vB m)) j)) /\
  ignores sB (Perform k (OCall (VBuiltin "print") [VItem (kB m) (OIter (vB m)) j] [])).
Hypothesis on_C : forall m n, run_mon sB (evC m n) = Some sC.

Lemma calm_events_split n1 n2 :
  calm_events n1 n2 =
  (evA ++ [Perform kA (OIter vA)]) ++
  loop_events "gate" (S kA) (items_of kA vA n1) ++
  (evB (n1 + S kA) ++ [Perform (kB (n1 + S kA)) (OIter (vB (n1 + S kA)))]) ++
  loop_events "iter" (S (kB (n1 + S kA)))
    (items_of (kB (n1 + S kA)) (vB (n1 + S kA)) n2) ++
  evC (n1 + S kA) (n2 + S (kB (n1 + S kA))).
Proof. unfold calm_events. by rewrite <- !app_assoc. Qed.

Lemma items_of_elem v i o n : v ∈ items_of i o n -> exists j, v = VItem i (OIter o) j.
Proof.
  unfold items_of. intros H. apply list_elem_of_fmap in H as (j & -> & _).
  by exists j.
Qed.

Lemma calm_events_accepted n1 n2 : run_mon s0 (calm_events n1 n2) = Some sC.
Proof.
  rewrite calm_events_split.
  rewrite (run_mon_app _ _ _ _ on_A).
  erewrite run_mon_app.
  2:{ apply run_mon_ignored, loop_events_ignored. intros v k' Hv.
      apply items_of_elem in Hv as [j ->]. apply on_gates. }
  rewrite (run_mon_app _ _ _ _ (on_B _)).
  erewrite run_mon_app.
  2:{ apply run_mon_ignored, loop_events_ignored. intros v k' Hv.
      apply items_of_elem in Hv as [j ->]. apply on_result_types. }
  apply on_C.
Qed.

Theorem monitored w :
  is_Some (run_mon s0 (trace w)) /\
  (result w = Ok tt -> run_mon s0 (trace w) = Some sC).
Proof.
  destruct (runs w) as [[Hr Ht]|(i & what & p & xs & Hr & _ & Ht & Hp & Hxs)].
  - rewrite Ht, calm_events_accepted. split; [by eexists|done].
  - split; [|intros H; rewrite Hr in H; discriminate].
    rewrite Ht.
    destruct (run_mon_prefix s0 p _ Hp) as [s Hs].
    { rewrite calm_events_accepted. by eexists. }
    rewrite (run_mon_app _ _ _ _ Hs), run_mon_ignored; [by eexists|].
    eapply Forall_impl; [exact Hxs|]. intros [j [] | ] He; try destruct He.
    apply on_exit.
Qed.

End Monitor.

End Runs.

Module Causal.

Import Py Notebook.
Local Open Scope list_scope.
Local Open Scope py_scope.

(** ** Results come from operations performed earlier

    A value names the operation that returned it.  In every run, of any
    list of cells in any world, an event mentions only operations that
    were performed before it, under the number they were performed with. *)

Fixpoint ops_in (v : value) : list (nat * op) :=
  match v with
  | VList vs | VJoined vs => flat_map ops_in vs
  | VRet i o => (i, o) :: ops_in_op o
  | VItem i o _ => (i, o) :: ops_in_op o
  | _ => []
  end
with ops_in_op (o : op) : list (nat * op) :=
  match o with
  | OImport _ => []
  | OImportFrom m _ => ops_in m
  | OCall f args kwargs =>
      ops_in f ++ flat_map ops_in args ++ flat_map (fun kv => ops_in (snd kv)) kwargs
  | OGetAttr v _ | OFormat v _ | OIter v | OEnter v | OExit v | ODisplay v => ops_in v
  | OGetItem v k => ops_in v ++ ops_in k
  | OAdd a b => ops_in a ++ ops_in b
  end.

Definition ops_in_event (e : event) : list (nat * op) :=
  match e with
  | Perform _ o => ops_in_op o
  | Bind _ v => ops_in v
  end.

Definition performed (past : list event) (io : nat * op) : Prop :=
  In (Perform (fst io) (snd io)) past.

Definition grounded (past : list event) (v : value) : Prop :=
  Forall (performed past) (ops_in v).

Definition causal (past ev : list event) : Prop :=
  forall a e b, ev = a ++ e :: b -> Forall (performed (past ++ a)) (ops_in_event e).

Definition store_ok (past : list event) (g : gmap string value) : Prop :=
  forall x v, g !! x = Some v -> grounded past v.

Definition stable (P : list event -> Prop) : Prop :=
  forall p q, P p -> P (p ++ q).

Lemma performed_mono p q io : performed p io -> performed (p ++ q) io.
Proof. unfold performed. intros H. apply in_or_app. by left. Qed.

Lemma Forall_performed_mono p q l :
  Forall (performed p) l -> Forall (performed (p ++ q)) l.
Proof.
  intros H. eapply Forall_impl; [exact H|]. intros io. apply performed_mono.
Qed.

Lemma grounded_stable v : stable (fun p => grounded p v).
Proof. intros p q. apply Forall_performed_mono. Qed.

Lemma store_ok_mono p q g : store_ok p g -> store_ok (p ++ q) g.
Proof. intros H x v Hx. by apply grounded_stable, (H x). Qed.

Lemma causal_nil past : causal past [].
Proof. intros [|] ? ? H; discriminate H. Qed.

Lemma causal_one past e :
  Forall (performed past) (ops_in_event e) -> causal past [e].
Proof.
  intros H [|e' a] e0 b Heq; simplify_eq/=.
  - by rewrite app_nil_r.
  - by destruct a.
Qed.

Lemma causal_app past a b :
  causal past a -> causal (past ++ a) b -> causal past (a ++ b).
Proof.
  intros Ha Hb l e r Heq.
  apply app_eq_inv in Heq as [(k & Hl & Hk)|(k & Hl & Hk)].
  - destruct k as [|e' k]; cbn [app] in Hk.
    + rewrite app_nil_r in Hl. subst a b.
      rewrite <- (app_nil_r (past ++ l)). by apply (Hb [] e r).
    + injection Hk as -> ->. by apply (Ha l e' k).
  - subst l. rewrite app_assoc. by apply (Hb k e r).
Qed.

(** [triple P m Q]: started after a past satisfying [P], with a namespace
    holding only results of the past, [m] produces events that mention only
    what came before them, and returns a value satisfying [Q]. *)
Definition triple {A} (P : list event -> Prop) (m : M A)
    (Q : list event -> A -> Prop) : Prop :=
  forall past st, P past -> store_ok past (globals st) ->
    match m st with
    | (r, st', ev) =>
        causal past ev /\ store_ok (past ++ ev) (globals st') /\
        match r with
        | Ok a => Q (past ++ ev) a
        | Err _ => True
        end
    end.

Lemma triple_ret {A} (P : list event -> Prop) (a : A) (Q : list event -> A -> Prop) :
  (forall p, P p -> Q p a) -> triple P (ret a) Q.
Proof.
  intros H past st HP Hst. cbn. rewrite app_nil_r.
  split; [apply causal_nil|]. split; [done|by apply H].
Qed.

Lemma triple_bind {A B} P (m : M A) (f : A -> M B) Q R :
  stable P ->
  triple P m Q ->
  (forall a, triple (fun p => P p /\ Q p a) (f a) R) ->
  triple P (bind m f) R.
Proof.
  intros HP Hm Hf past st Hpast Hst. unfold bind.
  specialize (Hm past st Hpast Hst).
  destruct (m st) as [[[a|e] st1] ev1]; [|done].
  destruct Hm as (Hc1 & Hs1 & HQ).
  specialize (Hf a (past ++ ev1) st1 (conj (HP _ _ Hpast) HQ) Hs1).
  destruct (f a st1) as [[r st2] ev2].
  destruct Hf as (Hc2 & Hs2 & HR). rewrite app_assoc.
  split; [by apply causal_app|done].
Qed.

Lemma triple_weaken {A} (P P' : list event -> Prop) (m : M A) (Q Q' : list event -> A -> Prop) :
  (forall p, P' p -> P p) -> (forall p a, Q p a -> Q' p a) ->
  triple P m Q -> triple P' m Q'.
Proof.
  intros HP HQ H past st Hpast Hst. specialize (H past st (HP _ Hpast) Hst).
  destruct (m st) as [[[a|e] st'] ev]; [|done].
  destruct H as (? & ? & ?). repeat split; [done..|by apply HQ].
Qed.

Section Triples.

Variable w : world.

Lemma triple_perform P o :
  (forall p, P p -> Forall (performed p) (ops_in_op o)) ->
  triple P (perform w o) (fun p v => grounded p v).
Proof.
  intros H past st HP Hst. unfold perform.
  assert (Hc : causal past [Perform (clock st) o]) by by apply causal_one, H.
  destruct (raises w (clock st)); cbn [globals].
  - split; [done|]. split; [by apply store_ok_mono|done].
  - split; [done|]. split; [by apply store_ok_mono|].
    unfold grounded. cbn [ops_in]. constructor.
    + unfold performed. apply in_or_app. right. by left.
    + by apply Forall_performed_mono, H.
Qed.

Lemma triple_lookup P x : triple P (lookup_name x) (fun p v => grounded p v).
Proof.
  intros past st HP Hst. unfold lookup_name.
  destruct (globals st !! x) as [v|] eqn:E.
  - rewrite app_nil_r. split; [apply causal_nil|]. split; [done|by apply (Hst x)].
  - destruct (is_builtin x); rewrite app_nil_r;
      (split; [apply causal_nil|]); (split; [done|]); [constructor|done].
Qed.

Lemma triple_bind_name P x v :
  (forall p, P p -> grounded p v) ->
  triple P (bind_name x v) (fun _ _ => True).
Proof.
  intros H past st HP Hst. unfold bind_name. cbn [globals].
  split; [by apply causal_one, H|]. split; [|done].
  intros y u Hy. destruct (decide (x = y)) as [->|Hne].
  - rewrite lookup_insert_eq in Hy. simplify_eq. by apply grounded_stable, H.
  - rewrite lookup_insert_ne in Hy by done. by apply grounded_stable, (Hst y).
Qed.

Lemma stable_and (P : list event -> Prop) (Q : list event -> Prop) :
  stable P -> stable Q -> stable (fun p => P p /\ Q p).
Proof. intros HP HQ p q [? ?]. split; [by apply HP|by apply HQ]. Qed.

Lemma stable_all {A} (R : list event -> A -> Prop) (l : list A) :
  (forall a, stable (fun p => R p a)) -> stable (fun p => Forall (R p) l).
Proof.
  intros H p q Hl. eapply Forall_impl; [exact Hl|]. intros a. apply (H a).
Qed.

Lemma grounded_all p vs :
  Forall (grounded p) vs -> Forall (performed p) (flat_map ops_in vs).
Proof.
  induction 1 as [|v vs Hv _ IH]; cbn [flat_map]; [constructor|].
  apply Forall_app. by split.
Qed.

Lemma grounded_all_kw p (kvs : list (string * value)) :
  Forall (fun kv => grounded p (snd kv)) kvs ->
  Forall (performed p) (flat_map (fun kv => ops_in (snd kv)) kvs).
Proof.
  induction 1 as [|v vs Hv _ IH]; cbn [flat_map]; [constructor|].
  apply Forall_app. by split.
Qed.

Lemma triple_iterate P v :
  (forall p, P p -> grounded p v) ->
  triple P (iterate w v) (fun p vs => Forall (grounded p) vs).
Proof.
  intros H past st HP Hst. unfold iterate.
  pose proof (triple_perform P (OIter v) H past st HP Hst) as Hp.
  unfold perform in *. destruct (raises w (clock st)); [done|].
  destruct Hp as (Hc & Hs & Hg). split; [done|]. split; [done|].
  apply Forall_forall. intros u Hu. apply list_elem_of_fmap in Hu as (j & -> & _).
  exact Hg.
Qed.

Lemma triple_leave P cm :
  stable P ->
  (forall p, P p -> grounded p cm) ->
  triple P (leave w cm) (fun _ _ => True).
Proof.
  intros HP H. unfold leave.
  eapply triple_bind; [done|by apply triple_perform|].
  intros v. by apply triple_ret.
Qed.

Lemma triple_finally {A} P (m : M A) cm :
  stable P ->
  (forall p, P p -> grounded p cm) ->
  triple P m (fun _ _ => True) ->
  triple P (finally m (leave w cm)) (fun _ _ => True).
Proof.
  intros HP Hcm Hm past st Hpast Hst. unfold finally.
  specialize (Hm past st Hpast Hst).
  destruct (m st) as [[r st1] ev1].
  assert (Hc1 : causal past ev1 /\ store_ok (past ++ ev1) (globals st1)).
  { destruct r; destruct Hm as (? & ? & ?); done. }
  destruct Hc1 as [Hc1 Hs1].
  pose proof (triple_leave P cm HP Hcm (past ++ ev1) st1 (HP _ _ Hpast) Hs1) as Hl.
  destruct (leave w cm st1) as [[[[]|e] st2] ev2];
    destruct Hl as (Hc2 & Hs2 & _); rewrite app_assoc;
    (split; [by apply causal_app|]); (split; [done|]); by destruct r.
Qed.

Lemma triple_eval_args P es :
  stable P ->
  Forall (fun e => forall P, stable P -> triple P (eval w e) (fun p v => grounded p v)) es ->
  triple P (eval_args w es) (fun p vs => Forall (grounded p) vs).
Proof.
  intros HP H. revert P HP. induction H as [|e es He _ IH]; intros P HP; cbn [eval_args].
  - apply triple_ret. constructor.
  - eapply triple_bind; [done|by apply He|]. intros v.
    eapply triple_bind; [apply stable_and; [done|apply grounded_stable]| |].
    + apply IH. apply stable_and; [done|apply grounded_stable].
    + intros vs. apply triple_ret. intros p [[_ Hv] Hvs]. by constructor.
Qed.

Lemma triple_eval_kwargs P kes :
  stable P ->
  Forall (fun ke => forall P, stable P ->
            triple P (eval w (snd ke)) (fun p v => grounded p v)) kes ->
  triple P (eval_kwargs w kes) (fun p kvs => Forall (fun kv => grounded p (snd kv)) kvs).
Proof.
  intros HP H. revert P HP.
  induction H as [|[k e] kes He _ IH]; intros P HP; cbn [eval_kwargs].
  - apply triple_ret. constructor.
  - eapply triple_bind; [done|by apply He|]. intros v.
    eapply triple_bind; [apply stable_and; [done|apply grounded_stable]| |].
    + apply IH. apply stable_and; [done|apply grounded_stable].
    + intros vs. apply triple_ret. intros p [[_ Hv] Hvs]. by constructor.
Qed.

Lemma grounded_collection p vs :
  Forall (grounded p) vs -> grounded p (VList vs) /\ grounded p (VJoined vs).
Proof. intros H. split; apply grounded_all, H. Qed.

Lemma triple_eval e P :
  stable P -> triple P (eval w e) (fun p v => grounded p v).
Proof.
  revert P. induction e using expr_induction; intros P HP;
    rewrite ?eval_call, ?eval_list, ?eval_joined; cbn [eval];
    try (apply triple_ret; intros; constructor).
  - apply triple_lookup.
  - eapply triple_bind; [done|by apply IHe|]. intros v.
    apply triple_perform. by intros p [_ Hv].
  - eapply triple_bind; [done|by apply IHe1|]. intros v.
    eapply triple_bind; [apply stable_and; [done|apply grounded_stable]| |].
    + apply IHe2. apply stable_and; [done|apply grounded_stable].
    + intros vk. apply triple_perform. intros p [[_ Hv] Hk]. cbn [ops_in_op].
      apply Forall_app. by split.
  - eapply triple_bind; [done|by apply IHe|]. intros vf.
    pose proof (stable_and _ _ HP (grounded_stable vf)) as HP1.
    eapply triple_bind; [done|by apply triple_eval_args|]. intros vargs.
    pose proof (stable_and _ _ HP1
                  (stable_all (fun p v => grounded p v) vargs grounded_stable)) as HP2.
    eapply triple_bind; [done|by apply triple_eval_kwargs|]. intros vkw.
    apply triple_perform. intros p [[[_ Hf] Ha] Hk]. cbn [ops_in_op].
    apply Forall_app. split; [done|]. apply Forall_app.
    split; [by apply grounded_all|by apply grounded_all_kw].
  - eapply triple_bind; [done|by apply triple_eval_args|]. intros vs.
    apply triple_ret. intros p [_ Hvs]. by apply grounded_collection.
  - eapply triple_bind; [done|by apply IHe1|]. intros v.
    eapply triple_bind; [apply stable_and; [done|apply grounded_stable]| |].
    + apply IHe2. apply stable_and; [done|apply grounded_stable].
    + intros vk. apply triple_perform. intros p [[_ Hv] Hk]. cbn [ops_in_op].
      apply Forall_app. by split.
  - eapply triple_bind; [done|by apply IHe|]. intros v.
    apply triple_perform. by intros p [_ Hv].
  - eapply triple_bind; [done|by apply triple_eval_args|]. intros vs.
    apply triple_ret. intros p [_ Hvs]. by apply grounded_collection.
Qed.

Lemma triple_import_from P m names :
  stable P -> (forall p, P p -> grounded p m) ->
  triple P (import_from w m names) (fun _ _ => True).
Proof.
  intros HP Hm. revert P HP Hm.
  induction names as [|[n a] names IH]; intros P HP Hm; cbn [import_from].
  - by apply triple_ret.
  - eapply triple_bind; [done|by apply triple_perform|]. intros v.
    pose proof (stable_and _ _ HP (grounded_stable v)) as HP1.
    eapply triple_bind; [done|apply triple_bind_name; by intros p [_ ?]|].
    intros ?. apply IH.
    + apply stable_and; [done|]. by intros ? ?.
    + intros p [[HPp _] _]. by apply Hm.
Qed.

Lemma triple_exec_block P ss :
  stable P ->
  Forall (fun s => forall P, stable P -> triple P (exec w s) (fun _ _ => True)) ss ->
  triple P (exec_block w ss) (fun _ _ => True).
Proof.
  intros HP H. revert P HP. induction H as [|s ss Hs _ IH]; intros P HP;
    cbn [exec_block].
  - by apply triple_ret.
  - eapply triple_bind; [done|by apply Hs|]. intros ?.
    apply IH. apply stable_and; [done|]. by intros ? ?.
Qed.

Lemma triple_for_loop P x body vs :
  stable P ->
  (forall P, stable P -> triple P (exec_block w body) (fun _ _ => True)) ->
  (forall p, P p -> Forall (grounded p) vs) ->
  triple P (for_loop w x body vs) (fun _ _ => True).
Proof.
  intros HP Hb. revert P HP. induction vs as [|v vs IH]; intros P HP Hvs;
    cbn [for_loop].
  - by apply triple_ret.
  - eapply triple_bind; [done| |].
    { apply triple_bind_name. intros p Hp.
      by apply (Forall_inv (Hvs p Hp)). }
    intros ?. pose proof (stable_and _ _ HP (fun p q (H : True) => H)) as HP1.
    eapply triple_bind; [done|by apply Hb|]. intros ?.
    apply IH; [apply stable_and; [done|]; by intros ? ?|].
    intros p [[Hp _] _]. by apply (Forall_inv_tail (Hvs p Hp)).
Qed.

Lemma triple_exec s P :
  stable P -> triple P (exec w s) (fun _ _ => True).
Proof.
  revert P. induction s using stmt_induction; intros P HP;
    rewrite ?exec_with, ?exec_for; cbn [exec].
  - eapply triple_bind; [done|apply triple_perform; by constructor|].
    intros v. apply triple_bind_name. by intros p [_ ?].
  - eapply triple_bind; [done|apply triple_perform; by constructor|].
    intros v. apply triple_import_from.
    + apply stable_and; [done|apply grounded_stable].
    + by intros p [_ ?].
  - eapply triple_bind; [done|by apply triple_eval|].
    intros v. apply triple_bind_name. by intros p [_ ?].
  - eapply triple_bind; [done|by apply triple_eval|].
    intros v. by apply triple_ret.
  - eapply triple_bind; [done|by apply triple_eval|]. intros vcm.
    pose proof (stable_and _ _ HP (grounded_stable vcm)) as HP1.
    eapply triple_bind; [done|apply triple_perform; by intros p [_ ?]|].
    intros v.
    pose proof (stable_and _ _ HP1 (grounded_stable v)) as HP2.
    apply triple_finally; [done|by intros p [[_ ?] _]|].
    eapply triple_bind; [done|apply triple_bind_name; by intros p [_ ?]|].
    intros ?. apply triple_exec_block; [|done].
    apply stable_and; [done|]. by intros ? ?.
  - eapply triple_bind; [done|by apply triple_eval|]. intros vit.
    pose proof (stable_and _ _ HP (grounded_stable vit)) as HP1.
    eapply triple_bind; [done|apply triple_iterate; by intros p [_ ?]|].
    intros vs. apply triple_for_loop.
    + apply stable_and; [done|]. apply stable_all, grounded_stable.
    + intros P' HP'. by apply triple_exec_block.
    + by intros p [_ ?].
Qed.

Lemma triple_run_cell c P :
  stable P -> triple P (run_cell w c) (fun _ _ => True).
Proof.
  revert P. induction c as [|s c IH]; intros P HP; [by apply triple_ret|].
  assert (Hstep : triple P (exec w s ;;; run_cell w c) (fun _ _ => True)).
  { eapply triple_bind; [done|by apply triple_exec|]. intros ?.
    apply IH. apply stable_and; [done|]. by intros ? ?. }
  destruct s; try exact Hstep.
  destruct c; [|exact Hstep]. cbn [run_cell].
  eapply triple_bind; [done|by apply triple_eval|]. intros v.
  eapply triple_bind; [apply stable_and; [done|apply grounded_stable]| |].
  - apply triple_perform. by intros p [_ ?].
  - intros ?. by apply triple_ret.
Qed.

Lemma triple_run_cells cs P :
  stable P -> triple P (run_cells w cs) (fun _ _ => True).
Proof.
  revert P. induction cs as [|c cs IH]; intros P HP; cbn [run_cells];
    [by apply triple_ret|].
  eapply triple_bind; [done|by apply triple_run_cell|]. intros ?.
  apply IH. apply stable_and; [done|]. by intros ? ?.
Qed.

End Triples.

(** Whatever the cells and the world: each event of a run from the empty
    namespace mentions only operations performed before it. *)
Theorem run_cells_causal w cs a e b :
  (run_cells w cs init).2 = a ++ e :: b ->
  forall i o, In (i, o) (ops_in_event e) -> In (Perform i o) a.
Proof.
  intros Heq i o Hio.
  assert (Hst : store_ok [] (globals init)) by (intros x v Hx; done).
  pose proof (triple_run_cells w cs (fun _ => True) (fun _ _ H => H) [] init I Hst) as H.
  destruct (run_cells w cs init) as [[r st] ev]. destruct H as (Hc & _ & _).
  cbn [snd] in Heq. specialize (Hc a e b Heq). cbn [app] in Hc.
  rewrite Forall_forall in Hc. apply (Hc (i, o)). by apply list_elem_of_In.
Qed.

End Causal.

Module Sequence.

Import Py Notebook.
Local Open Scope list_scope.
Local Open Scope py_scope.

(** ** Operations are performed one at a time

    The operations of a run carry the numbers 0, 1, 2, ... in the order in
    which they are performed. *)

Definition numbers (ev : list event) : list nat :=
  omap (fun e => match e with Perform i _ => Some i | Bind _ _ => None end) ev.

Lemma numbers_app a b : numbers (a ++ b) = numbers a ++ numbers b.
Proof. apply omap_app. Qed.

Definition ticks {A} (m : M A) : Prop :=
  forall st,
    match m st with
    | (_, st', ev) =>
        numbers ev = seq (clock st) (length (numbers ev)) /\
        clock st' = clock st + length (numbers ev)
    end.

Lemma ticks_ret {A} (a : A) : ticks (ret a).
Proof. intros st. cbn. split; [done|lia]. Qed.

Lemma ticks_bind {A B} (m : M A) (f : A -> M B) :
  ticks m -> (forall a, ticks (f a)) -> ticks (bind m f).
Proof.
  intros Hm Hf st. unfold bind. specialize (Hm st).
  destruct (m st) as [[[a|e] st1] ev1]; [|done].
  destruct Hm as [H1 H2]. specialize (Hf a st1).
  destruct (f a st1) as [[r st2] ev2]. destruct Hf as [H3 H4].
  rewrite numbers_app, length_app, seq_app, <- H1, <- H2, <- H3.
  split; [done|lia].
Qed.

Section Ticks.

Variable w : world.

Lemma ticks_perform o : ticks (perform w o).
Proof.
  intros st. unfold perform.
  destruct (raises w (clock st)); cbn; (split; [done|lia]).
Qed.

Lemma ticks_lookup x : ticks (lookup_name x).
Proof.
  intros st. unfold lookup_name.
  destruct (globals st !! x); [|destruct (is_builtin x)]; cbn; (split; [done|lia]).
Qed.

Lemma ticks_bind_name x v : ticks (bind_name x v).
Proof. intros st. cbn. split; [done|lia]. Qed.

Lemma ticks_iterate v : ticks (iterate w v).
Proof.
  intros st. unfold iterate. pose proof (ticks_perform (OIter v) st) as H.
  by destruct (perform w (OIter v) st) as [[[a|e] st1] ev1].
Qed.

Lemma ticks_finally {A} (m : M A) (c : M unit) :
  ticks m -> ticks c -> ticks (finally m c).
Proof.
  intros Hm Hc st. unfold finally. specialize (Hm st).
  destruct (m st) as [[r st1] ev1]. destruct Hm as [H1 H2].
  specialize (Hc st1).
  destruct (c st1) as [[[[]|e] st2] ev2]; destruct Hc as [H3 H4];
    rewrite numbers_app, length_app, seq_app, <- H1, <- H2, <- H3;
    (split; [done|lia]).
Qed.

Lemma ticks_eval_args es :
  Forall (fun e => ticks (eval w e)) es -> ticks (eval_args w es).
Proof.
  induction 1 as [|e es He _ IH]; cbn [eval_args]; [apply ticks_ret|].
  apply ticks_bind; [done|intros v].
  apply ticks_bind; [done|intros vs; apply ticks_ret].
Qed.

Lemma ticks_eval_kwargs kes :
  Forall (fun ke => ticks (eval w (snd ke))) kes -> ticks (eval_kwargs w kes).
Proof.
  induction 1 as [|[k e] kes He _ IH]; cbn [eval_kwargs]; [apply ticks_ret|].
  apply ticks_bind; [done|intros v].
  apply ticks_bind; [done|intros vs; apply ticks_ret].
Qed.

Lemma ticks_eval e : ticks (eval w e).
Proof.
  induction e using expr_induction;
    rewrite ?eval_call, ?eval_list, ?eval_joined; cbn [eval];
    repeat first
      [ apply ticks_ret | apply ticks_lookup | apply ticks_perform
      | assumption
      | by apply ticks_eval_args | by apply ticks_eval_kwargs
      | apply ticks_bind; [|intros ?] ].
Qed.

Lemma ticks_import_from m names : ticks (import_from w m names).
Proof.
  induction names as [|[n a] names IH]; cbn [import_from]; [apply ticks_ret|].
  apply ticks_bind; [apply ticks_perform|intros v].
  apply ticks_bind; [apply ticks_bind_name|by intros ?].
Qed.

Lemma ticks_exec_block ss :
  Forall (fun s => ticks (exec w s)) ss -> ticks (exec_block w ss).
Proof.
  induction 1 as [|s ss Hs _ IH]; cbn [exec_block]; [apply ticks_ret|].
  apply ticks_bind; [done|by intros ?].
Qed.

Lemma ticks_for_loop x body vs :
  ticks (exec_block w body) -> ticks (for_loop w x body vs).
Proof.
  intros Hb. induction vs as [|v vs IH]; cbn [for_loop]; [apply ticks_ret|].
  apply ticks_bind; [apply ticks_bind_name|intros ?].
  apply ticks_bind; [done|by intros ?].
Qed.

Lemma ticks_exec s : ticks (exec w s).
Proof.
  induction s using stmt_induction; rewrite ?exec_with, ?exec_for; cbn [exec].
  - apply ticks_bind; [apply ticks_perform|intros; apply ticks_bind_name].
  - apply ticks_bind; [apply ticks_perform|intros; apply ticks_import_from].
  - apply ticks_bind; [apply ticks_eval|intros; apply ticks_bind_name].
  - apply ticks_bind; [apply ticks_eval|intros; apply ticks_ret].
  - apply ticks_bind; [apply ticks_eval|intros vcm].
    apply ticks_bind; [apply ticks_perform|intros v].
    apply ticks_finally.
    + apply ticks_bind; [apply ticks_bind_name|intros; by apply ticks_exec_block].
    + apply ticks_bind; [apply ticks_perform|intros; apply ticks_ret].
  - apply ticks_bind; [apply ticks_eval|intros vit].
    apply ticks_bind; [apply ticks_iterate|intros vs].
    by apply ticks_for_loop, ticks_exec_block.
Qed.

Lemma ticks_run_cell c : ticks (run_cell w c).
Proof.
  induction c as [|s c IH]; [apply ticks_ret|].
  assert (Hstep : ticks (exec w s ;;; run_cell w c)).
  { apply ticks_bind; [apply ticks_exec|by intros ?]. }
  destruct s; try exact Hstep.
  destruct c; [|exact Hstep]. cbn [run_cell].
  apply ticks_bind; [apply ticks_eval|intros v].
  apply ticks_bind; [apply ticks_perform|intros; apply ticks_ret].
Qed.

Lemma ticks_run_cells cs : ticks (run_cells w cs).
Proof.
  induction cs as [|c cs IH]; cbn [run_cells]; [apply ticks_ret|].
  apply ticks_bind; [apply ticks_run_cell|by intros ?].
Qed.

End Ticks.

Theorem run_cells_numbered w cs :
  numbers (run_cells w cs init).2 =
  seq 0 (length (numbers (run_cells w cs init).2)).
Proof.
  pose proof (ticks_run_cells w cs init) as H.
  destruct (run_cells w cs init) as [[r st] ev]. by destruct H.
Qed.

End Sequence.

Module Observe.

Import Py.
Local Open Scope list_scope.

(** ** Reading the events

    An object handed out by the outside is described by the way the
    notebook reached it: the module it was imported from, followed by the
    attributes read and the calls made. *)

Fixpoint path (v : value) : list string :=
  match v with
  | VBuiltin n => ["builtins"; n]
  | VRet _ o => path_op o
  | VItem _ o _ => path_op o ++ ["<item>"]
  | _ => []
  end
with path_op (o : op) : list string :=
  match o with
  | OImport m => [m]
  | OImportFrom m n => path m ++ [n]
  | OCall f _ _ => path f ++ ["()"]
  | OGetAttr v a => path v ++ [a]
  | OGetItem v _ => path v ++ ["[]"]
  | OAdd a _ => path a ++ ["<add>"]
  | OFormat v _ => path v ++ ["<format>"]
  | OIter v => path v ++ ["<iter>"]
  | OEnter v => path v ++ ["<enter>"]
  | OExit v => path v ++ ["<exit>"]
  | ODisplay v => path v ++ ["<display>"]
  end.

Definition same (p q : list string) : bool := bool_decide (p = q).

(** The value passed for keyword [k]. *)
Definition keyword (k : string) (kwargs : list (string * value)) : option value :=
  snd <$> List.find (fun kv => String.eqb (fst kv) k) kwargs.

(** [recv.run(args, kwargs)]: the positional and keyword arguments. *)
Definition run_call (o : op) : option (list value * list (string * value)) :=
  match o with
  | OCall (VRet _ (OGetAttr _ a)) args kwargs =>
      if String.eqb a "run" then Some (args, kwargs) else None
  | _ => None
  end.

(** [OpenQASMProgram(source=s)] for a string [s]: the program text. *)
Definition qasm_source (v : value) : option string :=
  match v with
  | VRet _ (OCall f [] [(k, VStr s)]) =>
      if String.eqb k "source" && same (path f) ["braket.ir.openqasm"; "Program"]
      then Some s else None
  | _ => None
  end.

Definition shots (kwargs : list (string * value)) : option Z :=
  match keyword "shots" kwargs with
  | Some (VInt n) => Some n
  | _ => None
  end.

(** The circuit built with the SDK: [Circuit().h(..).cnot(..).cnot(..)]. *)
Definition sdk_circuit : list string :=
  ["braket.circuits"; "Circuit"; "()"; "h"; "()"; "cnot"; "()"; "cnot"; "()"].

(** [t.result()]: the object it is called on. *)
Definition fetch_of (o : op) : option value :=
  match o with
  | OCall (VRet _ (OGetAttr t a)) [] [] =>
      if String.eqb a "result" then Some t else None
  | _ => None
  end.

(** [OpenQASMProgram(args, kwargs)] *)
Definition program_call (o : op) : option (list value * list (string * value)) :=
  match o with
  | OCall f args kwargs =>
      if same (path f) ["braket.ir.openqasm"; "Program"] then Some (args, kwargs)
      else None
  | _ => None
  end.



(** [print(args)] *)
Definition print_call (o : op) : option (list value) :=
  match o with
  | OCall (VBuiltin b) args [] => if String.eqb b "print" then Some args else None
  | _ => None
  end.

(** The values an operation is applied to. *)
Definition operands (o : op) : list value :=
  match o with
  | OImport _ => []
  | OImportFrom m _ => [m]
  | OCall f args kwargs => f :: args ++ map snd kwargs
  | OGetAttr v _ | OFormat v _ | OIter v | OEnter v | OExit v | ODisplay v => [v]
  | OGetItem v k => [v; k]
  | OAdd a b => [a; b]
  end.

(** The strings a value consists of: itself, or the strings of a list or
    of an f-string. *)
Fixpoint strings_of (v : value) : list string :=
  match v with
  | VStr s => [s]
  | VList vs | VJoined vs => flat_map strings_of vs
  | _ => []
  end.

End Observe.

Module Always.

Import Py Notebook Cut Calm Runs.
Local Open Scope list_scope.

(** *** Properties of every event of every run *)

Definition check (ok : event -> bool) (_ : unit) (e : event) : option unit :=
  if ok e then Some tt else None.

Lemma run_mon_check ok t :
  is_Some (run_mon (check ok) tt t) -> Forall (fun e => ok e = true) t.
Proof.
  induction t as [|e t IH]; cbn [run_mon]; [constructor|].
  unfold check at 1. destruct (ok e) eqn:E; [|by intros [? ?]].
  intros H. constructor; [done|by apply IH].
Qed.

Lemma check_run_mon ok t :
  forallb ok t = true -> run_mon (check ok) tt t = Some tt.
Proof.
  induction t as [|e t IH]; cbn [run_mon forallb]; [done|].
  unfold check at 1. destruct (ok e); [exact IH|discriminate].
Qed.

Definition printed (k : nat) (v : value) : event :=
  Perform k (OCall (VBuiltin "print") [v] []).

Theorem always (ok : event -> bool) :
  (forall i cm, ok (Perform i (OExit cm)) = true) ->
  forallb ok (evA ++ [Perform kA (OIter vA)]) = true ->
  (forall j k, ok (Bind "gate" (VItem kA (OIter vA) j)) = true /\
               ok (printed k (VItem kA (OIter vA) j)) = true) ->
  (forall m, forallb ok (evB m ++ [Perform (kB m) (OIter (vB m))]) = true) ->
  (forall m j k, ok (Bind "iter" (VItem (kB m) (OIter (vB m)) j)) = true /\
                 ok (printed k (VItem (kB m) (OIter (vB m)) j)) = true) ->
  (forall m n, forallb ok (evC m n) = true) ->
  forall w e, In e (trace w) -> ok e = true.
Proof.
  intros Hexit HA Hg HB Hr HC w e He.
  assert (H : is_Some (run_mon (check ok) tt (trace w))).
  { apply (monitored (check ok) tt tt tt tt).
    - intros [] i cm. unfold ignores, check. rewrite Hexit. reflexivity.
    - apply check_run_mon. exact HA.
    - intros j k. destruct (Hg j k) as [H1 H2]. unfold ignores, check.
      unfold printed in H2. rewrite H1, H2. split; reflexivity.
    - intros m. apply check_run_mon. apply HB.
    - intros m j k. destruct (Hr m j k) as [H1 H2]. unfold ignores, check.
      unfold printed in H2. rewrite H1, H2. split; reflexivity.
    - intros m n. apply check_run_mon. apply HC. }
  apply run_mon_check in H. rewrite Forall_forall in H. apply H.
  apply list_elem_of_In. exact He.
Qed.

(** Discharging the six conditions of [always] by evaluation. *)
Ltac evaluate_checks :=
  apply always; [ intros; reflexivity
                | vm_compute; reflexivity
                | intros; split; reflexivity
                | intros; vm_compute; reflexivity
                | intros; split; reflexivity
                | intros; vm_compute; reflexivity ].

End Always.

Module Monitors.

Import Py Notebook Cut Calm Runs.
Local Open Scope list_scope.

(** ** Order among the events of a run *)

(** [in_order ps t]: [t] has events satisfying the predicates of [ps], one
    after the other. *)
Fixpoint in_order (ps : list (event -> bool)) (t : list event) : Prop :=
  match ps with
  | [] => True
  | p :: ps' => exists a e b, t = a ++ e :: b /\ p e = true /\ in_order ps' b
  end.

Section Matcher.

Context {stage : Type}.
Variable at_stage : stage -> event -> bool.

(** The stages still to come; an event of the next stage moves on. *)
Definition advance (rest : list stage) (e : event) : option (list stage) :=
  match rest with
  | [] => Some []
  | s :: rest' => Some (if at_stage s e then rest' else rest)
  end.

Lemma advance_sound rest t :
  run_mon advance rest t = Some [] -> in_order (map at_stage rest) t.
Proof.
  revert rest. induction t as [|e t IH]; intros rest H; cbn [run_mon] in H.
  - injection H as ->. exact I.
  - destruct rest as [|s rest]; [exact I|]. cbn [advance] in H.
    destruct (at_stage s e) eqn:E.
    + exists [], e, t. split; [reflexivity|]. split; [exact E|]. by apply IH.
    + apply IH in H. cbn [map in_order] in H.
      destruct H as (a & e' & b & -> & He' & Hb).
      exists (e :: a), e', b. split; [reflexivity|]. by split.
Qed.

End Matcher.

Section Precedence.

Variables needs gives : event -> list string.

Definition known (seen : list string) (k : string) : bool :=
  existsb (String.eqb k) seen.

(** Every key an event needs was given by an earlier event. *)
Definition supply (seen : list string) (e : event) : option (list string) :=
  if forallb (known seen) (needs e) then Some (gives e ++ seen) else None.

Lemma supply_sound seen t s :
  run_mon supply seen t = Some s ->
  forall a e b, t = a ++ e :: b ->
  forall k, In k (needs e) -> In k seen \/ exists e', In e' a /\ In k (gives e').
Proof.
  revert seen. induction t as [|e0 t IH]; intros seen H a e b Heq k Hk.
  - destruct a; discriminate Heq.
  - cbn [run_mon] in H. unfold supply at 1 in H.
    destruct (forallb (known seen) (needs e0)) eqn:E; [|discriminate H].
    destruct a as [|e1 a]; cbn [app] in Heq; injection Heq as -> ->.
    + left. rewrite forallb_forall in E. specialize (E k Hk).
      unfold known in E. apply existsb_exists in E as (k' & Hk' & Heq).
      apply String.eqb_eq in Heq. by subst k'.
    + destruct (IH _ H a e b eq_refl k Hk) as [Hs|(e' & He' & Hg)].
      * apply in_app_or in Hs as [Hs|Hs]; [|by left].
        right. exists e1. split; [by left|exact Hs].
      * right. exists e'. split; [by right|exact Hg].
Qed.

End Precedence.

(** Evaluating a monitor over a stretch of events, to the state it ends in. *)
Ltac compute_state :=
  intros;
  lazymatch goal with
  | |- ?lhs = Some ?rhs =>
      let v := eval vm_compute in lhs in
      lazymatch v with
      | Some ?x => unify rhs x; vm_compute; reflexivity
      end
  end.

(** The six conditions of [monitored], by evaluation. *)
Ltac evaluate_monitor_with on_exit step s0 :=
  eapply (monitored step s0);
  [ on_exit
  | compute_state
  | intros; split; vm_compute; reflexivity
  | compute_state
  | intros; split; vm_compute; reflexivity
  | compute_state ].

Ltac evaluate_monitor step s0 :=
  evaluate_monitor_with ltac:(intros; vm_compute; reflexivity) step s0.

End Monitors.

Module Show.

Import Py.
Local Open Scope list_scope.

(** ** Operations, written out

    An operation is written as the Python expression that performs it,
    with every object in the place of the name it was bound to: an object
    is written as the operation that returned it.  The numbers of the
    operations are left out, everything else is kept: callee, positional
    and keyword arguments, attribute names and subscripts. *)

Definition dq : string := String (ascii_of_nat 34) EmptyString.
Definition quoted (s : string) : string := (dq ++ s ++ dq)%string.
Definition commas (l : list string) : string := String.concat ", " l.
Definition keyword_arg (k v : string) : string := (k ++ "=" ++ v)%string.
Definition called (f : string) (args : list string) : string :=
  (f ++ "(" ++ commas args ++ ")")%string.

Fixpoint show (v : value) : string :=
  match v with
  | VStr s => quoted s
  | VInt z => Words.number z
  | VBool b => if b then "True" else "False"
  | VFloat lit => lit
  | VList vs => "[" ++ commas (map show vs) ++ "]"
  | VJoined vs =>
      "f" ++ quoted (String.concat "" (map (fun p => match p with
                                                      | VStr s => s
                                                      | _ => show p
                                                      end) vs))
  | VBuiltin n => n
  | VRet _ o => show_op o
  | VItem _ o _ => called "next" [show_op o]
  end%string
with show_op (o : op) : string :=
  match o with
  | OImport m => m
  | OImportFrom m n => show m ++ "." ++ n
  | OCall f args kwargs =>
      called (show f)
        (map show args ++ map (fun kv => keyword_arg (fst kv) (show (snd kv))) kwargs)
  | OGetAttr v a => show v ++ "." ++ a
  | OGetItem v k => show v ++ "[" ++ show k ++ "]"
  | OAdd a b => show a ++ " + " ++ show b
  | OFormat v spec => "{" ++ show v ++ ":" ++ spec ++ "}"
  | OIter v => called "iter" [show v]
  | OEnter v => show v ++ ".__enter__()"
  | OExit v => show v ++ ".__exit__()"
  | ODisplay v => called "display" [show v]
  end%string.

End Show.


(** ** What a run collects

    Reading something off each event of a run, and keeping what is
    read. *)

Module Gather.

Import Py Notebook Cut Calm Runs.
Local Open Scope list_scope.

Section Collect.

Context {X : Type}.
Variable f : event -> option X.

Lemma omap_calm_events n1 n2 :
  omap f (calm_events n1 n2) =
  omap f (evA ++ [Perform kA (OIter vA)]) ++
  omap f (loop_events "gate" (S kA) (items_of kA vA n1)) ++
  omap f (evB (n1 + S kA) ++ [Perform (kB (n1 + S kA)) (OIter (vB (n1 + S kA)))]) ++
  omap f (loop_events "iter" (S (kB (n1 + S kA)))
            (items_of (kB (n1 + S kA)) (vB (n1 + S kA)) n2)) ++
  omap f (evC (n1 + S kA) (n2 + S (kB (n1 + S kA)))).
Proof. rewrite calm_events_split. by rewrite !omap_app. Qed.

Lemma omap_exits xs :
  (forall i cm, f (Perform i (OExit cm)) = None) ->
  Forall is_exit xs -> omap f xs = [].
Proof.
  intros Hf. induction 1 as [|e xs He _ IH]; [reflexivity|].
  destruct e as [i o|]; [destruct o|]; try destruct He.
  match goal with
  | |- omap f (?e :: xs) = [] =>
      change (omap f (e :: xs))
        with (match f e with Some y => y :: omap f xs | None => omap f xs end)
  end.
  by rewrite Hf.
Qed.

(** What is collected from a run is an initial part of what is collected
    from the run in which nothing raises. *)
Lemma omap_trace_prefix w :
  (forall i cm, f (Perform i (OExit cm)) = None) ->
  omap f (trace w) `prefix_of`
  omap f (calm_events (first_count w) (second_count w)).
Proof.
  intros Hf.
  destruct (runs w) as [[_ Ht]|(i & what & p & xs & _ & _ & Ht & [q Hp] & Hxs)].
  - by rewrite Ht.
  - rewrite Ht, Hp, !omap_app, (omap_exits xs Hf Hxs), app_nil_r.
    by apply prefix_app_r.
Qed.

End Collect.

End Gather.

(** ** Properties of every computation of the interpreter

    A property of computations that holds of the primitive ones and is
    kept by sequencing and by [with] blocks holds of the run of any
    cells. *)

Module Everywhere.

Import Py.
Local Open Scope list_scope.
Local Open Scope py_scope.

Section Good.

Variable w : world.
Variable good : forall A, M A -> Prop.
Arguments good {A} _.

Hypothesis good_ret : forall A (a : A), good (ret a).
Hypothesis good_bind :
  forall A B (m : M A) (f : A -> M B), good m -> (forall a, good (f a)) -> good (bind m f).
Hypothesis good_lookup : forall x, good (lookup_name x).
Hypothesis good_bind_name : forall x v, good (bind_name x v).
Hypothesis good_perform :
  forall o, (forall cm, o <> OEnter cm) -> (forall cm, o <> OExit cm) -> good (perform w o).
Hypothesis good_iterate : forall v, good (iterate w v).
Hypothesis good_block :
  forall (m : value -> M unit) cm,
    (forall v, good (m v)) ->
    good (v <- perform w (OEnter cm) ;; finally (m v) (leave w cm)).

Ltac not_enter := let cm := fresh in let H := fresh in intros cm H; discriminate H.

Lemma good_eval_args es :
  Forall (fun e => good (eval w e)) es -> good (eval_args w es).
Proof.
  induction 1 as [|e es He _ IH]; cbn [eval_args]; [apply good_ret|].
  apply good_bind; [done|intros v].
  apply good_bind; [done|intros vs; apply good_ret].
Qed.

Lemma good_eval_kwargs kes :
  Forall (fun ke => good (eval w (snd ke))) kes -> good (eval_kwargs w kes).
Proof.
  induction 1 as [|[k e] kes He _ IH]; cbn [eval_kwargs]; [apply good_ret|].
  apply good_bind; [done|intros v].
  apply good_bind; [done|intros vs; apply good_ret].
Qed.

Lemma good_eval e : good (eval w e).
Proof.
  induction e using expr_induction;
    rewrite ?eval_call, ?eval_list, ?eval_joined; cbn [eval];
    repeat first
      [ apply good_ret | apply good_lookup
      | apply good_perform; not_enter
      | assumption
      | by apply good_eval_args | by apply good_eval_kwargs
      | apply good_bind; [|intros ?] ].
Qed.

Lemma good_import_from m names : good (import_from w m names).
Proof.
  induction names as [|[n a] names IH]; cbn [import_from]; [apply good_ret|].
  apply good_bind; [apply good_perform; not_enter|intros v].
  apply good_bind; [apply good_bind_name|by intros ?].
Qed.

Lemma good_exec_block ss :
  Forall (fun s => good (exec w s)) ss -> good (exec_block w ss).
Proof.
  induction 1 as [|s ss Hs _ IH]; cbn [exec_block]; [apply good_ret|].
  apply good_bind; [done|by intros ?].
Qed.

Lemma good_for_loop x body vs :
  good (exec_block w body) -> good (for_loop w x body vs).
Proof.
  intros Hb. induction vs as [|v vs IH]; cbn [for_loop]; [apply good_ret|].
  apply good_bind; [apply good_bind_name|intros ?].
  apply good_bind; [done|by intros ?].
Qed.

Lemma good_exec s : good (exec w s).
Proof.
  induction s using stmt_induction; rewrite ?exec_with, ?exec_for; cbn [exec].
  - apply good_bind; [apply good_perform; not_enter|intros; apply good_bind_name].
  - apply good_bind; [apply good_perform; not_enter|intros; apply good_import_from].
  - apply good_bind; [apply good_eval|intros; apply good_bind_name].
  - apply good_bind; [apply good_eval|intros; apply good_ret].
  - apply good_bind; [apply good_eval|intros vcm].
    apply (good_block (fun v => bind_name x v ;;; exec_block w body)).
    intros v. apply good_bind; [apply good_bind_name|intros; by apply good_exec_block].
  - apply good_bind; [apply good_eval|intros vit].
    apply good_bind; [apply good_iterate|intros vs].
    by apply good_for_loop, good_exec_block.
Qed.

Lemma good_run_cell c : good (run_cell w c).
Proof.
  induction c as [|s c IH]; [apply good_ret|].
  assert (Hstep : good (exec w s ;;; run_cell w c)).
  { apply good_bind; [apply good_exec|by intros ?]. }
  destruct s; try exact Hstep.
  destruct c; [|exact Hstep]. cbn [run_cell].
  apply good_bind; [apply good_eval|intros v].
  apply good_bind; [apply good_perform; not_enter|intros; apply good_ret].
Qed.

Theorem good_run_cells cs : good (run_cells w cs).
Proof.
  induction cs as [|c cs IH]; cbn [run_cells]; [apply good_ret|].
  apply good_bind; [apply good_run_cell|by intros ?].
Qed.

End Good.

End Everywhere.

(** ** The error a run ends with

    A run that completes has performed no operation that raised.  Once an
    operation has raised, only [__exit__] calls are still performed, those
    of the [with] blocks being left, and the run ends with the error of
    the last operation that raised: leaving a [with] block can raise in
    turn, and its error then takes the place of the one that made the
    block be left. *)

Module Propagate.

Import Py Cut.
Local Open Scope list_scope.
Local Open Scope py_scope.

Section Accounts.

Variable w : world.

(** No operation of [ev] raised. *)
Definition quiet (ev : list event) : Prop :=
  forall j o, In (Perform j o) ev -> raises w j = None.




















End Accounts.

End Propagate.

(** ** What is left was entered

    [__exit__] is only ever called on a context manager whose [__enter__]
    was called before. *)

Module Entering.

Import Py.
Local Open Scope list_scope.
Local Open Scope py_scope.

Section Opened.

Variable w : world.

Definition opened_in (ev : list event) : Prop :=
  forall a j cm b,
    ev = a ++ Perform j (OExit cm) :: b -> exists k, In (Perform k (OEnter cm)) a.

Definition opens {A} (m : M A) : Prop := forall st, opened_in (m st).2.

Lemma opened_in_nil : opened_in [].
Proof. intros [|? ?] ? ? ? Heq; discriminate Heq. Qed.

Lemma opened_in_one e : (forall j cm, e <> Perform j (OExit cm)) -> opened_in [e].
Proof.
  intros He [|e' [|? ?]] j cm b Heq; try discriminate Heq.
  injection Heq as -> _. by destruct (He j cm).
Qed.

Lemma opened_in_app ev1 ev2 :
  opened_in ev1 -> opened_in ev2 -> opened_in (ev1 ++ ev2).
Proof.
  intros H1 H2 a j cm b Heq.
  apply app_eq_inv in Heq as [(l & Ha & Hl)|(l & Ha & Hl)].
  - destruct l as [|e' l]; cbn [app] in Hl.
    + rewrite app_nil_r in Ha. subst a ev2.
      destruct (H2 [] j cm b eq_refl) as [k []].
    + injection Hl as <- ->. by apply (H1 a j cm l).
  - destruct (H2 l j cm b Hl) as [k Hk]. exists k. subst a.
    apply in_or_app. by right.
Qed.

Lemma opens_ret A (a : A) : opens (ret a).
Proof. intros st. apply opened_in_nil. Qed.

Lemma opens_bind A B (m : M A) (f : A -> M B) :
  opens m -> (forall a, opens (f a)) -> opens (bind m f).
Proof.
  intros Hm Hf st. unfold bind. specialize (Hm st).
  destruct (m st) as [[[x|e] st1] ev1]; [|exact Hm].
  specialize (Hf x st1). destruct (f x st1) as [[r st2] ev2].
  cbn [snd] in *. by apply opened_in_app.
Qed.

Lemma opens_perform o : (forall cm, o <> OExit cm) -> opens (perform w o).
Proof.
  intros Ho st. unfold perform.
  destruct (raises w (clock st)); cbn [snd]; apply opened_in_one;
    intros k cm H; injection H as _ H; by destruct (Ho cm).
Qed.

Lemma opens_iterate v : opens (iterate w v).
Proof.
  intros st. unfold iterate.
  pose proof (opens_perform (OIter v) (fun cm H => ltac:(discriminate H)) st) as H.
  by destruct (perform w (OIter v) st) as [[[a|e] st1] ev1].
Qed.

Lemma opens_lookup x : opens (lookup_name x).
Proof.
  intros st. unfold lookup_name.
  destruct (globals st !! x); [|destruct (is_builtin x)]; apply opened_in_nil.
Qed.

Lemma opens_bind_name x v : opens (bind_name x v).
Proof. intros st. apply opened_in_one. intros ? ? H. discriminate H. Qed.

Lemma opens_block (m : value -> M unit) cm :
  (forall v, opens (m v)) ->
  opens (v <- perform w (OEnter cm) ;; finally (m v) (leave w cm)).
Proof.
  intros Hm st. unfold bind at 1. unfold perform at 1.
  destruct (raises w (clock st)) as [what|] eqn:E; cbn [snd].
  - apply opened_in_one. intros ? ? H. discriminate H.
  - unfold finally, leave, bind, perform, ret.
    set (st1 := State (globals st) (S (clock st))).
    set (v := VRet (clock st) (OEnter cm)).
    specialize (Hm v st1). destruct (m v st1) as [[r st2] ev2]. cbn [snd] in Hm.
    cbn [clock globals].
    assert (H : forall k', opened_in (Perform (clock st) (OEnter cm) ::
                                      ev2 ++ [Perform k' (OExit cm)])).
    { intros k' a j cm' b Heq. destruct a as [|e a]; cbn [app] in Heq.
      - discriminate Heq.
      - injection Heq as <- Heq.
        apply app_eq_inv in Heq as [(l & Ha & Hl)|(l & Ha & Hl)].
        + destruct l as [|e' l]; cbn [app] in Hl.
          * injection Hl as _ -> _. exists (clock st). by left.
          * injection Hl as <- ->.
            destruct (Hm a j cm' l Ha) as [k Hk]. exists k. by right.
        + destruct l as [|? [|? ?]]; try discriminate Hl.
          injection Hl as _ <-. exists (clock st). by left. }
    destruct (raises w (clock st2)); cbn [snd app]; rewrite ?app_nil_r; apply H.
Qed.

Theorem opens_run_cells cs : opens (run_cells w cs).
Proof.
  apply (Everywhere.good_run_cells w (@opens)).
  - apply opens_ret.
  - apply opens_bind.
  - apply opens_lookup.
  - apply opens_bind_name.
  - intros o _ Ho. by apply opens_perform.
  - apply opens_iterate.
  - apply opens_block.
Qed.

End Opened.

End Entering.

(** ** Objects

    An object handed out by the outside is the result of one operation of
    the run, and the number of the operation tells which: no two
    operations of a run have the same number. *)

Module Objects.

Import Py Notebook Causal Sequence Runs.
Local Open Scope list_scope.

Lemma numbered_once (t : list event) i o1 o2 :
  NoDup (numbers t) -> In (Perform i o1) t -> In (Perform i o2) t -> o1 = o2.
Proof.
  induction t as [|e t IH]; intros Hnd H1 H2; [destruct H1|].
  assert (Hin : forall o, In (Perform i o) t -> i ∈ numbers t).
  { intros o Ho. unfold numbers. apply list_elem_of_omap.
    exists (Perform i o). split; [by apply list_elem_of_In|reflexivity]. }
  destruct e as [j o|x v].
  - change (numbers (Perform j o :: t)) with (j :: numbers t) in Hnd.
    apply NoDup_cons in Hnd as [Hj Hnd].
    destruct H1 as [H1|H1], H2 as [H2|H2].
    + congruence.
    + injection H1 as -> ->. destruct Hj. by apply (Hin o2).
    + injection H2 as -> ->. destruct Hj. by apply (Hin o1).
    + by apply IH.
  - change (numbers (Bind x v :: t)) with (numbers t) in Hnd.
    destruct H1 as [H1|H1]; [discriminate H1|].
    destruct H2 as [H2|H2]; [discriminate H2|]. by apply IH.
Qed.

(** An operation of a run is performed once. *)
Lemma performed_once w i o1 o2 :
  In (Perform i o1) (trace w) -> In (Perform i o2) (trace w) -> o1 = o2.
Proof.
  apply numbered_once. unfold trace, run. rewrite run_cells_numbered. apply NoDup_seq.
Qed.

(** Two objects mentioned by events of a run are the same when they are
    results of the operation with the same number. *)
Lemma same_object w e1 e2 i o1 o2 :
  In e1 (trace w) -> In e2 (trace w) ->
  In (i, o1) (ops_in_event e1) -> In (i, o2) (ops_in_event e2) -> o1 = o2.
Proof.
  intros H1 H2 Ho1 Ho2.
  apply in_split in H1 as (a1 & b1 & Heq1). apply in_split in H2 as (a2 & b2 & Heq2).
  pose proof (run_cells_causal w cells a1 e1 b1 Heq1 i o1 Ho1) as P1.
  pose proof (run_cells_causal w cells a2 e2 b2 Heq2 i o2 Ho2) as P2.
  apply (performed_once w i).
  - unfold trace, run in *. rewrite Heq1. apply in_or_app. by left.
  - unfold trace, run in *. rewrite Heq2. apply in_or_app. by left.
Qed.

(** The number under which a value names an object. *)
Definition object_number (v : value) : option nat :=
  match v with
  | VRet i _ => Some i
  | _ => None
  end.

Section Precedence.

Variables needs gives : event -> list nat.

(** Every object an event needs was given by an earlier event. *)
Definition supply_on (seen : list nat) (e : event) : option (list nat) :=
  if forallb (fun k => existsb (Nat.eqb k) seen) (needs e)
  then Some (gives e ++ seen) else None.

Lemma supply_on_sound seen t s :
  run_mon supply_on seen t = Some s ->
  forall a e b, t = a ++ e :: b ->
  forall k, In k (needs e) -> In k seen \/ exists e', In e' a /\ In k (gives e').
Proof.
  revert seen. induction t as [|e0 t IH]; intros seen H a e b Heq k Hk.
  - destruct a; discriminate Heq.
  - cbn [run_mon] in H. unfold supply_on at 1 in H.
    destruct (forallb _ (needs e0)) eqn:E; [|discriminate H].
    destruct a as [|e1 a]; cbn [app] in Heq; injection Heq as -> ->.
    + left. rewrite forallb_forall in E. specialize (E k Hk).
      apply existsb_exists in E as (k' & Hk' & Heq).
      apply Nat.eqb_eq in Heq. by subst k'.
    + destruct (IH _ H a e b eq_refl k Hk) as [Hs|(e' & He' & Hg)].
      * apply in_app_or in Hs as [Hs|Hs]; [|by left].
        right. exists e1. split; [by left|exact Hs].
      * right. exists e'. split; [by right|exact Hg].
Qed.

End Precedence.

End Objects.

(** * The claims *)

Import Py Notebook Cut Calm Runs Causal Sequence Observe Always Monitors.
Local Open Scope list_scope.
Local Open Scope py_scope.
Import Show Gather Objects.

(** ** C1: what is submitted to a device *)

(** *** The notebook, written out

    The objects of the notebook, written as [Show.show] writes them: each
    name of the notebook stands for the expression it was bound to. *)

Module Written.

Definition AwsDevice : string := "braket.aws.AwsDevice".
Definition OpenQASMProgram : string := "braket.ir.openqasm.Program".
Definition Circuit : string := "braket.circuits.Circuit".
Definition Noise : string := "braket.circuits.Noise".

Definition sv1 : string :=
  called AwsDevice [quoted "arn:aws:braket:::device/quantum-simulator/amazon/sv1"].
Definition dm1 : string :=
  called AwsDevice [quoted "arn:aws:braket:::device/quantum-simulator/amazon/dm1"].
Definition aspen_m1 : string :=
  called AwsDevice [quoted "arn:aws:braket:us-west-1::device/qpu/rigetti/Aspen-M-1"].

(** [OpenQASMProgram(source=text)] *)
Definition program (text : string) : string :=
  called OpenQASMProgram [keyword_arg "source" (quoted text)].

(** [noisy_ghz3_circ = Circuit().h(0).cnot(0, 1).cnot(1, 2)] *)
Definition noisy_ghz3_circ : string :=
  called (called (called (called Circuit [] ++ ".h") ["0"] ++ ".cnot") ["0"; "1"] ++ ".cnot")
         ["1"; "2"].

(** [noise = Noise.Depolarizing(probability=0.1)] *)
Definition noise : string :=
  called (Noise ++ ".Depolarizing") [keyword_arg "probability" "0.1"].

(** [device.run(payload, shots=n)] *)
Definition run (device payload shots : string) : string :=
  called (device ++ ".run") [payload; keyword_arg "shots" shots].

Definition bell_task : string := run sv1 (program Text.bell_qasm) "100".
Definition noisy_ghz3_circ_task : string := run dm1 noisy_ghz3_circ "10".
Definition noisy_ghz3_program_task : string :=
  run dm1 (program Text.noisy_ghz3_program) "10".
Definition unitary_task : string := run dm1 (program Text.program_with_unitary) "10".
Definition ghz_program_with_physical_qubits_task : string :=
  run aspen_m1 (program Text.ghz_program_with_physical_qubits) "10".
Definition verbatim_task : string :=
  run aspen_m1 (program Text.program_with_verbatim_box) "10".
Definition bell_result_types_task : string :=
  run sv1 (program Text.bell_with_result_type) "0".

(** The [run] calls of the notebook, in the order of the cells. *)
Definition run_calls : list string :=
  [ bell_task; noisy_ghz3_circ_task; noisy_ghz3_program_task; unitary_task;
    ghz_program_with_physical_qubits_task; verbatim_task; bell_result_types_task ].

End Written.

(** The operation with number [i] in the recorded run. *)
Definition recorded_op (i : nat) : op :=
  match List.find (fun e => match e with
                            | Perform j _ => Nat.eqb i j
                            | Bind _ _ => false
                            end) (trace recorded) with
  | Some (Perform _ o) => o
  | _ => OImport EmptyString
  end.

Lemma recorded_op_performed i :
  existsb (fun e => match e with
                    | Perform j _ => Nat.eqb i j
                    | Bind _ _ => false
                    end) (trace recorded) = true ->
  In (Perform i (recorded_op i)) (trace recorded).
Proof.
  unfold recorded_op. intros H.
  destruct (List.find _ (trace recorded)) as [[j o|x v]|] eqn:E.
  - apply find_some in E as [HIn Hj]. apply Nat.eqb_eq in Hj. by subst j.
  - apply find_some in E as [_ Hj]. discriminate Hj.
  - apply existsb_exists in H as (e & He & Hj).
    eapply find_none in E; [|exact He]. rewrite E in Hj. discriminate Hj.
Qed.

Ltac performed_in_recorded :=
  apply recorded_op_performed; vm_compute; reflexivity.

(** A [run] call, written out. *)
Definition run_written (e : event) : option string :=
  match e with
  | Perform _ o => if bool_decide (is_Some (run_call o)) then Some (show_op o) else None
  | Bind _ _ => None
  end.

Lemma no_run_in_loop x k vs : omap run_written (loop_events x k vs) = [].
Proof.
  revert k. induction vs as [|v vs IH]; intros k; [reflexivity|].
  cbn [loop_events]. exact (IH (S k)).
Qed.

Lemma runs_of_calm_events n1 n2 :
  omap run_written (calm_events n1 n2) = Written.run_calls.
Proof.
  rewrite omap_calm_events, !no_run_in_loop.
  assert (HA : omap run_written (evA ++ [Perform kA (OIter vA)]) =
               firstn 5 Written.run_calls) by (vm_compute; reflexivity).
  assert (HB : forall m, omap run_written
                           (evB m ++ [Perform (kB m) (OIter (vB m))]) =
                         firstn 1 (skipn 5 Written.run_calls))
    by (intros; vm_compute; reflexivity).
  assert (HC : forall m n, omap run_written (evC m n) = skipn 6 Written.run_calls)
    by (intros; vm_compute; reflexivity).
  rewrite HA, HB, HC. reflexivity.
Qed.

(** The object a [run] call submits when it is no [OpenQASMProgram] built
    from a text. *)
Definition other_payload (e : event) : option value :=
  match e with
  | Perform _ o =>
      match run_call o with
      | Some (p :: _, _) =>
          match qasm_source p with
          | Some _ => None
          | None => Some p
          end
      | _ => None
      end
  | Bind _ _ => None
  end.

(** The object on which [apply_gate_noise(noise)] is called. *)
Definition noise_applied (e : event) : option value :=
  match e with
  | Perform _ (OCall (VRet _ (OGetAttr c a)) [n] []) =>
      if String.eqb a "apply_gate_noise" && String.eqb (show n) Written.noise
      then Some c else None
  | _ => None
  end.

(** Objects are told apart by the number of the operation they are the
    result of; [0] stands for what is no such object. *)
Definition object_key (v : value) : nat :=
  match v with
  | VRet i _ => S i
  | _ => 0
  end.

Definition needs_noise (e : event) : list nat :=
  match other_payload e with
  | Some p => [object_key p]
  | None => []
  end.

Definition gives_noise (e : event) : list nat :=
  match noise_applied e with
  | Some (VRet i _) => [S i]
  | _ => []
  end.

Lemma other_payload_mentioned e p :
  other_payload e = Some p -> forall io, In io (ops_in p) -> In io (ops_in_event e).
Proof.
  destruct e as [i o|x v]; [|discriminate]. cbn [other_payload].
  destruct (run_call o) as [[args kwargs]|] eqn:Ho; [|discriminate].
  destruct args as [|q args]; [discriminate|].
  destruct (qasm_source q); [discriminate|]. intros H. injection H as ->.
  destruct o as [| |f args' kwargs'| | | | | | | |]; try discriminate Ho.
  destruct f as [| | | | | | |j [| | |r n| | | | | | |]|]; try discriminate Ho.
  cbn [run_call] in Ho. destruct (String.eqb n "run"); [|discriminate Ho].
  injection Ho as -> ->. intros io Hio. cbn [ops_in_event ops_in_op].
  apply in_or_app. right. apply in_or_app. left. cbn [flat_map].
  apply in_or_app. by left.
Qed.

Lemma noise_applied_mentioned e c :
  noise_applied e = Some c -> forall io, In io (ops_in c) -> In io (ops_in_event e).
Proof.
  destruct e as [i o|x v]; [|discriminate].
  destruct o as [| |f args kwargs| | | | | | | |]; try discriminate.
  destruct f as [| | | | | | |j [| | |r n| | | | | | |]|]; try discriminate.
  destruct args as [|nz [|? ?]]; try discriminate.
  destruct kwargs; [|discriminate]. cbn [noise_applied].
  destruct (_ && _); [|discriminate]. intros H. injection H as ->.
  intros io Hio. cbn [ops_in_event ops_in_op ops_in].
  apply in_or_app. left. right. exact Hio.
Qed.

Lemma noise_applied_first w a e b p :
  trace w = a ++ e :: b -> other_payload e = Some p ->
  exists e', In e' a /\ noise_applied e' = Some p.
Proof.
  intros Heq Hp.
  assert (H : is_Some (run_mon (supply_on needs_noise gives_noise) [] (trace w))).
  { eapply proj1. evaluate_monitor (supply_on needs_noise gives_noise) (@nil nat). }
  destruct H as [seen Hseen].
  destruct (supply_on_sound _ _ _ _ _ Hseen a e b Heq (object_key p))
    as [[]|(e' & He' & Hg)].
  { unfold needs_noise. rewrite Hp. by left. }
  exists e'. split; [exact He'|].
  unfold gives_noise in Hg. destruct (noise_applied e') as [c|] eqn:Hc; [|destruct Hg].
  destruct c as [| | | | | | |i oc|]; try (destruct Hg; fail).
  destruct Hg as [Hg|[]].
  destruct p as [| | | | | | |j op|]; try discriminate Hg.
  injection Hg as ->. f_equal. f_equal.
  apply (same_object w e' e j).
  - rewrite Heq. apply in_or_app. by left.
  - rewrite Heq. apply in_or_app. right. by left.
  - apply (noise_applied_mentioned _ _ Hc). by left.
  - apply (other_payload_mentioned _ _ Hp). by left.
Qed.

(** What C1 says of an event: a [run] call passes a program text, wrapped
    as an [OpenQASMProgram], and a shot count. *)
Definition submits_text (e : event) : bool :=
  match e with
  | Perform _ o =>
      match run_call o with
      | Some ([p], kwargs) =>
          bool_decide (is_Some (qasm_source p)) && bool_decide (is_Some (shots kwargs))
      | Some _ => false
      | None => true
      end
  | Bind _ _ => true
  end.


(** C1, as stated, fails: [dm1.run(noisy_ghz3_circ, shots = 10)], operation
    65 of the recorded run, submits an SDK circuit, not a program text. *)
Lemma C1_circuit_submitted :
  ~ (forall e, In e (trace recorded) -> submits_text e = true).
Proof.
  intros H.
  assert (HIn : In (Perform 65 (recorded_op 65)) (trace recorded))
    by performed_in_recorded.
  apply H in HIn. vm_compute in HIn. discriminate HIn.
Qed.

(** The payload of a [run] call that is no [OpenQASMProgram] built from a
    text is the circuit built with the SDK. *)
Definition other_payload_ok (e : event) : bool :=
  match other_payload e with
  | Some p => String.eqb (show p) Written.noisy_ghz3_circ
  | None => true
  end.

Lemma other_payloads_ok w e : In e (trace w) -> other_payload_ok e = true.
Proof. revert w e. evaluate_checks. Qed.

(** C1, amended: the [run] calls of a run are, in order, an initial part
    of the seven calls of [Written.run_calls], and all seven in a run that
    completes; each passes one positional payload and the keyword
    [shots].  Six of the payloads are [OpenQASMProgram(source=text)] for a
    program text of the notebook; the payload of the second call is the
    object [Circuit().h(0).cnot(0, 1).cnot(1, 2)] built with the SDK, the
    same object on which
    [apply_gate_noise(Noise.Depolarizing(probability=0.1))] was called
    before. *)
Theorem C1_run_calls w :
  omap run_written (trace w) `prefix_of` Written.run_calls /\
  (result w = Ok tt -> omap run_written (trace w) = Written.run_calls) /\
  (forall a e b p,
     trace w = a ++ e :: b -> other_payload e = Some p ->
     show p = Written.noisy_ghz3_circ /\
     exists e', In e' a /\ noise_applied e' = Some p).
Proof.
  split; [|split].
  - rewrite <- (runs_of_calm_events (first_count w) (second_count w)).
    apply omap_trace_prefix. reflexivity.
  - intros Hr. destruct (runs w) as [[_ Ht]|(i & what & _ & _ & Hr' & _)];
      [|rewrite Hr in Hr'; discriminate Hr'].
    rewrite Ht. apply runs_of_calm_events.
  - intros a e b p Heq Hp. split.
    + assert (HIn : In e (trace w)).
      { rewrite Heq. apply in_or_app. right. by left. }
      apply other_payloads_ok in HIn. unfold other_payload_ok in HIn.
      rewrite Hp in HIn. by apply String.eqb_eq.
    + by apply (noise_applied_first w a e b).
Qed.

(** The circuit submitted by operation 65 of the recorded run. *)
Definition recorded_circuit : value :=
  default (VBool false) (other_payload (Perform 65 (recorded_op 65))).

Lemma C1_run_calls_witness :
  omap run_written (trace recorded) = Written.run_calls /\
  show recorded_circuit = Written.noisy_ghz3_circ /\
  exists e', In e' (firstn 88 (trace recorded)) /\
             noise_applied e' = Some recorded_circuit.
Proof.
  split.
  - apply (proj1 (proj2 (C1_run_calls recorded))). vm_compute. reflexivity.
  - apply (proj2 (proj2 (C1_run_calls recorded)) (firstn 88 (trace recorded))
             (Perform 65 (recorded_op 65)) (skipn 89 (trace recorded))).
    + vm_compute. reflexivity.
    + vm_compute. reflexivity.
Defined.

(** ** C2: the steps of a quantum task *)

(** What a task is submitted with: a program text, or the SDK circuit. *)
Inductive payload : Type :=
| Text (s : string)
| SdkCircuit.

Definition carries (k : payload) (p : value) : bool :=
  match k with
  | Text s =>
      match qasm_source p with
      | Some s' => String.eqb s s'
      | None => false
      end
  | SdkCircuit => same (path p) sdk_circuit
  end.

(** The task handle returned by [recv.run(p, ...)] with [p] carrying [k]. *)
Definition task_with (k : payload) (t : value) : bool :=
  match t with
  | VRet _ o =>
      match run_call o with
      | Some ([p], _) => carries k p
      | _ => false
      end
  | _ => false
  end.

(** [t.result()] for such a task, or an attribute read from it. *)
Fixpoint read_from (k : payload) (v : value) : bool :=
  match v with
  | VRet _ o =>
      match fetch_of o with
      | Some t => task_with k t
      | None =>
          match o with
          | OGetAttr v' _ => read_from k v'
          | _ => false
          end
      end
  | _ => false
  end.

Inductive step : Type := Authored | Submitted | Fetched | Shown.

Definition at_step (k : payload) (s : step) (e : event) : bool :=
  match s, e with
  | Authored, Bind _ v =>
      match k with
      | Text s => match v with VStr s' => String.eqb s s' | _ => false end
      | SdkCircuit => same (path v) sdk_circuit
      end
  | Submitted, Perform _ o =>
      match run_call o with
      | Some ([p], _) => carries k p
      | _ => false
      end
  | Fetched, Perform _ o =>
      match fetch_of o with
      | Some t => task_with k t
      | None => false
      end
  | Shown, Perform _ o =>
      match print_call o with
      | Some args => existsb (read_from k) args
      | None => false
      end
  | _, _ => false
  end.

Definition steps : list step := [Authored; Submitted; Fetched; Shown].

Definition fetched_payloads : list payload :=
  [ SdkCircuit;
    Text Text.noisy_ghz3_program;
    Text Text.program_with_unitary;
    Text Text.ghz_program_with_physical_qubits;
    Text Text.program_with_verbatim_box;
    Text Text.bell_with_result_type ].

Lemma all_steps k w :
  In k fetched_payloads -> result w = Ok tt ->
  in_order (map (at_step k) steps) (trace w).
Proof.
  intros Hk Hr. apply advance_sound.
  revert w Hr.
  assert (H : forall w, is_Some (run_mon (advance (at_step k)) steps (trace w)) /\
                        (result w = Ok tt ->
                         run_mon (advance (at_step k)) steps (trace w) = Some [])).
  { cbn [In fetched_payloads] in Hk.
    repeat (destruct Hk as [<-|Hk]); [..|destruct Hk];
      lazymatch goal with
      | |- forall w, is_Some (run_mon ?st ?s0 _) /\ _ =>
          evaluate_monitor_with
            ltac:(intros rest i cm; destruct rest as [|[] rest]; reflexivity) st s0
      end. }
  intros w. apply H.
Qed.

Lemma bell_task_never_fetched w e :
  In e (trace w) -> negb (at_step (Text Text.bell_qasm) Fetched e) = true.
Proof. revert w e. evaluate_checks. Qed.

(** The texts an event needs: the source of a program wrapped by
    [OpenQASMProgram], and the source of the payload of a [run] call. *)
Definition text_needed (e : event) : list string :=
  match e with
  | Perform _ o =>
      match program_call o with
      | Some (_, kwargs) =>
          match keyword "source" kwargs with
          | Some v => strings_of v
          | None => []
          end
      | None =>
          match run_call o with
          | Some ([p], _) =>
              match qasm_source p with
              | Some s => [s]
              | None => []
              end
          | _ => []
          end
      end
  | Bind _ _ => []
  end.

Definition text_defined (e : event) : list string :=
  match e with
  | Bind _ (VStr s) => [s]
  | _ => []
  end.

Lemma texts_defined_first w a e b s :
  trace w = a ++ e :: b -> In s (text_needed e) ->
  exists x, In (Bind x (VStr s)) a.
Proof.
  intros Heq Hs.
  assert (H : is_Some (run_mon (supply text_needed text_defined) [] (trace w))).
  { eapply proj1. evaluate_monitor (supply text_needed text_defined) (@nil string). }
  destruct H as [seen Hseen].
  destruct (supply_sound _ _ _ _ _ Hseen a e b Heq s Hs) as [[]|(e' & He' & Hg)].
  destruct e' as [i0 o0|x v]; [destruct Hg|].
  destruct v; cbn [text_defined] in Hg; try (destruct Hg; fail).
  exists x. destruct Hg as [->|[]]. exact He'.
Qed.

Definition fetch_ok (e : event) : bool :=
  match e with
  | Perform _ o =>
      match fetch_of o with
      | Some (VRet _ o') => bool_decide (is_Some (run_call o'))
      | Some _ => false
      | None => true
      end
  | Bind _ _ => true
  end.

Lemma fetches_ok w e : In e (trace w) -> fetch_ok e = true.
Proof. revert w e. evaluate_checks. Qed.

Lemma fetched_after_submitted w a j f b t :
  trace w = a ++ Perform j f :: b -> fetch_of f = Some t ->
  exists i o, t = VRet i o /\ is_Some (run_call o) /\ In (Perform i o) a.
Proof.
  intros Heq Hf.
  assert (HIn : In (Perform j f) (trace w)).
  { rewrite Heq. apply in_or_app. right. by left. }
  apply fetches_ok in HIn. unfold fetch_ok in HIn. rewrite Hf in HIn.
  destruct t as [| | | | | | |i o|]; try discriminate HIn.
  apply bool_decide_eq_true in HIn.
  exists i, o. split; [reflexivity|]. split; [exact HIn|].
  apply (run_cells_causal w cells a (Perform j f) b Heq).
  destruct f as [| |g args kwargs| | | | | | | |]; try discriminate Hf.
  destruct g as [| | | | | | |i' [| | |r n| | | | | | |]|]; try discriminate Hf.
  cbn [fetch_of] in Hf. destruct args; [|discriminate Hf].
  destruct kwargs; [|discriminate Hf].
  destruct (String.eqb n "result"); [|discriminate Hf].
  injection Hf as ->. cbn. right. by left.
Qed.

Lemma shown_after_fetched w a j o b args v i f :
  trace w = a ++ Perform j o :: b -> print_call o = Some args ->
  In v args -> In (i, f) (ops_in v) -> In (Perform i f) a.
Proof.
  intros Heq Hp Hv Hf.
  apply (run_cells_causal w cells a (Perform j o) b Heq).
  destruct o as [| |g args' kwargs| | | | | | | |]; try discriminate Hp.
  destruct g; try discriminate Hp. cbn [print_call] in Hp.
  destruct kwargs; [|discriminate Hp].
  destruct (String.eqb name "print"); [|discriminate Hp].
  injection Hp as ->. cbn [ops_in_event ops_in_op ops_in app].
  apply in_or_app. left. apply in_flat_map. by exists v.
Qed.

(** C2, as stated, fails: [bell_task] is submitted (operation 25 of the
    recorded run) but the notebook never calls [result()] on it, so its
    steps stop after the submission. *)
Lemma C2_bell_task_not_fetched :
  ~ (forall k,
       (exists e, In e (trace recorded) /\ at_step k Submitted e = true) ->
       in_order (map (at_step k) steps) (trace recorded)).
Proof.
  intros H. specialize (H (Text Text.bell_qasm)).
  destruct H as (a1 & e1 & b1 & Heq1 & _ & a2 & e2 & b2 & Heq2 & _ &
                 a3 & e3 & b3 & Heq3 & He3 & _).
  - exists (Perform 25 (recorded_op 25)).
    split; [performed_in_recorded|vm_compute; reflexivity].
  - assert (HIn : In e3 (trace recorded)).
    { rewrite Heq1, Heq2, Heq3.
      apply in_or_app. right. right.
      apply in_or_app. right. right.
      apply in_or_app. right. by left. }
    apply bell_task_never_fetched in HIn. rewrite He3 in HIn. discriminate HIn.
Qed.

(** C2, amended: in every run, (1) the text of a program wrapped by
    [OpenQASMProgram] or submitted by [run] was bound to a name before,
    (2) [result()] is called only on the handle of a [run] call performed
    before, and (3) what [print] is given was obtained by operations
    performed before; (4) in a run that completes, the six payloads of
    [fetched_payloads] are each authored, submitted, fetched and shown, in
    this order; (5) in no run is [result()] called on the task submitted
    with [bell_qasm]. *)
Theorem C2_steps_in_order w :
  (forall a e b s,
     trace w = a ++ e :: b -> In s (text_needed e) ->
     exists x, In (Bind x (VStr s)) a) /\
  (forall a j f b t,
     trace w = a ++ Perform j f :: b -> fetch_of f = Some t ->
     exists i o, t = VRet i o /\ is_Some (run_call o) /\ In (Perform i o) a) /\
  (forall a j o b args v i f,
     trace w = a ++ Perform j o :: b -> print_call o = Some args ->
     In v args -> In (i, f) (ops_in v) -> In (Perform i f) a) /\
  (result w = Ok tt ->
   forall k, In k fetched_payloads -> in_order (map (at_step k) steps) (trace w)) /\
  (forall e, In e (trace w) -> at_step (Text Text.bell_qasm) Fetched e = false).
Proof.
  split; [apply texts_defined_first|].
  split; [apply fetched_after_submitted|].
  split; [apply shown_after_fetched|].
  split.
  - intros Hr k Hk. by apply all_steps.
  - intros e He. apply bell_task_never_fetched in He.
    by apply negb_true_iff in He.
Qed.

Lemma C2_steps_in_order_witness :
  in_order (map (at_step SdkCircuit) steps) (trace recorded).
Proof.
  apply (proj1 (proj2 (proj2 (proj2 (C2_steps_in_order recorded))))).
  - vm_compute. reflexivity.
  - left. reflexivity.
Defined.

(** ** C3: program texts are opaque payloads *)


(** The assignments [x = <string literal>] of the cells. *)
Definition string_assignments (cs : list cell) : list (string * string) :=
  flat_map (flat_map (fun s => match s with
                               | SAssign x (EStr t) => [(x, t)]
                               | _ => []
                               end)) cs.













(** ** C4: errors of the outside reach the user *)

(** No source text has a word of [banned]. *)
Definition free_of (banned : list string) (srcs : list string) : bool :=
  forallb (fun src =>
             forallb (fun word => negb (existsb (String.eqb word) banned))
                     (Lex.words src)) srcs.

Lemma free_of_sound banned srcs :
  free_of banned srcs = true ->
  forall src word, In src srcs -> In word (Lex.words src) -> ~ In word banned.
Proof.
  unfold free_of. intros H src word Hsrc Hword Hb.
  rewrite forallb_forall in H. specialize (H src Hsrc).
  rewrite forallb_forall in H. specialize (H word Hword).
  apply negb_true_iff in H.
  assert (H' : existsb (String.eqb word) banned = true).
  { apply existsb_exists. exists word. split; [exact Hb|apply String.eqb_refl]. }
  rewrite H' in H. discriminate H.
Qed.






(** ** C5: what the notebook touches *)

Inductive kind : Type :=
| Import | ProgramText | Device | Submit | Result | Print | Display
| File | DeviceQuery | CostTracking | Jaqcd | CircuitBuilding | Plot | Other.

Definition device : list string := ["braket.aws"; "AwsDevice"; "()"].

(** The operations of the notebook, cell by cell, in the order in which
    a cell performs them, each with its kind.  An attribute access, a
    subscription and a call are one operation each. *)

Module Effects.

Import Written.

Definition attr (x a : string) : string := (x ++ "." ++ a)%string.
Definition subscript (x k : string) : string := (x ++ "[" ++ k ++ "]")%string.
Definition print (args : list string) : string := called "print" args.
Definition display (x : string) : string := called "display" [x].
Definition as_ (k : kind) (ops : list string) : list (kind * string) :=
  map (pair k) ops.

(** [x.a1.a2...]: one operation for each attribute. *)
Fixpoint attrs (x : string) (names : list string) : list string :=
  match names with
  | [] => []
  | a :: names' => attr x a :: attrs (attr x a) names'
  end.
Definition path (x : string) (names : list string) : string :=
  fold_left attr names x.

(** [recv.m(args)]: the attribute access, then the call. *)
Definition method (recv m : string) (args : list string) : list string :=
  [attr recv m; called (attr recv m) args].

(** [device.run(payload, shots=n).result()] *)
Definition result (task : string) : string := called (attr task "result") [].

(* cell 0 *)
Definition Tracker : string := "braket.tracking.Tracker".
Definition t : string := called (attr (called Tracker []) "start") [].
Definition effects_00 : list (kind * string) :=
  as_ Import ["braket.tracking"; Tracker] ++
  as_ CostTracking (called Tracker [] :: method (called Tracker []) "start" []).

(* cell 2 *)
Definition jaqcd (name : string) : string := attr "braket.ir.jaqcd" name.
Definition program : string :=
  called (jaqcd "Program")
    [keyword_arg "instructions"
       ("[" ++ commas [ called (jaqcd "H") [keyword_arg "target" "0"];
                        called (jaqcd "CNot") [keyword_arg "control" "0";
                                               keyword_arg "target" "1"] ] ++ "]")].
Definition effects_02 : list (kind * string) :=
  as_ Import ["braket.ir.jaqcd"; jaqcd "CNot"; jaqcd "H"; jaqcd "Program"] ++
  as_ Jaqcd
    [ called (jaqcd "H") [keyword_arg "target" "0"];
      called (jaqcd "CNot") [keyword_arg "control" "0"; keyword_arg "target" "1"];
      program ] ++
  as_ Jaqcd (method program "json" [keyword_arg "indent" "2"]) ++
  [ (Print, print [called (attr program "json") [keyword_arg "indent" "2"]]);
    (Display, display (print [called (attr program "json") [keyword_arg "indent" "2"]])) ].

(* cell 3 *)
Definition effects_03 : list (kind * string) :=
  as_ Import ["boto3"; "json"; "braket.aws"; AwsDevice].

(* cell 4 *)
Definition bell_program : string := Written.program Text.bell_qasm.
Definition effects_04 : list (kind * string) :=
  as_ Import ["braket.ir.openqasm"; OpenQASMProgram] ++
  [ (Device, sv1); (ProgramText, bell_program) ] ++
  as_ Submit [attr sv1 "run"; bell_task].

(* cell 5 *)
Definition bell_file : string := called "open" [quoted "bell.qasm"; quoted "w"].
Definition f : string := attr bell_file "__enter__()".
Definition effects_05 : list (kind * string) :=
  as_ File ([bell_file; f] ++ method f "write" [quoted Text.bell_qasm] ++
            [attr bell_file "__exit__()"]).

(* cells 6, 7, 8 *)
Definition sv1_action : list string :=
  attrs sv1 ["properties"; "action"] ++
  [subscript (path sv1 ["properties"; "action"]) (quoted "braket.ir.openqasm.program")].
Definition sv1_openqasm_action : string :=
  subscript (path sv1 ["properties"; "action"]) (quoted "braket.ir.openqasm.program").
Definition shown_action (a : string) : list (kind * string) :=
  as_ DeviceQuery (sv1_action ++ [attr sv1_openqasm_action a]) ++
  [ (Display, display (attr sv1_openqasm_action a)) ].
Definition effects_06 : list (kind * string) := shown_action "supportedOperations".
Definition effects_07 : list (kind * string) := shown_action "supportedPragmas".
Definition effects_08 : list (kind * string) := shown_action "forbiddenPragmas".

(* cell 10 *)
Definition circuits (name : string) : string := attr "braket.circuits" name.
Definition apply_gate_noise : string :=
  called (attr noisy_ghz3_circ "apply_gate_noise") [noise].
Definition effects_10 : list (kind * string) :=
  as_ Import [ "braket.circuits"; circuits "Circuit"; circuits "Observable";
               circuits "Gate"; circuits "Noise" ] ++
  as_ CircuitBuilding
    ([called Circuit []] ++
     method (called Circuit []) "h" ["0"] ++
     method (called (attr (called Circuit []) "h") ["0"]) "cnot" ["0"; "1"] ++
     method (called (attr (called (attr (called Circuit []) "h") ["0"]) "cnot") ["0"; "1"])
            "cnot" ["1"; "2"] ++
     method Noise "Depolarizing" [keyword_arg "probability" "0.1"] ++
     method noisy_ghz3_circ "apply_gate_noise" [noise]) ++
  [ (Display, display apply_gate_noise) ].

(* cell 11 *)
Definition noisy_ghz3_program : string := Written.program Text.noisy_ghz3_program.
Definition effects_11 : list (kind * string) :=
  [ (Device, dm1) ] ++
  as_ Submit [attr dm1 "run"; noisy_ghz3_circ_task; attr dm1 "run"] ++
  [ (ProgramText, noisy_ghz3_program); (Submit, noisy_ghz3_program_task) ].

(* cell 12 *)
Definition sdk_result : string := result noisy_ghz3_circ_task.
Definition openqasm_result : string := result noisy_ghz3_program_task.
Definition effects_12 : list (kind * string) :=
  as_ Result
    (method noisy_ghz3_circ_task "result" [] ++
     method noisy_ghz3_program_task "result" [] ++
     [ attr sdk_result "measurement_counts";
       attr openqasm_result "measurement_counts" ]) ++
  as_ Print
    [ print [quoted "sdk measurement results:"; attr sdk_result "measurement_counts"];
      print [quoted "openqasm measurement results:";
             attr openqasm_result "measurement_counts"] ] ++
  [ (Display, display (print [quoted "openqasm measurement results:";
                               attr openqasm_result "measurement_counts"])) ].

(* cell 15 *)
Definition unitary_result : string := result unitary_task.
Definition effects_15 : list (kind * string) :=
  [ (Submit, attr dm1 "run");
    (ProgramText, Written.program Text.program_with_unitary);
    (Submit, unitary_task) ] ++
  as_ Result (method unitary_task "result" [] ++
              [attr unitary_result "measurement_counts"]) ++
  [ (Print, print [attr unitary_result "measurement_counts"]);
    (Display, display (print [attr unitary_result "measurement_counts"])) ].

(* cell 17 *)
Definition measured_qubits : string :=
  attr (result ghz_program_with_physical_qubits_task) "measured_qubits".
Definition effects_17 : list (kind * string) :=
  [ (Device, aspen_m1);
    (Submit, attr aspen_m1 "run");
    (ProgramText, Written.program Text.ghz_program_with_physical_qubits);
    (Submit, ghz_program_with_physical_qubits_task) ] ++
  as_ Result (method ghz_program_with_physical_qubits_task "result" [] ++
              [measured_qubits]) ++
  [ (Print, print [quoted "Measured qubits:"; measured_qubits]);
    (Display, display (print [quoted "Measured qubits:"; measured_qubits])) ].

(* cell 19 *)
Definition nativeGateSet : string :=
  path aspen_m1 ["properties"; "paradigm"; "nativeGateSet"].
Definition gate : string := called "next" [called "iter" [nativeGateSet]].
Definition effects_19 : list (kind * string) :=
  [ (DeviceQuery, attr aspen_m1 "name");
    (Print, print [quoted "The native gates for the"; attr aspen_m1 "name";
                   quoted "device are:"]) ] ++
  as_ DeviceQuery (attrs aspen_m1 ["properties"; "paradigm"; "nativeGateSet"] ++
                   [called "iter" [nativeGateSet]]).
Definition effects_19_body : list (kind * string) := [ (Print, print [gate]) ].

(* cell 20 *)
Definition connectivityGraph : string :=
  path aspen_m1 ["properties"; "paradigm"; "connectivity"; "connectivityGraph"].
Definition draw : string :=
  called "networkx.draw_kamada_kawai"
    [ attr aspen_m1 "topology_graph"; keyword_arg "with_labels" "True";
      keyword_arg "font_color" (quoted "white") ].
Definition effects_20 : list (kind * string) :=
  [ (Import, "networkx") ] ++
  as_ DeviceQuery
    (attrs aspen_m1 ["properties"; "paradigm"; "connectivity"; "connectivityGraph"]) ++
  [ (Print, print [connectivityGraph]);
    (Plot, "networkx.draw_kamada_kawai");
    (DeviceQuery, attr aspen_m1 "topology_graph");
    (Plot, draw);
    (Display, display draw) ].

(* cell 21 *)
Definition verbatim_result : string := result verbatim_task.
Definition effects_21 : list (kind * string) :=
  [ (Submit, attr aspen_m1 "run");
    (ProgramText, Written.program Text.program_with_verbatim_box);
    (Submit, verbatim_task) ] ++
  as_ Result
    (method verbatim_task "result" [] ++
     attrs verbatim_result ["additional_metadata"; "rigettiMetadata"; "compiledProgram"]) ++
  [ (Print, print [path verbatim_result
                     ["additional_metadata"; "rigettiMetadata"; "compiledProgram"]]);
    (Display, display (print [path verbatim_result
                                ["additional_metadata"; "rigettiMetadata";
                                 "compiledProgram"]])) ].

(* cell 22 *)
Definition supportedResultTypes : string := attr sv1_openqasm_action "supportedResultTypes".
Definition result_type : string := called "next" [called "iter" [supportedResultTypes]].
Definition effects_22 : list (kind * string) :=
  as_ DeviceQuery (sv1_action ++ [supportedResultTypes; called "iter" [supportedResultTypes]]).
Definition effects_22_body : list (kind * string) := [ (Print, print [result_type]) ].

(* cell 24 *)
Definition bell_result : string := result bell_result_types_task.
Definition effects_24 : list (kind * string) :=
  [ (Submit, attr sv1 "run");
    (ProgramText, Written.program Text.bell_with_result_type);
    (Submit, bell_result_types_task) ] ++
  as_ Result (method bell_result_types_task "result" [] ++ [attr bell_result "values"]) ++
  [ (Print, print [attr bell_result "values"]);
    (Display, display (print [attr bell_result "values"])) ].

(* cell 26 *)
Definition cost : string :=
  (called (attr t "qpu_tasks_cost") [] ++ " + " ++
   called (attr t "simulator_tasks_cost") [])%string.
Definition estimate : string :=
  ("f" ++ quoted ("Estimated cost to run this example: {" ++ cost ++ ":.2f} USD"))%string.
Definition effects_26 : list (kind * string) :=
  [ (Print, print [quoted "Task Summary"]) ] ++
  as_ CostTracking (method t "quantum_tasks_statistics" []) ++
  [ (Print, print [called (attr t "quantum_tasks_statistics") []]);
    (Print, print [quoted charges_note]) ] ++
  as_ CostTracking
    (method t "qpu_tasks_cost" [] ++ method t "simulator_tasks_cost" [] ++
     [cost; ("{" ++ cost ++ ":.2f}")%string]) ++
  [ (Print, print [estimate]); (Display, display (print [estimate])) ].

(** The cells that only bind a program text to a name (1, 9, 13, 14, 16,
    18, 23, 25) perform no operation. *)
Definition before_the_loops : list (kind * string) :=
  effects_00 ++ effects_02 ++ effects_03 ++ effects_04 ++ effects_05 ++
  effects_06 ++ effects_07 ++ effects_08 ++ effects_10 ++ effects_11 ++
  effects_12 ++ effects_15 ++ effects_17 ++ effects_19.
Definition between_the_loops : list (kind * string) :=
  effects_20 ++ effects_21 ++ effects_22.
Definition after_the_loops : list (kind * string) := effects_24 ++ effects_26.

(** All operations of the notebook, the body of each loop once. *)
Definition effects : list (kind * string) :=
  before_the_loops ++ effects_19_body ++ between_the_loops ++ effects_22_body ++
  after_the_loops.

(** The operations of a run that completes, when the first loop has [n1]
    elements and the second [n2]. *)
Definition unrolled (n1 n2 : nat) : list (kind * string) :=
  before_the_loops ++ concat (repeat effects_19_body n1) ++
  between_the_loops ++ concat (repeat effects_22_body n2) ++ after_the_loops.

End Effects.

(** The kind of an operation: that of its entry in the table. *)
Definition kind_of (o : op) : kind :=
  match List.find (fun ks => String.eqb (snd ks) (show_op o)) Effects.effects with
  | Some (k, _) => k
  | None => Other
  end.

Definition kind_in (ks : list kind) (o : op) : bool :=
  existsb (fun k => match k, kind_of o with
                    | Import, Import | ProgramText, ProgramText | Device, Device
                    | Submit, Submit | Result, Result | Print, Print
                    | Display, Display | File, File | DeviceQuery, DeviceQuery
                    | CostTracking, CostTracking | Jaqcd, Jaqcd
                    | CircuitBuilding, CircuitBuilding | Plot, Plot => true
                    | _, _ => false
                    end) ks.

(** The interfaces C5 lists: program text, device submission, results and
    their display; imports are taken to belong to them. *)
Definition listed : list kind :=
  [Import; ProgramText; Device; Submit; Result; Print; Display].

Definition unlisted : list kind :=
  [File; DeviceQuery; CostTracking; Jaqcd; CircuitBuilding; Plot].

(** The operations of an event are of the kinds [ks]. *)
Definition touches_only (ks : list kind) (e : event) : bool :=
  match e with
  | Perform _ o => kind_in ks o
  | Bind _ _ => true
  end.

(** C5, as stated, fails: operation 26 of the recorded run is
    [open("bell.qasm", "w")], the creation of a file. *)
Lemma C5_file_written :
  ~ (forall e, In e (trace recorded) -> touches_only listed e = true).
Proof.
  intros H.
  assert (HIn : In (Perform 26 (recorded_op 26)) (trace recorded))
    by performed_in_recorded.
  apply H in HIn. vm_compute in HIn. discriminate HIn.
Qed.

(** An operation, written out. *)
Definition written (e : event) : option string :=
  match e with
  | Perform _ o => Some (show_op o)
  | Bind _ _ => None
  end.

Lemma written_of_loop x k vs s :
  Forall (fun v => show v = s) vs ->
  omap written (loop_events x k vs) = repeat (Effects.print [s]) (length vs).
Proof.
  intros H. revert k. induction H as [|v vs Hv _ IH]; intros k; [reflexivity|].
  cbn [loop_events length repeat].
  change (omap written (Bind x v :: ?l)) with (omap written l).
  change (omap written (Perform k ?o :: ?l)) with (show_op o :: omap written l).
  rewrite IH. f_equal. cbn [show_op map app]. by rewrite Hv.
Qed.

Lemma repeated_body (k : kind) (s : string) n :
  map snd (concat (repeat [(k, s)] n)) = repeat s n.
Proof. induction n as [|n IH]; [reflexivity|]. cbn. by rewrite IH. Qed.

Lemma written_of_calm_events n1 n2 :
  omap written (calm_events n1 n2) = map snd (Effects.unrolled n1 n2).
Proof.
  rewrite omap_calm_events.
  rewrite (written_of_loop "gate" _ _ Effects.gate),
          (written_of_loop "iter" _ _ Effects.result_type).
  2:{ apply Forall_forall. intros v Hv. unfold items_of in Hv.
      apply list_elem_of_fmap in Hv as (j & -> & _). vm_compute. reflexivity. }
  2:{ apply Forall_forall. intros v Hv. unfold items_of in Hv.
      apply list_elem_of_fmap in Hv as (j & -> & _). vm_compute. reflexivity. }
  assert (HA : omap written (evA ++ [Perform kA (OIter vA)]) =
               map snd Effects.before_the_loops) by (vm_compute; reflexivity).
  assert (HB : forall m, omap written (evB m ++ [Perform (kB m) (OIter (vB m))]) =
                         map snd Effects.between_the_loops)
    by (intros; vm_compute; reflexivity).
  assert (HC : forall m n, omap written (evC m n) = map snd Effects.after_the_loops)
    by (intros; vm_compute; reflexivity).
  rewrite HA, HB, HC. unfold Effects.unrolled, items_of.
  rewrite !map_app, !length_map, !length_seq.
  unfold Effects.effects_19_body, Effects.effects_22_body.
  by rewrite !repeated_body.
Qed.

(** An operation other than leaving a [with] block is in the table, with
    a kind. *)
Definition in_table (e : event) : bool :=
  match e with
  | Perform _ (OExit _) => true
  | Perform _ o =>
      existsb (String.eqb (show_op o)) (map snd Effects.effects) &&
      kind_in (listed ++ unlisted) o
  | Bind _ _ => true
  end.

Lemma all_in_table w e : In e (trace w) -> in_table e = true.
Proof. revert w e. evaluate_checks. Qed.

(** What is entered is the file [bell.qasm], opened for writing. *)
Definition enters_file (e : event) : bool :=
  match e with
  | Perform _ (OEnter cm) => String.eqb (show cm) Effects.bell_file
  | _ => true
  end.

Lemma only_file_entered w e : In e (trace w) -> enters_file e = true.
Proof. revert w e. evaluate_checks. Qed.

Lemma only_file_left w j cm :
  In (Perform j (OExit cm)) (trace w) -> show cm = Effects.bell_file.
Proof.
  intros HIn. apply in_split in HIn as (a & b & Heq).
  destruct (Entering.opens_run_cells w cells init a j cm b Heq) as [k Hk].
  assert (HIn : In (Perform k (OEnter cm)) (trace w)).
  { rewrite Heq. apply in_or_app. by left. }
  apply only_file_entered in HIn. by apply String.eqb_eq.
Qed.

Lemma in_by_eqb s (l : list string) : existsb (String.eqb s) l = true -> In s l.
Proof.
  intros H. apply existsb_exists in H as (s' & Hs & Heq).
  apply String.eqb_eq in Heq. by subst s'.
Qed.

(** C5, amended: every operation a run performs on the outside is one of
    the operations of the table [Effects.effects], the operations of the
    cells written out, and a run that completes performs them all, in the
    order of the table, the body of each loop once for each element.  They
    are of the kinds C5 lists (imports, building an [OpenQASMProgram],
    creating a device, [run] calls, reading results, [print] and display)
    and of six more: writing the file [bell.qasm], queries of device
    properties, calls of the cost tracker, building a JAQCD program,
    building an SDK circuit, and drawing the topology graph. *)
Theorem C5_effects w :
  (forall i o, In (Perform i o) (trace w) ->
     In (show_op o) (map snd Effects.effects) /\
     kind_in (listed ++ unlisted) o = true) /\
  (result w = Ok tt ->
   omap written (trace w) =
   map snd (Effects.unrolled (first_count w) (second_count w))).
Proof.
  split.
  - intros i o HIn.
    assert (Hexit : forall cm, o = OExit cm ->
              In (show_op o) (map snd Effects.effects) /\
              kind_in (listed ++ unlisted) o = true).
    { intros cm ->. apply only_file_left in HIn.
      unfold kind_in, kind_of. cbn [show_op]. rewrite HIn. split.
      - apply in_by_eqb. vm_compute. reflexivity.
      - vm_compute. reflexivity. }
    apply all_in_table in HIn.
    destruct o; try (by eapply Hexit); cbn [in_table] in HIn;
      apply andb_prop in HIn as [H1 H2]; (split; [|exact H2]);
      by apply in_by_eqb.
  - intros Hr. destruct (runs w) as [[_ Ht]|(i & what & _ & _ & Hr' & _)];
      [|rewrite Hr in Hr'; discriminate Hr'].
    rewrite Ht. apply written_of_calm_events.
Qed.

Lemma C5_effects_witness :
  (In (show_op (recorded_op 26)) (map snd Effects.effects) /\
   kind_in (listed ++ unlisted) (recorded_op 26) = true) /\
  omap written (trace recorded) = map snd (Effects.unrolled 5 5).
Proof.
  split.
  - apply (proj1 (C5_effects recorded) 26). performed_in_recorded.
  - apply (proj2 (C5_effects recorded)). vm_compute. reflexivity.
Defined.

(** ** C7: one call at a time, several tasks at a time *)

Definition is_submit (e : event) : bool :=
  match e with
  | Perform _ o => bool_decide (is_Some (run_call o))
  | Bind _ _ => false
  end.

Definition is_fetch (e : event) : bool :=
  match e with
  | Perform _ o => bool_decide (is_Some (fetch_of o))
  | Bind _ _ => false
  end.

Definition concurrency_words : list string :=
  [ "async"; "await"; "yield"; "threading"; "Thread"; "asyncio";
    "multiprocessing"; "concurrent"; "futures"; "Lock"; "RLock"; "Semaphore";
    "cancel"; "global"; "nonlocal" ].

(** Where operation [i] is in a list of events. *)
Fixpoint position (i : nat) (t : list event) : nat :=
  match t with
  | [] => 0
  | Perform j _ :: t' => if Nat.eqb i j then 0 else S (position i t')
  | _ :: t' => S (position i t')
  end.

(** What an event does to a task: [run] creates the task whose handle is
    the result of the call; [result()] on the handle that operation [j]
    returned awaits and fetches task [j]. *)
Inductive task_event : Type :=
| Created (i : nat)
| Awaited (j : nat).

Definition task_event_of (e : event) : option task_event :=
  match e with
  | Perform i o =>
      if bool_decide (is_Some (run_call o)) then Some (Created i)
      else match fetch_of o with
           | Some (VRet j _) => Some (Awaited j)
           | _ => None
           end
  | Bind _ _ => None
  end.

Definition after_task_event (tasks : list nat) (te : task_event) : list nat :=
  match te with
  | Created i => tasks ++ [i]
  | Awaited j => List.filter (fun i => negb (Nat.eqb i j)) tasks
  end.

(** The tasks created by the events [t] that none of them has fetched, in
    the order of their creation: the tasks outstanding after [t]. *)
Definition unfetched (t : list event) : list nat :=
  fold_left after_task_event (omap task_event_of t) [].

(** The largest number of tasks outstanding while [tes] happen. *)
Fixpoint peak (tes : list task_event) (tasks : list nat) : nat :=
  match tes with
  | [] => length tasks
  | te :: tes' => Nat.max (length tasks) (peak tes' (after_task_event tasks te))
  end.

Lemma peak_bounds tes q tasks :
  q `prefix_of` tes -> length (fold_left after_task_event q tasks) <= peak tes tasks.
Proof.
  revert q tasks. induction tes as [|te tes IH]; intros q tasks [r Hq].
  - destruct q; [cbn; lia|discriminate Hq].
  - destruct q as [|te' q]; cbn [fold_left peak]; [lia|].
    cbn [app] in Hq. injection Hq as -> ->.
    etransitivity; [apply IH; by exists r|lia].
Qed.

Lemma peak_app tes1 tes2 tasks :
  peak (tes1 ++ tes2) tasks =
  Nat.max (peak tes1 tasks) (peak tes2 (fold_left after_task_event tes1 tasks)).
Proof.
  revert tasks. induction tes1 as [|te tes1 IH]; intros tasks; cbn [app peak fold_left].
  - destruct tes2; cbn [peak]; lia.
  - rewrite IH. lia.
Qed.

(** A task that is created and then fetched. *)
Lemma fetched_at_once tasks i :
  ~ In i tasks ->
  fold_left after_task_event [Created i; Awaited i] tasks = tasks /\
  peak [Created i; Awaited i] tasks = S (length tasks).
Proof.
  intros Hi.
  assert (H : List.filter (fun k => negb (Nat.eqb k i)) (tasks ++ [i]) = tasks).
  { rewrite List.filter_app. cbn [List.filter]. rewrite Nat.eqb_refl. cbn [negb].
    rewrite app_nil_r. apply forallb_filter_id. apply forallb_forall.
    intros k Hk. apply negb_true_iff, Nat.eqb_neq. intros ->. by destruct Hi. }
  cbn [fold_left peak after_task_event]. rewrite H, length_app. cbn [length].
  split; [reflexivity|lia].
Qed.

Lemma no_task_in_loop x k vs : omap task_event_of (loop_events x k vs) = [].
Proof.
  revert k. induction vs as [|v vs IH]; intros k; [reflexivity|].
  cbn [loop_events]. exact (IH (S k)).
Qed.

(** The task events of the run in which nothing raises. *)
Definition calm_tasks (m n : nat) : list task_event :=
  [ Created 25; Created 65; Created 68; Awaited 65; Awaited 68;
    Created 80; Awaited 80; Created 89; Awaited 89 ] ++
  [ Created (12 + m); Awaited (12 + m) ] ++
  [ Created (2 + n); Awaited (2 + n) ].

Lemma tasks_of_calm_events n1 n2 :
  omap task_event_of (calm_events n1 n2) =
  calm_tasks (n1 + S kA) (n2 + S (kB (n1 + S kA))).
Proof.
  rewrite omap_calm_events, !no_task_in_loop.
  assert (HA : omap task_event_of (evA ++ [Perform kA (OIter vA)]) =
               firstn 9 (calm_tasks 0 0)) by (vm_compute; reflexivity).
  assert (HB : forall m, omap task_event_of
                           (evB m ++ [Perform (kB m) (OIter (vB m))]) =
                         [Created (12 + m); Awaited (12 + m)])
    by (intros; vm_compute; reflexivity).
  assert (HC : forall m n, omap task_event_of (evC m n) =
                           [Created (2 + n); Awaited (2 + n)])
    by (intros; vm_compute; reflexivity).
  rewrite HA, HB, HC. reflexivity.
Qed.

Lemma calm_tasks_unfetched m n :
  25 < m -> 25 < n ->
  fold_left after_task_event (calm_tasks m n) [] = [25] /\
  peak (calm_tasks m n) [] = 3.
Proof.
  intros Hm Hn. unfold calm_tasks.
  assert (H25 : forall k, 25 < k -> ~ In k [25]) by (intros k Hk [H|[]]; lia).
  destruct (fetched_at_once [25] (12 + m) (H25 (12 + m) ltac:(lia))) as [F1 P1].
  destruct (fetched_at_once [25] (2 + n) (H25 (2 + n) ltac:(lia))) as [F2 P2].
  rewrite !fold_left_app, !peak_app.
  change (fold_left after_task_event
            [Created 25; Created 65; Created 68; Awaited 65; Awaited 68;
             Created 80; Awaited 80; Created 89; Awaited 89] []) with [25].
  rewrite F1, F2, P1, P2. split; [reflexivity|].
  vm_compute. reflexivity.
Qed.

Lemma counts_are_large w :
  25 < first_count w + S kA /\
  25 < second_count w + S (kB (first_count w + S kA)).
Proof.
  assert (HA : kA = 100) by (vm_compute; reflexivity).
  assert (HB : forall m, m <= kB m).
  { intros m. vm_compute. lia. }
  pose proof (HB (first_count w + S kA)). lia.
Qed.

Lemma omap_prefix {X} (f : event -> option X) (a t : list event) :
  a `prefix_of` t -> omap f a `prefix_of` omap f t.
Proof. intros [b ->]. rewrite omap_app. by apply prefix_app_r. Qed.

Lemma unfetched_bounded w a b :
  trace w = a ++ b -> length (unfetched a) <= 3.
Proof.
  intros Heq. destruct (counts_are_large w) as [Hm Hn].
  destruct (calm_tasks_unfetched _ _ Hm Hn) as [_ <-].
  apply peak_bounds. rewrite <- tasks_of_calm_events.
  etransitivity; [|apply (omap_trace_prefix task_event_of w); reflexivity].
  apply omap_prefix. by exists b.
Qed.

Lemma unfetched_at_end w :
  result w = Ok tt -> unfetched (trace w) = [25].
Proof.
  intros Hr. destruct (runs w) as [[_ Ht]|(i & what & _ & _ & Hr' & _)];
    [|rewrite Hr in Hr'; discriminate Hr'].
  unfold unfetched. rewrite Ht, tasks_of_calm_events.
  destruct (counts_are_large w) as [Hm Hn].
  by destruct (calm_tasks_unfetched _ _ Hm Hn) as [-> _].
Qed.

(** The events of the recorded run up to the third [run] call. *)
Definition three_submitted : list event := firstn 93 evA.

(** The operation with number [i] among the events [t], written out. *)
Definition written_at (t : list event) (i : nat) : option string :=
  match List.find (fun e => match e with
                            | Perform j _ => Nat.eqb i j
                            | Bind _ _ => false
                            end) t with
  | Some (Perform _ o) => Some (show_op o)
  | _ => None
  end.

Lemma three_unfetched w :
  result w = Ok tt ->
  exists b, trace w = three_submitted ++ b.
Proof.
  intros Hr. destruct (runs w) as [[_ Ht]|(i & what & _ & _ & Hr' & _)];
    [|rewrite Hr in Hr'; discriminate Hr'].
  rewrite Ht. unfold calm_events, three_submitted.
  match goal with
  | |- exists b, evA ++ ?R = _ => exists (skipn 93 evA ++ R)
  end.
  rewrite (List.app_assoc (firstn 93 evA)), firstn_skipn. reflexivity.
Qed.

(** C7, as stated, fails: when the recorded run has performed operation 68,
    [dm1.run(OpenQASMProgram(source=noisy_ghz3_program), shots = 10)], three
    tasks have been created and none of them has been fetched. *)
Lemma C7_three_outstanding :
  ~ (forall a b, trace recorded = a ++ b -> length (unfetched a) <= 1).
Proof.
  intros H.
  specialize (H (firstn (S (position 68 (trace recorded))) (trace recorded))
                (skipn (S (position 68 (trace recorded))) (trace recorded))
                (eq_sym (firstn_skipn _ _))).
  vm_compute in H. lia.
Qed.

(** C7, amended: in every run the operations are performed one after the
    other, numbered 0, 1, 2, ... in the order of the events, and the source
    uses no thread, coroutine, lock or cancellation construct, so that no
    state is shared between concurrent activities: there is one thread of
    control.  Tasks are not awaited one at a time: at no point of a run
    are more than three tasks created and not yet fetched; in a run that
    completes three are, once the tasks of [bell_task] (operation 25),
    [noisy_ghz3_circ_task] (65) and [noisy_ghz3_program_task] (68) are
    created, and one is at the end: the task of [bell_task], on which
    [result()] is never called. *)
Theorem C7_sequential_calls w :
  numbers (trace w) = seq 0 (length (numbers (trace w))) /\
  (forall src word,
     In src Source.sources -> In word (Lex.words src) ->
     ~ In word concurrency_words) /\
  (forall a b, trace w = a ++ b -> length (unfetched a) <= 3) /\
  (result w = Ok tt ->
   (exists a b,
      trace w = a ++ b /\ unfetched a = [25; 65; 68] /\
      map (written_at a) [25; 65; 68] =
        [ Some Written.bell_task; Some Written.noisy_ghz3_circ_task;
          Some Written.noisy_ghz3_program_task ]) /\
   unfetched (trace w) = [25]).
Proof.
  split; [apply run_cells_numbered|].
  split; [apply free_of_sound; vm_compute; reflexivity|].
  split; [apply unfetched_bounded|].
  intros Hr. split; [|by apply unfetched_at_end].
  destruct (three_unfetched w Hr) as [b Hb].
  exists three_submitted, b. split; [exact Hb|].
  split; vm_compute; reflexivity.
Qed.

Lemma C7_sequential_calls_witness :
  length (unfetched (firstn 93 (trace recorded))) <= 3 /\
  unfetched (trace recorded) = [25].
Proof.
  split.
  - apply (proj1 (proj2 (proj2 (C7_sequential_calls recorded)))
             _ (skipn 93 (trace recorded))).
    symmetry. apply firstn_skipn.
  - apply (proj2 (proj2 (proj2 (C7_sequential_calls recorded)))).
    vm_compute. reflexivity.
Defined.

(** ** C8: what the cells are made of *)









(** *** No cyclic structures

    What an object may refer to: the values it was made from, and the
    values that were passed to its methods.  Strings and numbers refer to
    nothing. *)






















(** ** Reading the program texts *)

(** [contains sub s]: [sub] occurs in [s]. *)
Fixpoint contains (sub s : string) : bool :=
  String.prefix sub s ||
  match s with
  | EmptyString => false
  | String _ s' => contains sub s'
  end.

Definition digit (c : ascii) : option nat :=
  let n := nat_of_ascii c in
  if Nat.leb 48 n && Nat.leb n 57 then Some (n - 48) else None.

(** The decimal number a string starts with. *)
Fixpoint leading_number_from (acc : option nat) (s : string) : option nat :=
  match s with
  | EmptyString => acc
  | String c s' =>
      match digit c with
      | Some d => leading_number_from (Some (10 * default 0 acc + d)) s'
      | None => acc
      end
  end.

Definition leading_number (s : string) : option nat := leading_number_from None s.

(** What follows the first occurrence of [pat]. *)
Fixpoint after (pat s : string) : option string :=
  if String.prefix pat s then Some (String.substring (String.length pat)
                                      (String.length s - String.length pat) s)
  else match s with
       | EmptyString => None
       | String _ s' => after pat s'
       end.

(** The size of the register declared by [qubit[n] q;]. *)
Definition declared_qubits (s : string) : option nat :=
  after "qubit[" s ≫= leading_number.

(** The indices [i] of the references [q[i]] to the register [q]: the
    occurrences of [q[] that do not continue a word. *)
Fixpoint register_refs_from (in_word : bool) (s : string) : list nat :=
  match s with
  | EmptyString => []
  | String c s' =>
      (if negb in_word && String.prefix "q[" s then
         match after "q[" s ≫= leading_number with
         | Some i => [i]
         | None => []
         end
       else []) ++ register_refs_from (Lex.is_word_char c) s'
  end.

Definition register_refs (s : string) : list nat := register_refs_from false s.

(** Every reference to the register is inside the declared register. *)
Definition refs_in_range (s : string) : bool :=
  match declared_qubits s with
  | Some n => forallb (fun i => Nat.ltb i n) (register_refs s)
  | None => match register_refs s with [] => true | _ => false end
  end.

(** ** C6: the five vendor extensions *)

Inductive feature : Type :=
| NoiseSimulation | UnitaryInjection | QubitRewiring | VerbatimCompilation
| ResultTypes.

(** The directive that shows a feature: a braket pragma, or a physical
    qubit for rewiring. *)
Definition directive (f : feature) : string :=
  match f with
  | NoiseSimulation => "#pragma braket noise"
  | UnitaryInjection => "#pragma braket unitary"
  | QubitRewiring => "$0"
  | VerbatimCompilation => "#pragma braket verbatim"
  | ResultTypes => "#pragma braket result"
  end.

(** C6: for each of the five features, a cell assigns to a name a program
    text that contains the directive of the feature. *)
Theorem C6_features_shown (f : feature) :
  exists x s, In (x, s) (string_assignments cells) /\ contains (directive f) s = true.
Proof.
  destruct f.
  - exists "noisy_ghz3_program", Text.noisy_ghz3_program.
    split; [vm_compute; tauto|vm_compute; reflexivity].
  - exists "program_with_unitary", Text.program_with_unitary.
    split; [vm_compute; tauto|vm_compute; reflexivity].
  - exists "ghz_program_with_physical_qubits", Text.ghz_program_with_physical_qubits.
    split; [vm_compute; tauto|vm_compute; reflexivity].
  - exists "program_with_verbatim_box", Text.program_with_verbatim_box.
    split; [vm_compute; tauto|vm_compute; reflexivity].
  - exists "bell_with_result_type", Text.bell_with_result_type.
    split; [vm_compute; tauto|vm_compute; reflexivity].
Qed.

(** ** C9: the Kraus example *)

Definition kraus_unused (e : event) : bool :=
  match e with
  | Perform _ (OExit _) => true
  | Perform _ o =>
      negb (existsb (fun v => existsb (String.eqb Text.noisy_program_with_kraus_operators)
                                      (strings_of v)) (operands o))
  | Bind _ _ => true
  end.

Lemma kraus_text_unused w e : In e (trace w) -> kraus_unused e = true.
Proof. revert w e. evaluate_checks. Qed.

Lemma kraus_text_not_submitted w e :
  In e (trace w) ->
  negb (at_step (Text Text.noisy_program_with_kraus_operators) Submitted e) = true.
Proof. revert w e. evaluate_checks. Qed.

(** C9, as stated, fails in one respect: the Kraus example is not a payload
    the notebook submits; no [run] call of the recorded run carries it. *)
Lemma C9_kraus_example_not_submitted :
  ~ (exists e, In e (trace recorded) /\
               at_step (Text Text.noisy_program_with_kraus_operators) Submitted e = true).
Proof.
  intros (e & HIn & He). apply kraus_text_not_submitted in HIn.
  rewrite He in HIn. discriminate HIn.
Qed.

(** C9, amended: the text [noisy_program_with_kraus_operators] declares a
    register of two qubits, [qubit[2] q], and applies [cnot q[1], q[2]]: it
    refers to [q[2]], outside the register.  The notebook only assigns the
    text to a name: in no run is it an operand of an operation, so it is
    never wrapped, written or submitted. *)
Theorem C9_kraus_example w :
  declared_qubits Text.noisy_program_with_kraus_operators = Some 2 /\
  contains "cnot q[1], q[2];" Text.noisy_program_with_kraus_operators = true /\
  In 2 (register_refs Text.noisy_program_with_kraus_operators) /\
  refs_in_range Text.noisy_program_with_kraus_operators = false /\
  In ("noisy_program_with_kraus_operators", Text.noisy_program_with_kraus_operators)
     (string_assignments cells) /\
  (forall i o v,
     In (Perform i o) (trace w) -> In v (operands o) ->
     In Text.noisy_program_with_kraus_operators (strings_of v) ->
     exists cm, o = OExit cm) /\
  (forall e, In e (trace w) ->
     at_step (Text Text.noisy_program_with_kraus_operators) Submitted e = false).
Proof.
  split; [vm_compute; reflexivity|].
  split; [vm_compute; reflexivity|].
  split; [vm_compute; tauto|].
  split; [vm_compute; reflexivity|].
  split; [vm_compute; tauto|].
  split.
  - intros i o v HIn Hv Hs. apply kraus_text_unused in HIn.
    assert (Hex : existsb (fun v => existsb (String.eqb Text.noisy_program_with_kraus_operators)
                                            (strings_of v)) (operands o) = true).
    { apply existsb_exists. exists v. split; [exact Hv|].
      apply existsb_exists. eexists. split; [exact Hs|apply String.eqb_refl]. }
    destruct o; try (unfold kraus_unused in HIn; rewrite Hex in HIn; discriminate HIn).
    by eexists.
  - intros e He. apply kraus_text_not_submitted in He. by apply negb_true_iff in He.
Qed.

(** ** C10: the noisy GHZ program, in OpenQASM and with the SDK *)

Inductive instruction : Type :=
| H (q : nat)
| CNot (control target : nat)
| Depolarizing (probability : string) (q : nat).

(** The lines of a text. *)
Fixpoint lines_from (cur : string) (s : string) : list string :=
  match s with
  | EmptyString => [cur]
  | String c s' =>
      if Ascii.eqb c (ascii_of_nat 10) then cur :: lines_from EmptyString s'
      else lines_from (cur ++ String c EmptyString)%string s'
  end.

Definition lines_of (s : string) : list string := lines_from EmptyString s.

(** The instruction a line of the program stands for: one of
    [h q[i];], [cnot q[i], q[j];] and
    [#pragma braket noise depolarizing(p) q[i]]; declarations, the
    measurement, comments and empty lines stand for none. *)
Definition instruction_of (line : string) : option instruction :=
  if String.prefix "//" line then None
  else
    match Lex.split_words line with
    | [g; r; i] =>
        if String.eqb g "h" && String.eqb r "q"
        then H <$> leading_number i else None
    | [g; r1; i; r2; j] =>
        if String.eqb g "cnot" && String.eqb r1 "q" && String.eqb r2 "q"
        then i' ← leading_number i; j' ← leading_number j; Some (CNot i' j')
        else None
    | [p; b; n; d; whole; frac; r; i] =>
        if String.eqb p "pragma" && String.eqb b "braket" && String.eqb n "noise" &&
           String.eqb d "depolarizing" && String.eqb r "q"
        then Depolarizing (whole ++ "." ++ frac)%string <$> leading_number i
        else None
    | _ => None
    end.

Definition qasm_instructions (text : string) : list instruction :=
  omap instruction_of (lines_of text).

(** The gates of a circuit built by a chain of SDK calls:
    [Circuit()], [.h(q)], [.cnot(c, t)]. *)
Fixpoint circuit_gates (e : expr) : option (list instruction) :=
  match e with
  | ECall (EName c) [] [] => if String.eqb c "Circuit" then Some [] else None
  | ECall (EAttr e' m) args [] =>
      gs ← circuit_gates e';
      match args with
      | [EInt q] =>
          if String.eqb m "h" then Some (gs ++ [H (Z.to_nat q)]) else None
      | [EInt c; EInt t] =>
          if String.eqb m "cnot" then Some (gs ++ [CNot (Z.to_nat c) (Z.to_nat t)])
          else None
      | _ => None
      end
  | _ => None
  end.

Definition qubits_of (g : instruction) : list nat :=
  match g with
  | H q | Depolarizing _ q => [q]
  | CNot c t => [c; t]
  end.

(** Modelled from the recorded output of the cell: what
    [circ.apply_gate_noise(Noise.Depolarizing(probability=p))] of the SDK
    makes of a circuit, a noise instruction on each qubit of each gate,
    after the gate. *)
Definition apply_gate_noise (p : string) (gs : list instruction) : list instruction :=
  flat_map (fun g => g :: map (Depolarizing p) (qubits_of g)) gs.

(** The expression assigned to [noisy_ghz3_circ] in cell 10. *)
Definition noisy_ghz3_circ_expr : expr :=
  method (method (method (call "Circuit" [] []) "h" [EInt 0] [])
                 "cnot" [EInt 0; EInt 1] [])
         "cnot" [EInt 1; EInt 2] [].

(** The value of the last expression of cell 10, as saved with the
    notebook: [Circuit('instructions': [Instruction('operator': H(..),
    'target': QubitSet([Qubit(0)])), ...])]. *)
Definition noisy_ghz3_circ_output : list instruction :=
  [ H 0; Depolarizing "0.1" 0;
    CNot 0 1; Depolarizing "0.1" 0; Depolarizing "0.1" 1;
    CNot 1 2; Depolarizing "0.1" 1; Depolarizing "0.1" 2 ].

Lemma noisy_ghz3_circ_assigned :
  In (SAssign "noisy_ghz3_circ" noisy_ghz3_circ_expr) cell_10.
Proof. right. left. reflexivity. Qed.

Lemma noisy_ghz3_circ_modelled :
  apply_gate_noise "0.1" <$> circuit_gates noisy_ghz3_circ_expr =
  Some noisy_ghz3_circ_output.
Proof. vm_compute. reflexivity. Qed.

(** C10 is what the notebook says of the two programs ("we inserted the
    depolarizing noise channel ... after each gate", "[noisy_ghz3_program]
    is equivalent to the following program in the Braket SDK"), and the
    program text does not keep it: after [cnot q[1], q[2]] it puts the
    noise on [q[0]] and [q[1]], where the SDK circuit has it on qubits 1
    and 2, the qubits of the gate. *)
Theorem C10_programs_differ :
  qasm_instructions Text.noisy_ghz3_program =
    [ H 0; Depolarizing "0.1" 0;
      CNot 0 1; Depolarizing "0.1" 0; Depolarizing "0.1" 1;
      CNot 1 2; Depolarizing "0.1" 0; Depolarizing "0.1" 1 ] /\
  firstn 6 (qasm_instructions Text.noisy_ghz3_program) = firstn 6 noisy_ghz3_circ_output /\
  nth_error (qasm_instructions Text.noisy_ghz3_program) 6 = Some (Depolarizing "0.1" 0) /\
  nth_error noisy_ghz3_circ_output 6 = Some (Depolarizing "0.1" 1) /\
  nth_error (qasm_instructions Text.noisy_ghz3_program) 7 = Some (Depolarizing "0.1" 1) /\
  nth_error noisy_ghz3_circ_output 7 = Some (Depolarizing "0.1" 2) /\
  qasm_instructions Text.noisy_ghz3_program <> noisy_ghz3_circ_output.
Proof.
  repeat split; try (vm_compute; reflexivity).
  intros Heq. apply (f_equal (fun l => nth_error l 6)) in Heq.
  vm_compute in Heq. discriminate Heq.
Qed.

Lemma C9_kraus_example_witness :
  at_step (Text Text.noisy_program_with_kraus_operators) Submitted
          (Perform 25 (recorded_op 25)) = false.
Proof.
  apply (proj2 (proj2 (proj2 (proj2 (proj2 (proj2 (C9_kraus_example recorded))))))).
  performed_in_recorded.
Defined.

(** * Further properties *)

(** ** A run stops at the first error

    Once an operation has raised, the only operations still performed are
    the [__exit__] calls of the [with] blocks being left, and the run ends
    in an error. *)

Module Halting.

Definition is_err {A} (r : outcome A) : Prop :=
  match r with
  | Ok _ => False
  | Err _ => True
  end.

Definition is_exit_op (o : op) : Prop :=
  match o with
  | OExit _ => True
  | _ => False
  end.

Section Halts.

Variable w : world.

Definition failing (i : nat) : Prop := is_Some (raises w i).

Definition halts {A} (m : M A) : Prop :=
  forall st,
    match m st with
    | (r, st', ev) =>
        clock st <= clock st' /\
        (forall j o, In (Perform j o) ev -> clock st <= j < clock st') /\
        (forall i, clock st <= i < clock st' -> failing i -> is_err r) /\
        (forall j o i, In (Perform j o) ev -> clock st <= i < j -> failing i ->
                       is_exit_op o)
    end.

Lemma halts_ret {A} (a : A) : halts (ret a).
Proof.
  intros st. cbn. split; [lia|]. split; [intros ? ? []|].
  split; [intros; lia|intros ? ? ? []].
Qed.

Lemma halts_pure {A} (m : M A) :
  (forall st, exists r, m st = (r, st, []) ) -> halts m.
Proof.
  intros H st. destruct (H st) as [r ->]. split; [lia|].
  split; [intros ? ? []|]. split; [intros; lia|intros ? ? ? []].
Qed.

Lemma halts_bind {A B} (m : M A) (f : A -> M B) :
  halts m -> (forall a, halts (f a)) -> halts (bind m f).
Proof.
  intros Hm Hf st. unfold bind. specialize (Hm st).
  destruct (m st) as [[[a|e] st1] ev1]; [|exact Hm].
  destruct Hm as (H0 & H1 & H2 & H3). specialize (Hf a st1).
  destruct (f a st1) as [[r st2] ev2]. destruct Hf as (G0 & G1 & G2 & G3).
  assert (Hno : forall i, clock st <= i < clock st1 -> ~ failing i).
  { intros i Hi Hfail. exact (H2 i Hi Hfail). }
  split; [lia|]. split; [|split].
  - intros j o Hj. apply in_app_or in Hj as [Hj|Hj].
    + apply H1 in Hj. lia.
    + apply G1 in Hj. lia.
  - intros i Hi Hfail. destruct (Nat.lt_ge_cases i (clock st1)) as [Hlt|Hge].
    + destruct (Hno i (conj (proj1 Hi) Hlt) Hfail).
    + apply (G2 i); [lia|exact Hfail].
  - intros j o i Hj Hi Hfail. apply in_app_or in Hj as [Hj|Hj].
    + by apply (H3 j o i).
    + destruct (Nat.lt_ge_cases i (clock st1)) as [Hlt|Hge].
      * destruct (Hno i (conj (proj1 Hi) Hlt) Hfail).
      * apply (G3 j o i Hj); [lia|exact Hfail].
Qed.

Lemma halts_perform o : halts (perform w o).
Proof.
  intros st. unfold perform.
  destruct (raises w (clock st)) as [what|] eqn:E; cbn [clock];
    (split; [lia|]); (split; [intros j o' [Hj|[]]; injection Hj as <- _; lia|]);
    (split; [|intros j o' i [Hj|[]] Hi; injection Hj as <- _; lia]).
  - intros; exact I.
  - intros i Hi [x Hx]. assert (i = clock st) by lia. subst i.
    rewrite E in Hx. discriminate Hx.
Qed.

Lemma halts_iterate v : halts (iterate w v).
Proof.
  intros st. unfold iterate. pose proof (halts_perform (OIter v) st) as H.
  by destruct (perform w (OIter v) st) as [[[a|e] st1] ev1].
Qed.

Lemma halts_finally {A} (m : M A) cm :
  halts m -> halts (finally m (leave w cm)).
Proof.
  intros Hm st. unfold finally, leave, bind, perform, ret. specialize (Hm st).
  destruct (m st) as [[r st1] ev1]. destruct Hm as (H0 & H1 & H2 & H3).
  cbn [clock globals].
  destruct (raises w (clock st1)) as [what|] eqn:E; cbn [clock].
  - split; [lia|]. split; [|split].
    + intros j o Hj. apply in_app_or in Hj as [Hj|[Hj|[]]].
      * apply H1 in Hj. lia.
      * injection Hj as <- _. lia.
    + intros; exact I.
    + intros j o i Hj Hi Hfail. apply in_app_or in Hj as [Hj|[Hj|[]]].
      * by apply (H3 j o i).
      * injection Hj as _ <-. exact I.
  - split; [lia|]. split; [|split].
    + intros j o Hj. rewrite app_nil_r in Hj.
      apply in_app_or in Hj as [Hj|[Hj|[]]].
      * apply H1 in Hj. lia.
      * injection Hj as <- _. lia.
    + intros i Hi Hfail. destruct (Nat.lt_ge_cases i (clock st1)) as [Hlt|Hge].
      * apply (H2 i); [lia|exact Hfail].
      * assert (i = clock st1) by lia. subst i. destruct Hfail as [x Hx].
        rewrite E in Hx. discriminate Hx.
    + intros j o i Hj Hi Hfail. rewrite app_nil_r in Hj.
      apply in_app_or in Hj as [Hj|[Hj|[]]].
      * by apply (H3 j o i).
      * injection Hj as _ <-. exact I.
Qed.

Lemma halts_lookup x : halts (lookup_name x).
Proof.
  apply halts_pure. intros st. unfold lookup_name.
  destruct (globals st !! x); [|destruct (is_builtin x)]; by eexists.
Qed.

Lemma halts_bind_name x v : halts (bind_name x v).
Proof.
  intros st. cbn. split; [lia|]. split; [intros ? ? [H|[]]; discriminate H|].
  split; [intros; lia|intros ? ? ? [H|[]]; discriminate H].
Qed.

Lemma halts_eval_args es :
  Forall (fun e => halts (eval w e)) es -> halts (eval_args w es).
Proof.
  induction 1 as [|e es He _ IH]; cbn [eval_args]; [apply halts_ret|].
  apply halts_bind; [done|intros v].
  apply halts_bind; [done|intros vs; apply halts_ret].
Qed.

Lemma halts_eval_kwargs kes :
  Forall (fun ke => halts (eval w (snd ke))) kes -> halts (eval_kwargs w kes).
Proof.
  induction 1 as [|[k e] kes He _ IH]; cbn [eval_kwargs]; [apply halts_ret|].
  apply halts_bind; [done|intros v].
  apply halts_bind; [done|intros vs; apply halts_ret].
Qed.

Lemma halts_eval e : halts (eval w e).
Proof.
  induction e using expr_induction;
    rewrite ?eval_call, ?eval_list, ?eval_joined; cbn [eval];
    repeat first
      [ apply halts_ret | apply halts_lookup | apply halts_perform
      | assumption
      | by apply halts_eval_args | by apply halts_eval_kwargs
      | apply halts_bind; [|intros ?] ].
Qed.

Lemma halts_import_from m names : halts (import_from w m names).
Proof.
  induction names as [|[n a] names IH]; cbn [import_from]; [apply halts_ret|].
  apply halts_bind; [apply halts_perform|intros v].
  apply halts_bind; [apply halts_bind_name|by intros ?].
Qed.

Lemma halts_exec_block ss :
  Forall (fun s => halts (exec w s)) ss -> halts (exec_block w ss).
Proof.
  induction 1 as [|s ss Hs _ IH]; cbn [exec_block]; [apply halts_ret|].
  apply halts_bind; [done|by intros ?].
Qed.

Lemma halts_for_loop x body vs :
  halts (exec_block w body) -> halts (for_loop w x body vs).
Proof.
  intros Hb. induction vs as [|v vs IH]; cbn [for_loop]; [apply halts_ret|].
  apply halts_bind; [apply halts_bind_name|intros ?].
  apply halts_bind; [done|by intros ?].
Qed.

Lemma halts_exec s : halts (exec w s).
Proof.
  induction s using stmt_induction; rewrite ?exec_with, ?exec_for; cbn [exec].
  - apply halts_bind; [apply halts_perform|intros; apply halts_bind_name].
  - apply halts_bind; [apply halts_perform|intros; apply halts_import_from].
  - apply halts_bind; [apply halts_eval|intros; apply halts_bind_name].
  - apply halts_bind; [apply halts_eval|intros; apply halts_ret].
  - apply halts_bind; [apply halts_eval|intros vcm].
    apply halts_bind; [apply halts_perform|intros v].
    apply halts_finally.
    apply halts_bind; [apply halts_bind_name|intros; by apply halts_exec_block].
  - apply halts_bind; [apply halts_eval|intros vit].
    apply halts_bind; [apply halts_iterate|intros vs].
    by apply halts_for_loop, halts_exec_block.
Qed.

Lemma halts_run_cell c : halts (run_cell w c).
Proof.
  induction c as [|s c IH]; [apply halts_ret|].
  assert (Hstep : halts (exec w s ;;; run_cell w c)).
  { apply halts_bind; [apply halts_exec|by intros ?]. }
  destruct s; try exact Hstep.
  destruct c; [|exact Hstep]. cbn [run_cell].
  apply halts_bind; [apply halts_eval|intros v].
  apply halts_bind; [apply halts_perform|intros; apply halts_ret].
Qed.

Lemma halts_run_cells cs : halts (run_cells w cs).
Proof.
  induction cs as [|c cs IH]; cbn [run_cells]; [apply halts_ret|].
  apply halts_bind; [apply halts_run_cell|by intros ?].
Qed.

End Halts.

End Halting.

(** ** A [with] block that is entered is left

    Whatever happens inside the block: [__exit__] is called on every
    context manager whose [__enter__] returned. *)

Module Leaving.

Section Closes.

Variable w : world.

Definition closed_in (ev : list event) : Prop :=
  forall a k cm b,
    ev = a ++ Perform k (OEnter cm) :: b -> raises w k = None ->
    exists k', In (Perform k' (OExit cm)) b.

Definition closes {A} (m : M A) : Prop := forall st, closed_in (m st).2.

Lemma closed_in_nil : closed_in [].
Proof. intros [|? ?] ? ? ? Heq; discriminate Heq. Qed.

Lemma closed_in_one e : (forall k cm, e <> Perform k (OEnter cm)) -> closed_in [e].
Proof.
  intros He [|e' [|? ?]] k cm b Heq _; try discriminate Heq.
  injection Heq as -> _. by destruct (He k cm).
Qed.

Lemma closed_in_app ev1 ev2 :
  closed_in ev1 -> closed_in ev2 -> closed_in (ev1 ++ ev2).
Proof.
  intros H1 H2 a k cm b Heq Hk.
  apply app_eq_inv in Heq as [(l & Ha & Hl)|(l & Ha & Hl)].
  - destruct l as [|e' l]; cbn [app] in Hl.
    + rewrite app_nil_r in Ha. subst a ev2. by apply (H2 [] k cm b).
    + injection Hl as <- ->.
      destruct (H1 a k cm l Ha Hk) as [k' Hk']. exists k'.
      apply in_or_app. by left.
  - by apply (H2 l k cm b).
Qed.

(** Entering, some events, leaving. *)
Lemma closed_in_block k cm ev k' :
  closed_in ev ->
  closed_in (Perform k (OEnter cm) :: ev ++ [Perform k' (OExit cm)]).
Proof.
  intros H a j cm' b Heq Hj. destruct a as [|e a]; cbn [app] in Heq.
  - injection Heq as _ <- <-. exists k'. apply in_or_app. right. by left.
  - injection Heq as _ Heq.
    assert (Hc : closed_in (ev ++ [Perform k' (OExit cm)])).
    { apply closed_in_app; [exact H|]. apply closed_in_one. intros ? ? ?. discriminate. }
    by apply (Hc a j cm' b).
Qed.

Lemma closes_ret {A} (a : A) : closes (ret a).
Proof. intros st. apply closed_in_nil. Qed.

Lemma closes_bind {A B} (m : M A) (f : A -> M B) :
  closes m -> (forall a, closes (f a)) -> closes (bind m f).
Proof.
  intros Hm Hf st. unfold bind. specialize (Hm st).
  destruct (m st) as [[[x|e] st1] ev1]; [|exact Hm].
  specialize (Hf x st1). destruct (f x st1) as [[r st2] ev2].
  cbn [snd] in *. by apply closed_in_app.
Qed.

Lemma closes_perform o :
  (forall cm, o <> OEnter cm) -> closes (perform w o).
Proof.
  intros Ho st. unfold perform.
  destruct (raises w (clock st)); cbn [snd]; apply closed_in_one;
    intros k cm H; injection H as _ H; by destruct (Ho cm).
Qed.

Lemma closes_iterate v : closes (iterate w v).
Proof.
  intros st. unfold iterate.
  pose proof (closes_perform (OIter v) (fun cm H => ltac:(discriminate H)) st) as H.
  by destruct (perform w (OIter v) st) as [[[a|e] st1] ev1].
Qed.

(** The whole of a [with] statement after its context manager is
    evaluated: enter, then the body, then leave. *)
Lemma closes_block (m : value -> M unit) cm :
  (forall a, closes (m a)) ->
  closes (v <- perform w (OEnter cm) ;; finally (m v) (leave w cm)).
Proof.
  intros Hm st. unfold bind at 1. unfold perform at 1.
  destruct (raises w (clock st)) as [what|] eqn:E; cbn [snd].
  - intros [|e [|? ?]] k cm' b Heq Hk; try discriminate Heq.
    injection Heq as <- _ _. rewrite E in Hk. discriminate Hk.
  - unfold finally, leave, bind, perform, ret.
    set (st1 := State (globals st) (S (clock st))).
    set (v := VRet (clock st) (OEnter cm)).
    specialize (Hm v st1). destruct (m v st1) as [[r st2] ev2]. cbn [snd] in Hm.
    cbn [clock globals].
    destruct (raises w (clock st2)); cbn [snd app];
      rewrite ?app_nil_r; by apply closed_in_block.
Qed.

Ltac not_enter := let cm := fresh in let H := fresh in intros cm H; discriminate H.

Lemma closes_lookup x : closes (lookup_name x).
Proof.
  intros st. unfold lookup_name.
  destruct (globals st !! x); [|destruct (is_builtin x)]; apply closed_in_nil.
Qed.

Lemma closes_bind_name x v : closes (bind_name x v).
Proof. intros st. apply closed_in_one. intros ? ? H. discriminate H. Qed.

Lemma closes_eval_args es :
  Forall (fun e => closes (eval w e)) es -> closes (eval_args w es).
Proof.
  induction 1 as [|e es He _ IH]; cbn [eval_args]; [apply closes_ret|].
  apply closes_bind; [done|intros v].
  apply closes_bind; [done|intros vs; apply closes_ret].
Qed.

Lemma closes_eval_kwargs kes :
  Forall (fun ke => closes (eval w (snd ke))) kes -> closes (eval_kwargs w kes).
Proof.
  induction 1 as [|[k e] kes He _ IH]; cbn [eval_kwargs]; [apply closes_ret|].
  apply closes_bind; [done|intros v].
  apply closes_bind; [done|intros vs; apply closes_ret].
Qed.

Lemma closes_eval e : closes (eval w e).
Proof.
  induction e using expr_induction;
    rewrite ?eval_call, ?eval_list, ?eval_joined; cbn [eval];
    repeat first
      [ apply closes_ret | apply closes_lookup
      | apply closes_perform; not_enter
      | assumption
      | by apply closes_eval_args | by apply closes_eval_kwargs
      | apply closes_bind; [|intros ?] ].
Qed.

Lemma closes_import_from m names : closes (import_from w m names).
Proof.
  induction names as [|[n a] names IH]; cbn [import_from]; [apply closes_ret|].
  apply closes_bind; [apply closes_perform; not_enter|intros v].
  apply closes_bind; [apply closes_bind_name|by intros ?].
Qed.

Lemma closes_exec_block ss :
  Forall (fun s => closes (exec w s)) ss -> closes (exec_block w ss).
Proof.
  induction 1 as [|s ss Hs _ IH]; cbn [exec_block]; [apply closes_ret|].
  apply closes_bind; [done|by intros ?].
Qed.

Lemma closes_for_loop x body vs :
  closes (exec_block w body) -> closes (for_loop w x body vs).
Proof.
  intros Hb. induction vs as [|v vs IH]; cbn [for_loop]; [apply closes_ret|].
  apply closes_bind; [apply closes_bind_name|intros ?].
  apply closes_bind; [done|by intros ?].
Qed.

Lemma closes_exec s : closes (exec w s).
Proof.
  induction s using stmt_induction; rewrite ?exec_with, ?exec_for; cbn [exec].
  - apply closes_bind; [apply closes_perform; not_enter|intros; apply closes_bind_name].
  - apply closes_bind; [apply closes_perform; not_enter|intros; apply closes_import_from].
  - apply closes_bind; [apply closes_eval|intros; apply closes_bind_name].
  - apply closes_bind; [apply closes_eval|intros; apply closes_ret].
  - apply closes_bind; [apply closes_eval|intros vcm].
    apply (closes_block (fun v => bind_name x v ;;; exec_block w body)).
    intros v. apply closes_bind; [apply closes_bind_name|intros; by apply closes_exec_block].
  - apply closes_bind; [apply closes_eval|intros vit].
    apply closes_bind; [apply closes_iterate|intros vs].
    by apply closes_for_loop, closes_exec_block.
Qed.

Lemma closes_run_cell c : closes (run_cell w c).
Proof.
  induction c as [|s c IH]; [apply closes_ret|].
  assert (Hstep : closes (exec w s ;;; run_cell w c)).
  { apply closes_bind; [apply closes_exec|by intros ?]. }
  destruct s; try exact Hstep.
  destruct c; [|exact Hstep]. cbn [run_cell].
  apply closes_bind; [apply closes_eval|intros v].
  apply closes_bind; [apply closes_perform; not_enter|intros; apply closes_ret].
Qed.

Lemma closes_run_cells cs : closes (run_cells w cs).
Proof.
  induction cs as [|c cs IH]; cbn [run_cells]; [apply closes_ret|].
  apply closes_bind; [apply closes_run_cell|by intros ?].
Qed.

End Closes.

End Leaving.

Import Halting Leaving.

(** ** Errors *)

(** The recorded run, except that operation 29, [f.write(bell_qasm)],
    raises. *)
Definition write_fails : world :=
  World (fun i => if Nat.eqb i 29 then Some "OSError" else None) (fun _ => 5).

(** X2: when an operation raises, the run ends in an error, and no later
    operation is performed other than [__exit__] calls. *)
Theorem X2_stops_at_first_error w i what :
  raises w i = Some what ->
  (forall o, In (Perform i o) (trace w) -> exists e, result w = Err e) /\
  (forall j o, In (Perform j o) (trace w) -> i < j -> exists cm, o = OExit cm).
Proof.
  intros Hi. pose proof (halts_run_cells w cells init) as H.
  unfold trace, result, run. destruct (run_cells w cells init) as [[r st] ev].
  destruct H as (_ & H1 & H2 & H3). cbn [fst snd clock init] in *.
  assert (Hfail : failing w i) by (by eexists).
  split.
  - intros o Ho. apply H1 in Ho. specialize (H2 i Ho Hfail).
    destruct r as [[]|e]; [destruct H2|by exists e].
  - intros j o Hj Hij. specialize (H3 j o i Hj (conj (Nat.le_0_l _) Hij) Hfail).
    destruct o; try destruct H3. by eexists.
Qed.

Lemma X2_stops_at_first_error_witness :
  (forall o, In (Perform 29 o) (trace write_fails) -> exists e, result write_fails = Err e) /\
  (forall j o, In (Perform j o) (trace write_fails) -> 29 < j -> exists cm, o = OExit cm).
Proof. apply (X2_stops_at_first_error write_fails 29 "OSError"). reflexivity. Defined.

(** X3: a [with] block that was entered is left: whenever [__enter__] has
    returned (operation [k] did not raise), [__exit__] is called on the
    same context manager later in the run, also when the block raises.  In
    the notebook: the file [bell.qasm] is closed even if writing fails. *)
Theorem X3_entered_is_left w a k cm b :
  trace w = a ++ Perform k (OEnter cm) :: b -> raises w k = None ->
  exists k', In (Perform k' (OExit cm)) b.
Proof. intros Heq Hk. by apply (closes_run_cells w cells init a k cm b). Qed.

(** The file object of cell 5 in the recorded run. *)
Definition opened_file : value :=
  match recorded_op 27 with
  | OEnter cm => cm
  | _ => VBool false
  end.

Lemma X3_entered_is_left_witness :
  exists k', In (Perform k' (OExit opened_file)) (skipn 42 (trace write_fails)).
Proof.
  apply (X3_entered_is_left write_fails (firstn 41 (trace write_fails)) 27).
  - vm_compute. reflexivity.
  - reflexivity.
Defined.

(** ** What is submitted, and where *)

(** The device an [AwsDevice(arn)] object stands for. *)
Definition device_arn (v : value) : option string :=
  match v with
  | VRet _ (OCall f [VStr arn] []) =>
      if same (path f) ["braket.aws"; "AwsDevice"] then Some arn else None
  | _ => None
  end.

(** [AwsDevice(arn).run(..., shots=n)]: the device and the shots. *)
Definition submission (e : event) : option (string * Z) :=
  match e with
  | Perform _ (OCall (VRet _ (OGetAttr dev a)) _ kwargs) =>
      if String.eqb a "run" then arn ← device_arn dev; n ← shots kwargs; Some (arn, n)
      else None
  | _ => None
  end.

Definition sv1_arn : string := "arn:aws:braket:::device/quantum-simulator/amazon/sv1".
Definition dm1_arn : string := "arn:aws:braket:::device/quantum-simulator/amazon/dm1".
Definition aspen_m1_arn : string := "arn:aws:braket:us-west-1::device/qpu/rigetti/Aspen-M-1".

(** The tasks of the notebook, in the order of the cells. *)
Definition submissions : list (string * Z) :=
  [ (sv1_arn, 100%Z); (dm1_arn, 10%Z); (dm1_arn, 10%Z); (dm1_arn, 10%Z);
    (aspen_m1_arn, 10%Z); (aspen_m1_arn, 10%Z); (sv1_arn, 0%Z) ].

Lemma no_submission_in_loop x k vs :
  omap submission (loop_events x k vs) = [].
Proof.
  revert k. induction vs as [|v vs IH]; intros k; [reflexivity|].
  cbn [loop_events]. exact (IH (S k)).
Qed.

Lemma submissions_of_calm_events n1 n2 :
  omap submission (calm_events n1 n2) = submissions.
Proof.
  rewrite omap_calm_events, !no_submission_in_loop.
  assert (HA : omap submission (evA ++ [Perform kA (OIter vA)]) =
               firstn 5 submissions) by (vm_compute; reflexivity).
  assert (HB : forall m, omap submission
                           (evB m ++ [Perform (kB m) (OIter (vB m))]) =
                         firstn 1 (skipn 5 submissions))
    by (intros; vm_compute; reflexivity).
  assert (HC : forall m n, omap submission (evC m n) = skipn 6 submissions)
    by (intros; vm_compute; reflexivity).
  rewrite HA, HB, HC. reflexivity.
Qed.

Lemma completed_submissions w :
  result w = Ok tt -> omap submission (trace w) = submissions.
Proof.
  intros Hr. destruct (runs w) as [[_ Ht]|(i & what & _ & _ & Hr' & _)];
    [|rewrite Hr in Hr'; discriminate Hr'].
  rewrite Ht. apply submissions_of_calm_events.
Qed.



(** ** The two loops *)

(** A value that is, or is made from, an element of an iteration. *)
Fixpoint from_item (v : value) : bool :=
  match v with
  | VItem _ _ _ => true
  | VRet _ o => op_from_item o
  | VList vs | VJoined vs => existsb from_item vs
  | _ => false
  end
with op_from_item (o : op) : bool :=
  match o with
  | OImport _ => false
  | OImportFrom m _ => from_item m
  | OCall f args kwargs =>
      from_item f || existsb from_item args ||
      existsb (fun kv => from_item (snd kv)) kwargs
  | OGetAttr v _ | OFormat v _ | OIter v | OEnter v | OExit v | ODisplay v => from_item v
  | OGetItem v k => from_item v || from_item k
  | OAdd a b => from_item a || from_item b
  end.

(** An operation that is applied to an element of an iteration. *)
Definition on_item (e : event) : option op :=
  match e with
  | Perform _ o => if op_from_item o then Some o else None
  | Bind _ _ => None
  end.

(** [print(v)] *)
Definition print_of (v : value) : op := OCall (VBuiltin "print") [v] [].

Lemma on_items_of_loop x k i v n :
  omap on_item (loop_events x k (items_of i v n)) =
  map (fun j => print_of (VItem i (OIter v) j)) (seq 0 n).
Proof.
  unfold items_of. generalize (seq 0 n). intros l. revert k.
  induction l as [|j l IH]; intros k; [reflexivity|].
  cbn [map loop_events].
  change (print_of (VItem i (OIter v) j) ::
          omap on_item (loop_events x (S k) (map (VItem i (OIter v)) l)) =
          print_of (VItem i (OIter v) j) ::
          map (fun j => print_of (VItem i (OIter v) j)) l).
  f_equal. apply IH.
Qed.

(** [aspen_m1.properties.paradigm.nativeGateSet] and
    [sv1.properties.action['braket.ir.openqasm.program'].supportedResultTypes],
    written out as [Show.show] writes them. *)
Definition native_gate_set : string :=
  (Show.called "braket.aws.AwsDevice" [Show.quoted aspen_m1_arn] ++
   ".properties.paradigm.nativeGateSet")%string.
Definition supported_result_types : string :=
  (Show.called "braket.aws.AwsDevice" [Show.quoted sv1_arn] ++
   ".properties.action[" ++ Show.quoted "braket.ir.openqasm.program" ++
   "].supportedResultTypes")%string.

(** X4: in a run that completes, the operations applied to elements of
    an iteration are [print] calls with the element as their one
    argument: one for each element of the native gate set of the
    Aspen-M-1 device, in the order of the iteration, and then one for each
    element of the result types SV1 supports for OpenQASM programs. *)
Theorem X4_loops_print_each_element w :
  result w = Ok tt ->
  exists k1 v1 k2 v2,
    Show.show v1 = native_gate_set /\ Show.show v2 = supported_result_types /\
    omap on_item (trace w) =
    map (fun j => print_of (VItem k1 (OIter v1) j)) (seq 0 (items w k1)) ++
    map (fun j => print_of (VItem k2 (OIter v2) j)) (seq 0 (items w k2)).
Proof.
  intros Hr. destruct (runs w) as [[_ Ht]|(i & what & _ & _ & Hr' & _)];
    [|rewrite Hr in Hr'; discriminate Hr'].
  exists kA, vA, (kB (first_count w + S kA)), (vB (first_count w + S kA)).
  split; [vm_compute; reflexivity|]. split; [vm_compute; reflexivity|].
  rewrite Ht, omap_calm_events, !on_items_of_loop.
  assert (HA : omap on_item (evA ++ [Perform kA (OIter vA)]) = [])
    by (vm_compute; reflexivity).
  assert (HB : forall m, omap on_item
                           (evB m ++ [Perform (kB m) (OIter (vB m))]) = [])
    by (intros; vm_compute; reflexivity).
  assert (HC : forall m n, omap on_item (evC m n) = [])
    by (intros; vm_compute; reflexivity).
  rewrite HA, HB, HC, app_nil_r. reflexivity.
Qed.

Lemma X4_loops_print_each_element_witness :
  exists k1 v1 k2 v2,
    Show.show v1 = native_gate_set /\ Show.show v2 = supported_result_types /\
    omap on_item (trace recorded) =
    map (fun j => print_of (VItem k1 (OIter v1) j)) (seq 0 (items recorded k1)) ++
    map (fun j => print_of (VItem k2 (OIter v2) j)) (seq 0 (items recorded k2)).
Proof. apply X4_loops_print_each_element. vm_compute. reflexivity. Defined.

(** ** The cost tracker *)

Definition tracker : list string := ["braket.tracking"; "Tracker"; "()"; "start"; "()"].

(** [Tracker().start()] *)
Definition starts_tracker (e : event) : bool :=
  match e with
  | Perform _ (OCall f [] []) => same (path f ++ ["()"]) tracker
  | _ => false
  end.

(** [t.quantum_tasks_statistics()], [t.qpu_tasks_cost()] and
    [t.simulator_tasks_cost()] on the started tracker. *)
Definition reads_tracker (e : event) : bool :=
  match e with
  | Perform _ (OCall (VRet _ (OGetAttr t _)) [] []) => same (path t) tracker
  | _ => false
  end.

Definition tracking : string := "tracking".

Definition needs_tracker (e : event) : list string :=
  if is_submit e then [tracking] else [].
Definition gives_tracker (e : event) : list string :=
  if starts_tracker e then [tracking] else [].

(** X6: a task is created only after the cost tracker was started: in
    every run, each [run] call comes after [Tracker().start()]. *)
Theorem X6_tracker_started_first w a e b :
  trace w = a ++ e :: b -> is_submit e = true ->
  exists e', In e' a /\ starts_tracker e' = true.
Proof.
  intros Heq He.
  assert (H : is_Some (run_mon (supply needs_tracker gives_tracker) [] (trace w))).
  { eapply proj1. evaluate_monitor (supply needs_tracker gives_tracker) (@nil string). }
  destruct H as [seen Hseen].
  destruct (supply_sound _ _ _ _ _ Hseen a e b Heq tracking) as [[]|(e' & He' & Hg)].
  { unfold needs_tracker. rewrite He. by left. }
  exists e'. split; [exact He'|].
  unfold gives_tracker in Hg. destruct (starts_tracker e'); [reflexivity|destruct Hg].
Qed.

Lemma X6_tracker_started_first_witness :
  exists e', In e' (firstn 38 (trace recorded)) /\ starts_tracker e' = true.
Proof.
  apply (X6_tracker_started_first recorded _ (Perform 25 (recorded_op 25))
           (skipn 39 (trace recorded))).
  - vm_compute. reflexivity.
  - vm_compute. reflexivity.
Defined.

Section Last.

Variables p q : event -> bool.

(** No event of [p] after an event of [q]: the state tells whether an
    event of [q] was seen. *)
Definition none_after (seen : bool) (e : event) : option bool :=
  if seen && p e then None else Some (seen || q e).

Lemma none_after_seen t s :
  run_mon none_after true t = Some s -> Forall (fun e => p e = false) t.
Proof.
  revert s. induction t as [|e t IH]; intros s H; [constructor|].
  cbn [run_mon] in H. unfold none_after at 1 in H. cbn [andb orb] in H.
  destruct (p e) eqn:E; [discriminate H|]. constructor; [exact E|by eapply IH].
Qed.

Lemma none_after_sound s0 t s :
  run_mon none_after s0 t = Some s ->
  forall a e b, t = a ++ e :: b -> q e = true -> Forall (fun e' => p e' = false) b.
Proof.
  revert s0. induction t as [|e0 t IH]; intros s0 H a e b Heq He.
  - destruct a; discriminate Heq.
  - cbn [run_mon] in H. unfold none_after at 1 in H.
    destruct (s0 && p e0); [discriminate H|].
    destruct a as [|e1 a]; cbn [app] in Heq; injection Heq as -> ->.
    + rewrite He, orb_true_r in H. by eapply none_after_seen.
    + by eapply IH.
Qed.

End Last.

Lemma submission_is_submit e : is_submit e = false -> submission e = None.
Proof.
  destruct e as [i o|x v]; [|reflexivity]. unfold is_submit.
  intros H. apply bool_decide_eq_false in H.
  destruct o as [| |f args kwargs| | | | | | | |]; try reflexivity.
  destruct f as [| | | | | | |j [| | |r n| | | | | | |]|]; try reflexivity.
  cbn [submission]. cbn [run_call] in H.
  destruct (String.eqb n "run"); [|reflexivity]. destruct H. by eexists.
Qed.

Lemma reading_is_no_submission e : reads_tracker e = true -> submission e = None.
Proof.
  destruct e as [i o|x v]; [|reflexivity].
  destruct o as [| |f args kwargs| | | | | | | |]; try discriminate.
  destruct f as [| | | | | | |j [| | |r n| | | | | | |]|]; try discriminate.
  destruct args; [|discriminate]. destruct kwargs; [|discriminate].
  intros _. cbn [submission]. destruct (String.eqb n "run"); [|reflexivity].
  destruct (device_arn r); reflexivity.
Qed.

(** X7: the tracker is read when all tasks have been created: in every
    run no [run] call follows a call that reads the tracker, and a run
    that completes reads the tracker, after its seven tasks. *)
Theorem X7_tracker_read_last w :
  (forall a e b, trace w = a ++ e :: b -> reads_tracker e = true ->
                 Forall (fun e' => is_submit e' = false) b) /\
  (result w = Ok tt ->
   exists a e b, trace w = a ++ e :: b /\ reads_tracker e = true /\
                 omap submission a = submissions).
Proof.
  split.
  - assert (H : is_Some (run_mon (none_after is_submit reads_tracker) false (trace w))).
    { eapply proj1.
      evaluate_monitor_with ltac:(intros [] i cm; reflexivity)
        (none_after is_submit reads_tracker) false. }
    destruct H as [s Hs]. intros a e b. by eapply none_after_sound.
  - intros Hr.
    assert (H : is_Some (run_mon (advance (fun _ : unit => reads_tracker)) [tt] (trace w)) /\
                (result w = Ok tt ->
                 run_mon (advance (fun _ : unit => reads_tracker)) [tt] (trace w) = Some [])).
    { evaluate_monitor_with
        ltac:(intros rest i cm; destruct rest as [|[] rest]; reflexivity)
        (advance (fun _ : unit => reads_tracker)) [tt]. }
    destruct H as [_ H]. specialize (H Hr).
    apply advance_sound in H. destruct H as (a & e & b & Heq & He & _).
    exists a, e, b. split; [exact Heq|]. split; [exact He|].
    pose proof (completed_submissions w Hr) as Hall.
    rewrite Heq, omap_app in Hall.
    assert (Hb : omap submission (e :: b) = []); [|by rewrite Hb, app_nil_r in Hall].
    assert (H1 : submission e = None) by by apply reading_is_no_submission.
    assert (H2 : omap submission b = []).
    { assert (Hb : Forall (fun e' => is_submit e' = false) b).
      { assert (H : is_Some (run_mon (none_after is_submit reads_tracker) false (trace w))).
        { eapply proj1.
          evaluate_monitor_with ltac:(intros [] i cm; reflexivity)
            (none_after is_submit reads_tracker) false. }
        destruct H as [s Hs]. by eapply none_after_sound. }
      clear Heq Hall. induction Hb as [|e' b He' _ IH]; [reflexivity|].
      apply submission_is_submit in He'.
      change (omap submission (e' :: b))
        with (match submission e' with
              | Some y => y :: omap submission b | None => omap submission b end).
      rewrite He'. exact IH. }
    change (omap submission (e :: b))
      with (match submission e with
            | Some y => y :: omap submission b | None => omap submission b end).
    rewrite H1. exact H2.
Qed.

Lemma X7_tracker_read_last_witness :
  Forall (fun e' => is_submit e' = false) (skipn 204 (trace recorded)) /\
  exists a e b, trace recorded = a ++ e :: b /\ reads_tracker e = true /\
                omap submission a = submissions.
Proof.
  split.
  - apply (proj1 (X7_tracker_read_last recorded) (firstn 203 (trace recorded))
             (Perform 146 (recorded_op 146))).
    + vm_compute. reflexivity.
    + vm_compute. reflexivity.
  - apply (proj2 (X7_tracker_read_last recorded)). vm_compute. reflexivity.
Defined.

(** ** The two classes called [Program] *)

Definition jaqcd_program : list string := ["braket.ir.jaqcd"; "Program"].
Definition openqasm_program : list string := ["braket.ir.openqasm"; "Program"].

Definition program_names_ok (e : event) : bool :=
  match e with
  | Bind x v =>
      if String.eqb x "Program" then same (path v) jaqcd_program
      else if String.eqb x "OpenQASMProgram" then same (path v) openqasm_program
      else true
  | Perform _ _ => true
  end.

(** X8: importing the OpenQASM [Program] under the name [OpenQASMProgram]
    leaves the name [Program] to the JAQCD class: in every run, [Program]
    is only ever bound to [braket.ir.jaqcd.Program], and [OpenQASMProgram]
    to [braket.ir.openqasm.Program]. *)
Theorem X8_program_names w x v :
  In (Bind x v) (trace w) ->
  (x = "Program" -> path v = jaqcd_program) /\
  (x = "OpenQASMProgram" -> path v = openqasm_program).
Proof.
  intros HIn.
  assert (H : program_names_ok (Bind x v) = true).
  { revert HIn. generalize (Bind x v). revert w. evaluate_checks. }
  cbn [program_names_ok] in H. split; intros ->.
  - rewrite String.eqb_refl in H. by apply bool_decide_eq_true in H.
  - change (String.eqb "OpenQASMProgram" "Program") with false in H.
    rewrite String.eqb_refl in H. by apply bool_decide_eq_true in H.
Qed.

Lemma X8_program_names_witness :
  ("OpenQASMProgram" = "Program" -> path (VRet 21 (recorded_op 21)) = jaqcd_program) /\
  ("OpenQASMProgram" = "OpenQASMProgram" ->
   path (VRet 21 (recorded_op 21)) = openqasm_program).
Proof.
  apply (X8_program_names recorded).
  apply (nth_error_In _ 32). vm_compute. reflexivity.
Defined.

(** ** The Bell circuit, twice *)

Inductive gate : Type :=
| Hadamard (q : nat)
| ControlledNot (control target : nat).

(** The statements of the OpenQASM text [bell_qasm]. *)
Inductive statement : Type :=
| Version (n : nat)            (* OPENQASM n; *)
| Qubits (n : nat)             (* qubit[n] q; *)
| Bits (n : nat)               (* bit[n] c; *)
| Apply (g : gate)             (* h q[i];  cnot q[i], q[j]; *)
| MeasureAll.                  (* c = measure q; *)

Definition decimal (n : nat) : string := Words.number (Z.of_nat n).

Definition write_statement (s : statement) : string :=
  match s with
  | Version n => "OPENQASM " ++ decimal n ++ ";"
  | Qubits n => "qubit[" ++ decimal n ++ "] q;"
  | Bits n => "bit[" ++ decimal n ++ "] c;"
  | Apply (Hadamard q) => "h q[" ++ decimal q ++ "];"
  | Apply (ControlledNot c t) =>
      "cnot q[" ++ decimal c ++ "], q[" ++ decimal t ++ "];"
  | MeasureAll => "c = measure q;"
  end%string.

(** The statement the words of a line suggest. *)
Definition guess_statement (line : string) : option statement :=
  match Lex.split_words line with
  | [a; n] => if String.eqb a "OPENQASM" then Version <$> leading_number n else None
  | [a; n; r] =>
      if String.eqb a "qubit" then Qubits <$> leading_number n
      else if String.eqb a "bit" then Bits <$> leading_number n
      else if String.eqb a "h" then (fun q => Apply (Hadamard q)) <$> leading_number r
      else if String.eqb a "c" then Some MeasureAll
      else None
  | [a; _; i; _; j] =>
      if String.eqb a "cnot"
      then c ← leading_number i; t ← leading_number j; Some (Apply (ControlledNot c t))
      else None
  | _ => None
  end.

(** The statement a line is: the one that is written as the line is, to
    the character. *)
Definition read_statement (line : string) : option statement :=
  s ← guess_statement line;
  if String.eqb (write_statement s) line then Some s else None.

(** The statements of a text, none if a line other than an empty one is
    no statement. *)
Definition read_program (text : string) : option (list statement) :=
  mapM read_statement
       (List.filter (fun line => negb (String.eqb line "")) (lines_of text)).

Definition gates_of (p : list statement) : list gate :=
  omap (fun s => match s with Apply g => Some g | _ => None end) p.

(** A JAQCD instruction: [H(target=q)] or [CNot(control=c, target=t)], for
    qubit numbers that are not negative. *)
Definition jaqcd_gate (v : value) : option gate :=
  match v with
  | VRet _ (OCall f [] [(k, VInt q)]) =>
      if String.eqb (Show.show f) "braket.ir.jaqcd.H" && String.eqb k "target" &&
         Z.leb 0 q
      then Some (Hadamard (Z.to_nat q)) else None
  | VRet _ (OCall f [] [(k1, VInt c); (k2, VInt t)]) =>
      if String.eqb (Show.show f) "braket.ir.jaqcd.CNot" && String.eqb k1 "control" &&
         String.eqb k2 "target" && Z.leb 0 c && Z.leb 0 t
      then Some (ControlledNot (Z.to_nat c) (Z.to_nat t)) else None
  | _ => None
  end.

(** The instructions of [Program(instructions=[...])]. *)
Definition jaqcd_instructions (o : op) : option (list gate) :=
  match o with
  | OCall _ [] [(k, VList vs)] =>
      if String.eqb k "instructions" then mapM jaqcd_gate vs else None
  | _ => None
  end.

(** A call of the JAQCD class [Program]. *)
Definition jaqcd_call (o : op) : bool :=
  match o with
  | OCall f _ _ => String.eqb (Show.show f) "braket.ir.jaqcd.Program"
  | _ => false
  end.

Definition bell_statements : list statement :=
  [ Version 3; Qubits 2; Bits 2; Apply (Hadamard 0); Apply (ControlledNot 0 1);
    MeasureAll ].

#[local] Instance gate_eq_dec : EqDecision gate.
Proof. solve_decision. Defined.

Definition jaqcd_is_bell (e : event) : bool :=
  match e with
  | Perform _ o =>
      negb (jaqcd_call o) ||
      bool_decide (jaqcd_instructions o = Some (gates_of bell_statements))
  | Bind _ _ => true
  end.

(** X9: the JAQCD program applies the gates of the OpenQASM text
    [bell_qasm], in the same order.  The text consists of the version
    line, the declarations of two qubits and two bits, a Hadamard gate on
    qubit 0, a controlled not from qubit 0 to qubit 1, and the measurement
    of the qubits, and of nothing else; whenever a run builds a JAQCD
    [Program], its instructions are these two gates.  (The JAQCD program
    has no measurement.) *)
Theorem X9_jaqcd_program_is_bell w i o :
  In (Perform i o) (trace w) -> jaqcd_call o = true ->
  read_program Text.bell_qasm = Some bell_statements /\
  jaqcd_instructions o = Some (gates_of bell_statements).
Proof.
  intros HIn Ho. split; [vm_compute; reflexivity|].
  assert (H : jaqcd_is_bell (Perform i o) = true).
  { revert HIn. generalize (Perform i o). revert w. evaluate_checks. }
  cbn [jaqcd_is_bell] in H. rewrite Ho in H. cbn [negb orb] in H.
  by apply bool_decide_eq_true in H.
Qed.

Lemma X9_jaqcd_program_is_bell_witness :
  read_program Text.bell_qasm = Some bell_statements /\
  jaqcd_instructions (recorded_op 11) = Some (gates_of bell_statements).
Proof.
  apply (X9_jaqcd_program_is_bell recorded 11).
  - apply (nth_error_In _ 17). vm_compute. reflexivity.
  - vm_compute. reflexivity.
Defined.

(** ** The texts that are submitted *)

Definition submitted_text_ok (e : event) : bool :=
  match e with
  | Perform _ o =>
      match run_call o with
      | Some ([p], _) =>
          match qasm_source p with
          | Some s => contains "OPENQASM 3;" s && refs_in_range s
          | None => true
          end
      | _ => true
      end
  | Bind _ _ => true
  end.

(** X10: every program text a run submits to a device declares
    [OPENQASM 3;] and refers only to qubits of the register it declares:
    each index [i] of a [q[i]] is below the size [n] of [qubit[n] q;]. *)
Theorem X10_submitted_texts_in_range w i o p kwargs s :
  In (Perform i o) (trace w) -> run_call o = Some ([p], kwargs) ->
  qasm_source p = Some s ->
  contains "OPENQASM 3;" s = true /\ refs_in_range s = true.
Proof.
  intros HIn Ho Hp.
  assert (H : submitted_text_ok (Perform i o) = true).
  { revert HIn. generalize (Perform i o). revert w. evaluate_checks. }
  cbn [submitted_text_ok] in H. rewrite Ho, Hp in H.
  by apply andb_true_iff in H.
Qed.

(** The program and the keyword arguments of the first [run] call of the
    recorded run. *)
Definition first_program : value :=
  match run_call (recorded_op 25) with
  | Some ([p], _) => p
  | _ => VBool false
  end.
Definition first_kwargs : list (string * value) :=
  match run_call (recorded_op 25) with
  | Some (_, kwargs) => kwargs
  | None => []
  end.

Lemma X10_submitted_texts_in_range_witness :
  contains "OPENQASM 3;" Text.bell_qasm = true /\ refs_in_range Text.bell_qasm = true.
Proof.
  apply (X10_submitted_texts_in_range recorded 25 (recorded_op 25)
           first_program first_kwargs).
  - apply (nth_error_In _ 38). vm_compute. reflexivity.
  - vm_compute. reflexivity.
  - vm_compute. reflexivity.
Defined.
